(** * wproxy: the response cache and the token-bucket rate limiter

    A shallow embedding of [internal/cache/cache.go] and
    [internal/ratelimit/ratelimit.go], and the properties of the cache
    policy, the cache store, the limiter and the key extractors.

    Conventions.
    - A Go [string] is a sequence of bytes: [String.string], one [ascii]
      per byte.
    - Go's [int], [int64] and [time.Duration] are 64-bit: they are [Z]
      with the wrap-around written out ([wrap64]).
    - A [time.Time] is an instant counted in nanoseconds, a [Z].
    - [http.Header] is [map[string][]string]: a [gmap string (list string)].
    - [float64] is the kernel's binary64 [float]. *)

From Stdlib Require Import ZArith Ascii String List Lia Bool Floats Uint63.
From stdpp Require Import gmap strings list fin_maps.

Open Scope string_scope.
Open Scope list_scope.
Open Scope Z_scope.

(** ** Machine integers *)

Module Int64.

Definition min_int : Z := - 2 ^ 63.
Definition max_int : Z := 2 ^ 63 - 1.

(** Two's complement reduction of an integer to 64 bits. *)
Definition wrap64 (z : Z) : Z := (z + 2 ^ 63) mod 2 ^ 64 - 2 ^ 63.

Definition in_range (z : Z) : Prop := min_int <= z <= max_int.

Definition add (a b : Z) : Z := wrap64 (a + b).
Definition sub (a b : Z) : Z := wrap64 (a - b).
Definition mul (a b : Z) : Z := wrap64 (a * b).

(** Saturation, as [time.Time.Sub] does it. *)
Definition clamp (z : Z) : Z := Z.max min_int (Z.min max_int z).

Lemma wrap64_range z : in_range (wrap64 z).
Proof.
  unfold in_range, wrap64, min_int, max_int.
  pose proof (Z.mod_pos_bound (z + 2 ^ 63) (2 ^ 64) ltac:(lia)). lia.
Qed.

Lemma wrap64_id z : in_range z -> wrap64 z = z.
Proof.
  unfold in_range, wrap64, min_int, max_int. intros H.
  rewrite Z.mod_small by lia. lia.
Qed.

Lemma wrap64_add_l a b : wrap64 (wrap64 a + b) = wrap64 (a + b).
Proof.
  unfold wrap64.
  replace ((a + 2 ^ 63) mod 2 ^ 64 - 2 ^ 63 + b + 2 ^ 63)
    with ((a + 2 ^ 63) mod 2 ^ 64 + b) by lia.
  rewrite Zplus_mod_idemp_l. f_equal. f_equal. lia.
Qed.

Lemma wrap64_sub_l a b : wrap64 (wrap64 a - b) = wrap64 (a - b).
Proof.
  replace (wrap64 a - b) with (wrap64 a + - b) by lia.
  replace (a - b) with (a + - b) by lia. apply wrap64_add_l.
Qed.

Lemma wrap64_0 : wrap64 0 = 0.
Proof. reflexivity. Qed.

End Int64.

(** ** The parts of Go's standard library that the code calls *)

Module Go.

Definition byte_leb (a b : ascii) : bool := (N_of_ascii a <=? N_of_ascii b)%N.

(** [strings.Join(parts, sep)] *)
Fixpoint Join (parts : list string) (sep : string) : string :=
  match parts with
  | [] => ""
  | [p] => p
  | p :: rest => p +:+ sep +:+ Join rest sep
  end.

(** [strings.Split(s, sep)] for a separator of one byte: one field more
    than there are separators, so [Split "" c = [""]]. *)
Fixpoint Split (s : string) (sep : ascii) : list string :=
  match s with
  | EmptyString => [""]
  | String c rest =>
      if Ascii.eqb c sep then "" :: Split rest sep
      else match Split rest sep with
           | f :: fs => String c f :: fs
           | [] => [String c ""]
           end
  end.

(** [strings.SplitN(s, sep, 2)] for a separator of one byte: the text
    before and after the first separator, or [s] alone when it has none. *)
Fixpoint SplitN2 (s : string) (sep : ascii) : list string :=
  match s with
  | EmptyString => [""]
  | String c rest =>
      if Ascii.eqb c sep then [""; rest]
      else match SplitN2 rest sep with
           | [f] => [String c f]
           | f :: fs => String c f :: fs
           | [] => [String c ""]
           end
  end.

(** [strings.HasPrefix(s, prefix)] *)
Fixpoint HasPrefix (s p : string) : bool :=
  match p, s with
  | EmptyString, _ => true
  | String a p', String b s' => Ascii.eqb a b && HasPrefix s' p'
  | String _ _, EmptyString => false
  end.

(** *** [strconv.Atoi]: an optional sign, then decimal digits, the value
    within the range of [int] (64 bits); anything else is an error. *)

Definition digit_of (c : ascii) : option Z :=
  if byte_leb "0" c && byte_leb c "9"
  then Some (Z.of_N (N_of_ascii c) - 48) else None.

Fixpoint digits_value (s : string) (acc : Z) : option Z :=
  match s with
  | EmptyString => Some acc
  | String c rest =>
      match digit_of c with
      | Some d => digits_value rest (10 * acc + d)
      | None => None
      end
  end.

Definition unsigned_value (s : string) : option Z :=
  match s with
  | EmptyString => None
  | _ => digits_value s 0
  end.

Definition Atoi (s : string) : option Z :=
  let signed :=
    match s with
    | String c rest =>
        if Ascii.eqb c "+" then unsigned_value rest
        else if Ascii.eqb c "-" then Z.opp <$> unsigned_value rest
        else unsigned_value s
    | EmptyString => None
    end in
  match signed with
  | Some n =>
      if (Int64.min_int <=? n) && (n <=? Int64.max_int) then Some n else None
  | None => None
  end.

(** *** [net/textproto.CanonicalMIMEHeaderKey]: a key made of header
    token bytes only gets an upper-case letter first and after each
    hyphen and lower-case letters elsewhere; any other key is unchanged. *)

Definition is_lower (c : ascii) : bool := byte_leb "a" c && byte_leb c "z".
Definition is_upper (c : ascii) : bool := byte_leb "A" c && byte_leb c "Z".
Definition is_digit (c : ascii) : bool := byte_leb "0" c && byte_leb c "9".

Definition validHeaderFieldByte (c : ascii) : bool :=
  is_lower c || is_upper c || is_digit c ||
  existsb (Ascii.eqb c)
    ["!"; "#"; "$"; "%"; "&"; "'"; "*"; "+"; "-"; "."; "^"; "_"; "`"; "|"; "~"]%char.

Definition to_upper_byte (c : ascii) : ascii :=
  if is_lower c then ascii_of_N (N_of_ascii c - 32) else c.
Definition to_lower_byte (c : ascii) : ascii :=
  if is_upper c then ascii_of_N (N_of_ascii c + 32) else c.

Fixpoint all_bytes (p : ascii -> bool) (s : string) : bool :=
  match s with
  | EmptyString => true
  | String c rest => p c && all_bytes p rest
  end.

Fixpoint canonicalize (upper : bool) (s : string) : string :=
  match s with
  | EmptyString => ""
  | String c rest =>
      let c' := if upper then to_upper_byte c else to_lower_byte c in
      String c' (canonicalize (Ascii.eqb c' "-") rest)
  end.

Definition CanonicalMIMEHeaderKey (s : string) : string :=
  if all_bytes validHeaderFieldByte s then canonicalize true s else s.

(** *** [http.Header] *)

Abbreviation Header := (gmap string (list string)).

(** [h.Get(key)]: the first value stored under the canonical form of
    [key], or the empty string. *)
Definition Header_Get (h : Header) (key : string) : string :=
  match h !! CanonicalMIMEHeaderKey key with
  | Some (v :: _) => v
  | _ => ""
  end.

(** [h.Set(key, value)] *)
Definition Header_Set (h : Header) (key value : string) : Header :=
  <[CanonicalMIMEHeaderKey key := [value]]> h.

(** [h.Del(key)] *)
Definition Header_Del (h : Header) (key : string) : Header :=
  delete (CanonicalMIMEHeaderKey key) h.

(** The fields of [http.Request] that the code reads. *)
Record Request := {
  Method : string;
  URL_Path : string;
  URL_RawQuery : string;
  Req_Header : Header;
  RemoteAddr : string
}.

(** *** [encoding/hex] *)

Definition hex_digit (n : N) : ascii :=
  if (n <? 10)%N then ascii_of_N (48 + n) else ascii_of_N (87 + n).

Fixpoint hex_EncodeToString (s : string) : string :=
  match s with
  | EmptyString => ""
  | String c rest =>
      let n := N_of_ascii c in
      String (hex_digit (n / 16)) (String (hex_digit (n mod 16)) (hex_EncodeToString rest))
  end.

(** *** [time] *)

Definition Second : Z := 1000000000.
Definition Millisecond : Z := 1000000.

(** [t.Sub(u)], a [Duration]: the difference, saturated. *)
Definition Time_Sub (t u : Z) : Z := Int64.clamp (t - u).

(** [t.After(u)] *)
Definition Time_After (t u : Z) : bool := u <? t.

(** *** The ASCII fragment of [strings.ToLower] and [strings.TrimSpace].
    On a string of ASCII bytes Go's functions are these. *)

Fixpoint ToLowerASCII (s : string) : string :=
  match s with
  | EmptyString => ""
  | String c rest => String (to_lower_byte c) (ToLowerASCII rest)
  end.

Definition is_space (c : ascii) : bool :=
  existsb (Ascii.eqb c) ["009"; "010"; "011"; "012"; "013"; " "]%char.

Fixpoint trim_left (s : string) : string :=
  match s with
  | String c rest => if is_space c then trim_left rest else s
  | EmptyString => ""
  end.

Fixpoint trim_right (s : string) : string :=
  match s with
  | EmptyString => ""
  | String c rest =>
      match trim_right rest with
      | EmptyString => if is_space c then "" else String c ""
      | r => String c r
      end
  end.

Definition TrimSpaceASCII (s : string) : string := trim_right (trim_left s).

End Go.

(** ** Facts about strings *)

Module StringFacts.

Lemma length_append (a b : string) :
  String.length (a +:+ b) = (String.length a + String.length b)%nat.
Proof. induction a as [| c a IH]; simpl; [reflexivity | rewrite IH; reflexivity]. Qed.

Lemma append_assoc (a b c : string) : (a +:+ b) +:+ c = a +:+ (b +:+ c).
Proof.
  induction a as [| x a IH]; [reflexivity |].
  change (String x ((a +:+ b) +:+ c) = String x (a +:+ (b +:+ c))). rewrite IH. reflexivity.
Qed.

Lemma append_nil_r (s : string) : s +:+ "" = s.
Proof.
  induction s as [| c s IH]; [reflexivity |].
  change (String c (s +:+ "") = String c s). rewrite IH. reflexivity.
Qed.

Lemma append_inj_r (s1 s2 t : string) : s1 +:+ t = s2 +:+ t -> s1 = s2.
Proof.
  revert s2. induction s1 as [| c1 s1 IH]; intros [| c2 s2] H; simpl in H.
  - reflexivity.
  - exfalso. apply (f_equal String.length) in H.
    change ("" +:+ t) with t in H. simpl in H.
    rewrite (length_append s2 t) in H. lia.
  - exfalso. apply (f_equal String.length) in H.
    change ("" +:+ t) with t in H. simpl in H.
    rewrite (length_append s1 t) in H. lia.
  - injection H as -> H. f_equal. apply IH, H.
Qed.

End StringFacts.

(** ** The cache policy: [CacheKey], [IsCacheable], [ParseTTL] *)

Module Policy.
Import Go.

Section Policy.

(** [crypto/md5]: the 16-byte digest of a byte string. *)
Variable md5_Sum : string -> string.
(** [strings.ToLower] and [strings.TrimSpace], which follow Unicode. *)
Variable ToLower TrimSpace : string -> string.
(** [http.ParseTime]: the instant an HTTP date denotes, if it parses. *)
Variable ParseTime : string -> option Z.

(** The loop of [CacheKey] over the vary headers. *)
Fixpoint vary_parts (h : Header) (varyHeaders : list string) : list string :=
  match varyHeaders with
  | [] => []
  | header :: rest =>
      let val := Header_Get h header in
      if String.eqb val "" then vary_parts h rest
      else (header +:+ ":" +:+ val) :: vary_parts h rest
  end.

(** The [parts] slice of [CacheKey], before it is joined and hashed. *)
Definition CacheKey_parts (r : Request) (varyHeaders : list string) : list string :=
  [Method r; URL_Path r]
  ++ (if String.eqb (URL_RawQuery r) "" then [] else [URL_RawQuery r])
  ++ vary_parts (Req_Header r) varyHeaders.

Definition CacheKey (r : Request) (varyHeaders : list string) : string :=
  hex_EncodeToString (md5_Sum (Join (CacheKey_parts r varyHeaders) "|")).

(** The test of one directive in [IsCacheable]. *)
Definition forbids_caching (directive : string) : bool :=
  let directive := TrimSpace (ToLower directive) in
  String.eqb directive "no-store" || String.eqb directive "no-cache"
  || String.eqb directive "private".

Definition IsCacheable (r : Request) (statusCode : Z) (headers : Header) : bool :=
  if negb (String.eqb (Method r) "GET") && negb (String.eqb (Method r) "HEAD")
  then false
  else if (500 <=? statusCode) || ((400 <=? statusCode) && negb (statusCode =? 404))
  then false
  else
    let cacheControl := Header_Get headers "Cache-Control" in
    if negb (String.eqb cacheControl "")
       && existsb forbids_caching (Split cacheControl ",")
    then false
    else true.

(** The body of the loop of [ParseTTL]: the duration a directive gives,
    when it is a [max-age] with a value [Atoi] accepts. *)
Definition max_age_of (directive : string) : option Z :=
  let directive := TrimSpace directive in
  if HasPrefix (ToLower directive) "max-age=" then
    match SplitN2 directive "=" with
    | [_; value] =>
        match Atoi value with
        | Some seconds => Some (Int64.mul seconds Second)
        | None => None
        end
    | _ => None
    end
  else None.

Fixpoint first_max_age (directives : list string) : option Z :=
  match directives with
  | [] => None
  | d :: rest =>
      match max_age_of d with
      | Some ttl => Some ttl
      | None => first_max_age rest
      end
  end.

(** The part of [ParseTTL] below the loop. [now] is the clock that
    [time.Until] reads. *)
Definition expires_ttl (headers : Header) (defaultTTL now : Z) : Z :=
  let expires := Header_Get headers "Expires" in
  if String.eqb expires "" then defaultTTL
  else match ParseTime expires with
       | Some t =>
           let ttl := Time_Sub t now in
           if 0 <? ttl then ttl else defaultTTL
       | None => defaultTTL
       end.

Definition ParseTTL (headers : Header) (defaultTTL now : Z) : Z :=
  let cacheControl := Header_Get headers "Cache-Control" in
  if String.eqb cacheControl "" then defaultTTL
  else match first_max_age (Split cacheControl ",") with
       | Some ttl => ttl
       | None => expires_ttl headers defaultTTL now
       end.

(** What the specification calls a header that contains a directive: the
    [Cache-Control] value is not empty and one of its comma-separated
    fields, lower-cased and trimmed, is the directive. *)
Definition has_directive (headers : Header) (name : string) : Prop :=
  let cacheControl := Header_Get headers "Cache-Control" in
  cacheControl <> "" /\
  exists d, d ∈ Split cacheControl "," /\ TrimSpace (ToLower d) = name.

(** A request with its header map replaced. *)
Definition with_header (r : Request) (h : Header) : Request :=
  {| Method := Method r; URL_Path := URL_Path r; URL_RawQuery := URL_RawQuery r;
     Req_Header := h; RemoteAddr := RemoteAddr r |}.

(** [GenerateETag(body)]: the digest of the body in hexadecimal, between
    double quotes. *)
Definition GenerateETag (body : string) : string :=
  String "034" (hex_EncodeToString (md5_Sum body) +:+ String "034" "").

End Policy.

(** *** The policy on ASCII headers *)

Definition IsCacheableA := IsCacheable ToLowerASCII TrimSpaceASCII.
Definition ParseTTLA := ParseTTL ToLowerASCII TrimSpaceASCII.

Definition GET : Request :=
  {| Method := "GET"; URL_Path := "/"; URL_RawQuery := ""; Req_Header := ∅;
     RemoteAddr := "" |}.
Definition POST : Request :=
  {| Method := "POST"; URL_Path := "/"; URL_RawQuery := ""; Req_Header := ∅;
     RemoteAddr := "" |}.

(** A digit of lower-case hexadecimal, and its value. *)
Definition is_hex (c : ascii) : bool :=
  is_digit c || (byte_leb "a" c && byte_leb c "f").

Definition hex_value (c : ascii) : N :=
  let n := N_of_ascii c in if (n <? 58)%N then (n - 48)%N else (n - 87)%N.

(** A request with a path in place of its path and its query. *)
Definition with_path (r : Request) (path : string) : Request :=
  {| Method := Method r; URL_Path := path; URL_RawQuery := "";
     Req_Header := Req_Header r; RemoteAddr := RemoteAddr r |}.

(** A sign or a decimal digit. *)
Definition is_sign_or_digit (c : ascii) : bool :=
  Ascii.eqb c "+" || Ascii.eqb c "-" || is_digit c.

(** Two requests for one path, with the cookies of two users. *)
Definition request_of (cookie : string) : Request :=
  {| Method := "GET"; URL_Path := "/account"; URL_RawQuery := "";
     Req_Header := {[ "Cookie" := [cookie] ]}; RemoteAddr := "" |}.

(** A request with a query. *)
Definition request_with_query : Request :=
  {| Method := "GET"; URL_Path := "/a"; URL_RawQuery := "b=1";
     Req_Header := ∅; RemoteAddr := "" |}.


(** *** Properties *)

Section Properties.

Variable md5_Sum : string -> string.
Variable ToLower TrimSpace : string -> string.
Variable ParseTime : string -> option Z.

Lemma eqb_false_iff_ne (a b : string) : String.eqb a b = false <-> a <> b.
Proof. destruct (String.eqb_spec a b); split; congruence. Qed.

Lemma forbids_caching_iff d :
  forbids_caching ToLower TrimSpace d = true <->
  TrimSpace (ToLower d) = "no-store" \/ TrimSpace (ToLower d) = "no-cache"
  \/ TrimSpace (ToLower d) = "private".
Proof.
  unfold forbids_caching. rewrite !orb_true_iff, !String.eqb_eq. tauto.
Qed.

Lemma exists_forbidding_iff headers :
  (negb (String.eqb (Header_Get headers "Cache-Control") "")
   && existsb (forbids_caching ToLower TrimSpace)
        (Split (Header_Get headers "Cache-Control") ",")) = true
  <-> has_directive ToLower TrimSpace headers "no-store"
      \/ has_directive ToLower TrimSpace headers "no-cache"
      \/ has_directive ToLower TrimSpace headers "private".
Proof.
  unfold has_directive.
  rewrite andb_true_iff, negb_true_iff, eqb_false_iff_ne, existsb_exists.
  split.
  - intros [Hne (d & Hin & Hd)]. apply list_elem_of_In in Hin.
    apply forbids_caching_iff in Hd. destruct Hd as [Hd | [Hd | Hd]];
      [left | right; left | right; right]; (split; [exact Hne | exists d; auto]).
  - intros [H | [H | H]]; destruct H as [Hne (d & Hin & Hd)];
      (split; [exact Hne |]); exists d; rewrite <- list_elem_of_In;
      (split; [exact Hin |]); apply forbids_caching_iff; auto.
Qed.

(** C8. [IsCacheable] answers true exactly when the method is GET or
    HEAD, the status is neither 500 or more nor a 4xx other than 404, and
    the [Cache-Control] header has none of the directives [no-store],
    [no-cache], [private] among its comma-separated fields, each
    lower-cased and trimmed. *)
Theorem IsCacheable_spec (r : Request) (statusCode : Z) (headers : Header) :
  IsCacheable ToLower TrimSpace r statusCode headers = true <->
  (Method r = "GET" \/ Method r = "HEAD")
  /\ ~ (500 <= statusCode \/ (400 <= statusCode < 500 /\ statusCode <> 404))
  /\ ~ (has_directive ToLower TrimSpace headers "no-store"
        \/ has_directive ToLower TrimSpace headers "no-cache"
        \/ has_directive ToLower TrimSpace headers "private").
Proof.
  unfold IsCacheable.
  rewrite <- exists_forbidding_iff.
  destruct (String.eqb_spec (Method r) "GET") as [Hg | Hg];
    destruct (String.eqb_spec (Method r) "HEAD") as [Hh | Hh]; simpl;
    try (split; [discriminate | intros [[?|?] _]; contradiction]).
  all: destruct (Z.leb_spec 500 statusCode); simpl;
    try (split; [discriminate | intros (_ & Hs & _); exfalso; apply Hs; lia]).
  all: destruct (Z.leb_spec 400 statusCode); simpl;
    destruct (Z.eqb_spec statusCode 404); simpl;
    try (split; [discriminate | intros (_ & Hs & _); exfalso; apply Hs; lia]).
  all: destruct (negb (String.eqb (Header_Get headers "Cache-Control") "")
                 && existsb (forbids_caching ToLower TrimSpace)
                      (Split (Header_Get headers "Cache-Control") ","));
    (split; [ try discriminate; intros _; repeat split; auto; try lia;
              try (intros ?; discriminate)
            | intros (_ & _ & Hd); try reflexivity; exfalso; apply Hd; reflexivity ]).
Qed.

Lemma Header_Get_Set_Del (h : Header) (name key : string) :
  Header_Get (Header_Set h name "") key = Header_Get (Header_Del h name) key.
Proof.
  unfold Header_Get, Header_Set, Header_Del.
  destruct (decide (CanonicalMIMEHeaderKey name = CanonicalMIMEHeaderKey key)) as [E | E].
  - rewrite E, lookup_insert_eq, lookup_delete_eq. reflexivity.
  - rewrite lookup_insert_ne, lookup_delete_ne by exact E. reflexivity.
Qed.

Lemma vary_parts_ext (h1 h2 : Header) (varyHeaders : list string) :
  (forall key, Header_Get h1 key = Header_Get h2 key) ->
  vary_parts h1 varyHeaders = vary_parts h2 varyHeaders.
Proof.
  intros Hget. induction varyHeaders as [| header rest IH]; simpl.
  - reflexivity.
  - rewrite Hget, IH. reflexivity.
Qed.

(** C10. A vary header that is present with an empty value gives the
    same cache key as the header being absent: it adds no part to the
    key, and the two requests hash the same string. *)
Theorem CacheKey_empty_vary_value (r : Request) (varyHeaders : list string) (name : string) :
  let present := with_header r (Header_Set (Req_Header r) name "") in
  let absent := with_header r (Header_Del (Req_Header r) name) in
  vary_parts (Req_Header present) [name] = []
  /\ vary_parts (Req_Header absent) [name] = []
  /\ CacheKey_parts present varyHeaders = CacheKey_parts absent varyHeaders
  /\ CacheKey md5_Sum present varyHeaders = CacheKey md5_Sum absent varyHeaders.
Proof.
  intros present absent.
  assert (Hparts : CacheKey_parts present varyHeaders = CacheKey_parts absent varyHeaders).
  { unfold CacheKey_parts, present, absent; simpl.
    rewrite (vary_parts_ext (Header_Set (Req_Header r) name "")
               (Header_Del (Req_Header r) name));
      [reflexivity | intros key; apply Header_Get_Set_Del]. }
  repeat split.
  - unfold present; simpl. unfold Header_Get, Header_Set.
    rewrite lookup_insert_eq. reflexivity.
  - unfold absent; simpl. unfold Header_Get, Header_Del.
    rewrite lookup_delete_eq. reflexivity.
  - exact Hparts.
  - unfold CacheKey. rewrite Hparts. reflexivity.
Qed.

(** [ParseTTL]: what the loop finds wins over [Expires]. *)
Lemma ParseTTL_max_age (headers : Header) (defaultTTL now ttl : Z) :
  Header_Get headers "Cache-Control" <> "" ->
  first_max_age ToLower TrimSpace (Split (Header_Get headers "Cache-Control") ",") = Some ttl ->
  ParseTTL ToLower TrimSpace ParseTime headers defaultTTL now = ttl.
Proof.
  intros Hne Hfirst. unfold ParseTTL.
  apply eqb_false_iff_ne in Hne. rewrite Hne, Hfirst. reflexivity.
Qed.

(** [ParseTTL]: without a [Cache-Control] value the answer is the
    default, whatever [Expires] says. *)
Lemma ParseTTL_no_cache_control (headers : Header) (defaultTTL now : Z) :
  Header_Get headers "Cache-Control" = "" ->
  ParseTTL ToLower TrimSpace ParseTime headers defaultTTL now = defaultTTL.
Proof. intros H. unfold ParseTTL. rewrite H. reflexivity. Qed.

(** *** The encoding of digests *)

Lemma hex_digit_spec (n : N) :
  (n < 16)%N -> hex_value (hex_digit n) = n /\ is_hex (hex_digit n) = true.
Proof.
  intros Hn. destruct n as [| p]; [split; reflexivity |].
  do 4 (try destruct p as [p | p |]); try (split; reflexivity); lia.
Qed.

Lemma nibbles (c : ascii) :
  (N_of_ascii c / 16 < 16)%N /\ (N_of_ascii c mod 16 < 16)%N.
Proof.
  pose proof (N_ascii_bounded c). split.
  - apply N.Div0.div_lt_upper_bound. lia.
  - apply N.mod_lt. lia.
Qed.

Lemma hex_EncodeToString_inj (s1 s2 : string) :
  hex_EncodeToString s1 = hex_EncodeToString s2 -> s1 = s2.
Proof.
  revert s2. induction s1 as [| c1 s1 IH]; intros [| c2 s2] H; simpl in H;
    try discriminate; [reflexivity |].
  injection H as Hhi Hlo Hrest.
  destruct (nibbles c1) as [Hh1 Hl1]. destruct (nibbles c2) as [Hh2 Hl2].
  apply (f_equal hex_value) in Hhi, Hlo.
  rewrite !(proj1 (hex_digit_spec _ Hh1)), !(proj1 (hex_digit_spec _ Hh2)) in Hhi.
  rewrite !(proj1 (hex_digit_spec _ Hl1)), !(proj1 (hex_digit_spec _ Hl2)) in Hlo.
  f_equal; [| apply IH, Hrest].
  rewrite <- (ascii_N_embedding c1), <- (ascii_N_embedding c2). f_equal.
  rewrite (N.div_mod (N_of_ascii c1) 16), (N.div_mod (N_of_ascii c2) 16) by lia.
  rewrite Hhi, Hlo. reflexivity.
Qed.

Lemma hex_EncodeToString_format (s : string) :
  String.length (hex_EncodeToString s) = (2 * String.length s)%nat
  /\ all_bytes is_hex (hex_EncodeToString s) = true.
Proof.
  induction s as [| c s [IHlen IHall]]; [split; reflexivity |]. simpl.
  destruct (nibbles c) as [Hh Hl]. split; [rewrite IHlen; lia |].
  rewrite (proj2 (hex_digit_spec _ Hh)), (proj2 (hex_digit_spec _ Hl)). exact IHall.
Qed.

(** X1. The ETag of a body is a double quote, the digest of the body
    written as two lower-case hexadecimal digits a byte, and a double
    quote. The encoding loses nothing: two bodies have the same ETag
    exactly when they have the same digest. *)
Theorem GenerateETag_format (body other : string) :
  (exists h, GenerateETag md5_Sum body = String "034" (h +:+ String "034" "")
             /\ String.length h = (2 * String.length (md5_Sum body))%nat
             /\ all_bytes is_hex h = true)
  /\ (GenerateETag md5_Sum body = GenerateETag md5_Sum other
      <-> md5_Sum body = md5_Sum other).
Proof.
  split.
  - exists (hex_EncodeToString (md5_Sum body)).
    split; [reflexivity | apply hex_EncodeToString_format].
  - unfold GenerateETag. split.
    + intros [= H]. apply StringFacts.append_inj_r in H. apply hex_EncodeToString_inj, H.
    + intros ->. reflexivity.
Qed.

(** *** What the cache key reads *)

Lemma vary_parts_agree (h1 h2 : Header) (varyHeaders : list string) :
  (forall name, name ∈ varyHeaders -> Header_Get h1 name = Header_Get h2 name) ->
  vary_parts h1 varyHeaders = vary_parts h2 varyHeaders.
Proof.
  induction varyHeaders as [| header rest IH]; intros Hget; simpl; [reflexivity |].
  rewrite (Hget header) by (left).
  rewrite IH by (intros name Hin; apply Hget; right; exact Hin). reflexivity.
Qed.

(** X2. The cache key reads the method, the path, the raw query and,
    of the headers, only the first value of each vary header: two
    requests that agree on these have the same key, whatever their
    other headers are. *)
Theorem CacheKey_reads_vary_headers_only (r1 r2 : Request) (varyHeaders : list string) :
  Method r1 = Method r2 -> URL_Path r1 = URL_Path r2 ->
  URL_RawQuery r1 = URL_RawQuery r2 ->
  (forall name, name ∈ varyHeaders ->
     Header_Get (Req_Header r1) name = Header_Get (Req_Header r2) name) ->
  CacheKey md5_Sum r1 varyHeaders = CacheKey md5_Sum r2 varyHeaders.
Proof.
  intros Hm Hp Hq Hh. unfold CacheKey, CacheKey_parts.
  rewrite Hm, Hp, Hq, (vary_parts_agree _ _ _ Hh). reflexivity.
Qed.

Lemma Join_cons2 (p q : string) (rest : list string) (sep : string) :
  Join (p :: q :: rest) sep = p +:+ sep +:+ Join (q :: rest) sep.
Proof. reflexivity. Qed.

Lemma Join_merge (m p q : string) (rest : list string) (sep : string) :
  Join (m :: (p +:+ sep +:+ q) :: rest) sep = Join (m :: p :: q :: rest) sep.
Proof.
  rewrite !Join_cons2. f_equal. f_equal. destruct rest as [| v rest].
  - reflexivity.
  - rewrite !Join_cons2. rewrite !StringFacts.append_assoc. reflexivity.
Qed.

(** X3. The parts of the key are joined with a bar that is not
    escaped: a request with a query has the key of the request whose
    path is that path, a bar and that query, and which has no query. *)
Theorem CacheKey_separator_not_escaped (r : Request) (varyHeaders : list string) :
  URL_RawQuery r <> "" ->
  CacheKey md5_Sum (with_path r (URL_Path r +:+ "|" +:+ URL_RawQuery r)) varyHeaders
  = CacheKey md5_Sum r varyHeaders.
Proof.
  intros Hq. unfold CacheKey, CacheKey_parts, with_path.
  cbn [Method URL_Path URL_RawQuery Req_Header].
  apply String.eqb_neq in Hq. rewrite Hq.
  change (String.eqb "" "") with true. cbn [app].
  rewrite Join_merge. reflexivity.
Qed.

(** *** Headers of several lines *)

Lemma Header_Get_first_line (headers : Header) (name v : string) (rest : list string)
    (key : string) :
  Header_Get (<[name := v :: rest]> headers) key = Header_Get (<[name := [v]]> headers) key.
Proof.
  unfold Header_Get. destruct (decide (name = CanonicalMIMEHeaderKey key)) as [-> | Hne].
  - rewrite !lookup_insert_eq. reflexivity.
  - rewrite !lookup_insert_ne by exact Hne. reflexivity.
Qed.

(** X20. [IsCacheable] and [ParseTTL] read the first line of the
    [Cache-Control] header only, that being what [Header.Get] returns:
    the further lines of the header change neither answer. *)
Theorem Cache_Control_first_line_only (r : Request) (statusCode : Z) (headers : Header)
    (v : string) (rest : list string) (defaultTTL now : Z) :
  let all_lines := <["Cache-Control" := v :: rest]> headers in
  let first_line := <["Cache-Control" := [v]]> headers in
  IsCacheable ToLower TrimSpace r statusCode all_lines
  = IsCacheable ToLower TrimSpace r statusCode first_line
  /\ ParseTTL ToLower TrimSpace ParseTime all_lines defaultTTL now
     = ParseTTL ToLower TrimSpace ParseTime first_line defaultTTL now.
Proof.
  intros all_lines first_line.
  assert (Hget : forall key, Header_Get all_lines key = Header_Get first_line key)
    by (intros key; apply Header_Get_first_line).
  split.
  - unfold IsCacheable. rewrite Hget. reflexivity.
  - unfold ParseTTL, expires_ttl. rewrite !Hget. reflexivity.
Qed.

End Properties.

Example IsCacheable_examples :
  IsCacheableA GET 200 ∅ = true
  /\ IsCacheableA POST 200 ∅ = false
  /\ IsCacheableA GET 500 ∅ = false
  /\ IsCacheableA GET 200 {[ "Cache-Control" := ["no-store"] ]} = false
  /\ IsCacheableA GET 404 {[ "Cache-Control" := ["public, max-age=60"] ]} = true
  /\ IsCacheableA GET 200 {[ "Cache-Control" := ["max-age=60,  Private "] ]} = false.
Proof. repeat split; vm_compute; reflexivity. Qed.

Example ParseTTL_examples (ParseTime : string -> option Z) (now : Z) :
  ParseTTLA ParseTime {[ "Cache-Control" := ["max-age=60"] ]} (300 * Second) now
    = 60 * Second
  /\ ParseTTLA ParseTime {[ "Cache-Control" := ["public, max-age=120"] ]} (300 * Second) now
    = 120 * Second
  /\ ParseTTLA ParseTime ∅ (300 * Second) now = 300 * Second.
Proof. repeat split; vm_compute; reflexivity. Qed.

(** C7, where the code departs from it. A negative [max-age] is returned
    as a negative duration; a [max-age] too large for a [Duration] wraps
    around; and a response with an [Expires] date and no [Cache-Control]
    gets the default, the date not being looked at. *)
Theorem ParseTTL_departures (ParseTime : string -> option Z) (now : Z) :
  ParseTTLA ParseTime {[ "Cache-Control" := ["max-age=-1"] ]} (300 * Second) now
    = - 1 * Second
  /\ ParseTTLA ParseTime {[ "Cache-Control" := ["max-age=9223372037"] ]} (300 * Second) now
    = - 9223372036709551616
  /\ ParseTTLA (fun _ => Some (now + 3600 * Second))
       {[ "Expires" := ["Wed, 21 Oct 2065 07:28:00 GMT"] ]} (300 * Second) now
    = 300 * Second.
Proof. repeat split; vm_compute; reflexivity. Qed.

(** The digest is a parameter: any function serves in an example. *)
Lemma CacheKey_reads_vary_headers_only_witness :
  CacheKey (fun s => s) (request_of "session=alice") ["Accept"]
  = CacheKey (fun s => s) (request_of "session=bob") ["Accept"].
Proof.
  apply CacheKey_reads_vary_headers_only; try reflexivity.
  intros name Hin. apply list_elem_of_singleton in Hin as ->. vm_compute. reflexivity.
Defined.

Lemma CacheKey_separator_not_escaped_witness :
  CacheKey (fun s => s) (with_path request_with_query "/a|b=1") []
  = CacheKey (fun s => s) request_with_query [].
Proof.
  apply (CacheKey_separator_not_escaped (fun s => s) request_with_query []).
  discriminate.
Defined.

(** *** A [max-age] that [Atoi] accepts *)

Lemma digits_value_digits (s : string) : forall acc v,
  digits_value s acc = Some v -> all_bytes is_digit s = true.
Proof.
  induction s as [| c s IH]; intros acc v H; [reflexivity |]. simpl in H |- *.
  unfold digit_of in H. fold (is_digit c) in H.
  destruct (is_digit c); [| discriminate]. simpl. apply (IH _ _ H).
Qed.

Lemma all_bytes_impl (p q : ascii -> bool) (s : string) :
  (forall c, p c = true -> q c = true) -> all_bytes p s = true -> all_bytes q s = true.
Proof.
  intros Hpq. induction s as [| c s IH]; simpl; [reflexivity |].
  rewrite !andb_true_iff. intros [Hc Hs]. split; [apply Hpq, Hc | apply IH, Hs].
Qed.

Lemma unsigned_value_digits (s : string) (v : Z) :
  unsigned_value s = Some v -> all_bytes is_sign_or_digit s = true.
Proof.
  intros H. apply (all_bytes_impl is_digit).
  - intros c Hc. unfold is_sign_or_digit. rewrite Hc. apply orb_true_r.
  - destruct s; [discriminate |]. apply (digits_value_digits _ 0 v H).
Qed.

(** What [Atoi] accepts is made of signs and digits. *)
Lemma Atoi_bytes (s : string) (n : Z) :
  Atoi s = Some n -> all_bytes is_sign_or_digit s = true.
Proof.
  unfold Atoi. destruct s as [| c rest]; [discriminate |].
  destruct (Ascii.eqb c "+") eqn:Ep; [| destruct (Ascii.eqb c "-") eqn:Em].
  - destruct (unsigned_value rest) as [v |] eqn:Ev; [| discriminate]. intros _.
    simpl. unfold is_sign_or_digit at 1. rewrite Ep. simpl.
    apply (unsigned_value_digits _ v Ev).
  - destruct (unsigned_value rest) as [v |] eqn:Ev; [| discriminate]. intros _.
    simpl. unfold is_sign_or_digit at 1. rewrite Ep, Em. simpl.
    apply (unsigned_value_digits _ v Ev).
  - destruct (unsigned_value (String c rest)) as [v |] eqn:Ev; [| discriminate]. intros _.
    apply (unsigned_value_digits _ v Ev).
Qed.

Lemma Split_one_field (s : string) (sep : ascii) :
  all_bytes (fun c => negb (Ascii.eqb c sep)) s = true -> Split s sep = [s].
Proof.
  induction s as [| c s IH]; simpl; [reflexivity |].
  rewrite andb_true_iff, negb_true_iff. intros [Hc Hs].
  rewrite Hc, (IH Hs). reflexivity.
Qed.

Lemma trim_right_id (s : string) :
  all_bytes (fun c => negb (is_space c)) s = true -> trim_right s = s.
Proof.
  induction s as [| c s IH]; simpl; [reflexivity |].
  rewrite andb_true_iff, negb_true_iff. intros [Hc Hs].
  rewrite (IH Hs), Hc. destruct s; reflexivity.
Qed.

Lemma sign_or_digit_plain (c : ascii) :
  is_sign_or_digit c = true ->
  negb (Ascii.eqb c ",") = true /\ negb (is_space c) = true.
Proof.
  unfold is_sign_or_digit, is_digit, byte_leb. intros H.
  destruct (Ascii.eqb_spec c ",") as [-> | _]; [discriminate |].
  split; [reflexivity |]. apply negb_true_iff.
  unfold is_space. simpl.
  repeat match goal with
         | |- context [Ascii.eqb c ?x] => destruct (Ascii.eqb_spec c x) as [-> | _];
                                            [discriminate |]
         end.
  reflexivity.
Qed.

Lemma HasPrefix_nil (s : string) : HasPrefix s "" = true.
Proof. destruct s; reflexivity. Qed.

(** X4. When the [Cache-Control] header is [max-age=] followed by a
    text that [strconv.Atoi] accepts as the integer [n], [ParseTTL]
    returns [n] seconds as 64-bit multiplication gives them: [n]
    seconds exactly when [n] is at most 9223372036 in size, a negative
    duration when [n] is negative. The [Expires] header and the default
    are not looked at. *)
Theorem ParseTTL_max_age_value (ParseTime : string -> option Z)
    (headers : Header) (value : string) (n defaultTTL now : Z) :
  Atoi value = Some n ->
  let headers' := Header_Set headers "Cache-Control" ("max-age=" +:+ value) in
  ParseTTLA ParseTime headers' defaultTTL now = Int64.wrap64 (n * Second)
  /\ (- 9223372036 <= n <= 9223372036 ->
        ParseTTLA ParseTime headers' defaultTTL now = n * Second).
Proof.
  intros Hn headers'.
  assert (Hbytes : all_bytes is_sign_or_digit value = true) by apply (Atoi_bytes _ _ Hn).
  assert (Hget : Header_Get headers' "Cache-Control" = "max-age=" +:+ value).
  { unfold headers', Header_Get, Header_Set. rewrite lookup_insert_eq. reflexivity. }
  assert (Hsplit : Split ("max-age=" +:+ value) "," = ["max-age=" +:+ value]).
  { apply Split_one_field. simpl.
    apply (all_bytes_impl is_sign_or_digit); [| exact Hbytes].
    intros c Hc. apply (sign_or_digit_plain c Hc). }
  assert (Htrim : TrimSpaceASCII ("max-age=" +:+ value) = "max-age=" +:+ value).
  { unfold TrimSpaceASCII. change (trim_left ("max-age=" +:+ value)) with ("max-age=" +:+ value).
    apply trim_right_id. simpl.
    apply (all_bytes_impl is_sign_or_digit); [| exact Hbytes].
    intros c Hc. apply (sign_or_digit_plain c Hc). }
  assert (Hmain : ParseTTLA ParseTime headers' defaultTTL now = Int64.wrap64 (n * Second)).
  { unfold ParseTTLA, ParseTTL. cbv zeta. rewrite Hget.
    change (String.eqb ("max-age=" +:+ value) "") with false. cbn iota.
    rewrite Hsplit. cbn [first_max_age]. unfold max_age_of. cbv zeta. rewrite Htrim.
    change (HasPrefix (ToLowerASCII ("max-age=" +:+ value)) "max-age=")
      with (HasPrefix (ToLowerASCII value) "").
    rewrite HasPrefix_nil.
    change (SplitN2 ("max-age=" +:+ value) "=") with ["max-age"; value].
    cbn iota. rewrite Hn. reflexivity. }
  split; [exact Hmain |]. intros Hr. rewrite Hmain. apply Int64.wrap64_id.
  unfold Int64.in_range, Int64.min_int, Int64.max_int, Second. lia.
Qed.

Lemma ParseTTL_max_age_value_witness :
  ParseTTLA (fun _ => None) (Header_Set ∅ "Cache-Control" "max-age=3600") 0 0
  = 3600 * Second
  /\ ParseTTLA (fun _ => None) (Header_Set ∅ "Cache-Control" "max-age=-5") 0 0
     = - 5 * Second.
Proof.
  split.
  - apply (ParseTTL_max_age_value (fun _ => None) ∅ "3600" 3600 0 0).
    + vm_compute. reflexivity.
    + lia.
  - apply (ParseTTL_max_age_value (fun _ => None) ∅ "-5" (-5) 0 0).
    + vm_compute. reflexivity.
    + lia.
Defined.

(** A second line that forbids caching is not seen; the same directive
    on the first line is. *)
Example second_line_ignored :
  IsCacheableA GET 200 {[ "Cache-Control" := ["public"; "no-store"] ]} = true
  /\ IsCacheableA GET 200 {[ "Cache-Control" := ["public, no-store"] ]} = false.
Proof. split; vm_compute; reflexivity. Qed.




End Policy.

(** ** The cache store: [memoryCache] *)

Module Store.
Import Go.

Record Entry := {
  StatusCode : Z;
  Headers : Header;
  Body : string;
  ETag : string;
  ExpiresAt : Z;
  CreatedAt : Z;
  Size : Z
}.

(** [lru] is the [container/list] of the cache, front first. An element
    of the Go list carries a [cacheItem], a key and its entry, and
    [items] maps a key to its element. Here an element is named by its
    key: [lru] lists the keys, and [items] gives the entry that the
    element of a key carries. *)
Record memoryCache := {
  maxSize : Z;
  size : Z;
  items : gmap string Entry;
  lru : list string;
  defaultTTL : Z
}.

Definition NewMemoryCache (maxSize defaultTTL : Z) : memoryCache :=
  {| maxSize := maxSize; size := 0; items := ∅; lru := []; defaultTTL := defaultTTL |}.

(** [l.Remove(elem)] for the element of [key]. *)
Definition list_Remove (key : string) (l : list string) : list string :=
  filter (fun k => k <> key) l.

(** [l.MoveToFront(elem)] for the element of [key]. *)
Definition list_MoveToFront (key : string) (l : list string) : list string :=
  key :: list_Remove key l.

(** [c.deleteElement(elem)], [elem] carrying [key] and [entry]. *)
Definition deleteElement (c : memoryCache) (key : string) (entry : Entry) : memoryCache :=
  {| maxSize := maxSize c;
     size := Int64.sub (size c) (Size entry);
     items := delete key (items c);
     lru := list_Remove key (lru c);
     defaultTTL := defaultTTL c |}.

(** [c.Get(key)] when the clock reads [now]: the cache afterwards and
    the result, [None] for [(nil, false)]. *)
Definition Get (c : memoryCache) (key : string) (now : Z) : memoryCache * option Entry :=
  match items c !! key with
  | None => (c, None)
  | Some entry =>
      if Time_After now (ExpiresAt entry) then (deleteElement c key entry, None)
      else ({| maxSize := maxSize c; size := size c; items := items c;
               lru := list_MoveToFront key (lru c);
               defaultTTL := defaultTTL c |}, Some entry)
  end.

(** The eviction loop of [Set]. Each turn removes an element, so the
    length of the list is fuel enough ([evict_stops]). The back element
    always has its entry in [items] ([coherent]); the branches for a
    back element without one are never taken. *)
Fixpoint evict (fuel : nat) (c : memoryCache) : memoryCache :=
  match fuel with
  | O => c
  | S fuel' =>
      if (maxSize c <? size c) && (0 <? Z.of_nat (length (lru c))) then
        match last (lru c) with
        | Some key =>
            match items c !! key with
            | Some entry => evict fuel' (deleteElement c key entry)
            | None => c
            end
        | None => c
        end
      else c
  end.

(** The first half of [Set]: the insertion or the replacement. *)
Definition store (c : memoryCache) (key : string) (entry : Entry) : memoryCache :=
  match items c !! key with
  | Some old =>
      {| maxSize := maxSize c;
         size := Int64.add (Int64.sub (size c) (Size old)) (Size entry);
         items := <[key := entry]> (items c);
         lru := list_MoveToFront key (lru c);
         defaultTTL := defaultTTL c |}
  | None =>
      {| maxSize := maxSize c;
         size := Int64.add (size c) (Size entry);
         items := <[key := entry]> (items c);
         lru := key :: lru c;
         defaultTTL := defaultTTL c |}
  end.

Definition Set_ (c : memoryCache) (key : string) (entry : Entry) : memoryCache :=
  let c' := store c key entry in
  evict (length (lru c')) c'.

Definition Delete (c : memoryCache) (key : string) : memoryCache :=
  match items c !! key with
  | Some entry => deleteElement c key entry
  | None => c
  end.

Definition Clear (c : memoryCache) : memoryCache :=
  {| maxSize := maxSize c; size := 0; items := ∅; lru := [];
     defaultTTL := defaultTTL c |}.

Definition Size_ (c : memoryCache) : Z := size c.
Definition Len (c : memoryCache) : Z := Z.of_nat (length (lru c)).

(** A call of the interface, with the clock reading for a [Get]. *)
Inductive call :=
| CallGet (key : string) (now : Z)
| CallSet (key : string) (entry : Entry)
| CallDelete (key : string)
| CallClear.

Definition step (c : memoryCache) (o : call) : memoryCache :=
  match o with
  | CallGet key now => fst (Get c key now)
  | CallSet key entry => Set_ c key entry
  | CallDelete key => Delete c key
  | CallClear => Clear c
  end.

Definition run (c : memoryCache) (calls : list call) : memoryCache :=
  fold_left step calls c.

(** The sum of the [Size] fields of the entries present. *)
Definition sum_sizes (m : gmap string Entry) : Z :=
  map_fold (fun _ e acc => Size e + acc) 0 m.

(** The list and the map hold the same keys, each once. *)
Definition coherent (c : memoryCache) : Prop :=
  NoDup (lru c) /\ forall k, k ∈ lru c <-> is_Some (items c !! k).

(** The recorded size is the sum, as 64-bit arithmetic computes it. *)
Definition accounted (c : memoryCache) : Prop :=
  size c = Int64.wrap64 (sum_sizes (items c)).

Definition entry_of_size (n : Z) : Entry :=
  {| StatusCode := 200; Headers := ∅; Body := ""; ETag := ""; ExpiresAt := 100;
     CreatedAt := 0; Size := n |}.

(** [a] is nearer to the front of [l] than [b]. *)
Definition precedes (a b : string) (l : list string) : Prop :=
  exists l1 l2 l3, l = l1 ++ a :: l2 ++ b :: l3.

(** The sum of the sizes of the entries of the keys of [l]. *)
Fixpoint sum_over (m : gmap string Entry) (l : list string) : Z :=
  match l with
  | [] => 0
  | k :: rest =>
      match m !! k with
      | Some e => Size e + sum_over m rest
      | None => sum_over m rest
      end
  end.

(** The keys a call names. *)
Definition call_names (o : call) (k : string) : Prop :=
  match o with
  | CallGet key _ | CallSet key _ | CallDelete key => key = k
  | CallClear => False
  end.

(** The order of two keys, for one call: when [a] precedes [b]
    whenever [b] is cached, a call that names neither keeps it so. *)
Definition keeps_order (a b : string) (c : memoryCache) : Prop :=
  b ∈ lru c -> precedes a b (lru c).

(** The calls of a small session, and an entry of nine bytes. *)
Definition lru_test_calls : list call :=
  [CallSet "a" (entry_of_size 9); CallSet "b" (entry_of_size 9);
   CallGet "a" 50; CallSet "c" (entry_of_size 9); CallDelete "b"].

Definition entry9 : Entry := entry_of_size 9.

(** Every [Set] among the calls stores an entry whose [Size] is not
    negative. *)
Definition sets_nonneg (calls : list call) : Prop :=
  Forall (fun o => match o with CallSet _ e => 0 <= Size e | _ => True end) calls.

(** The entries present have sizes that are not negative. *)
Definition sizes_nonneg (c : memoryCache) : Prop :=
  forall k e, items c !! k = Some e -> 0 <= Size e.

(** The calls that put two entries of nine bytes in a cache. *)
Definition two_entries : list call := [CallSet "a" entry9; CallSet "b" entry9].

(** *** The sum of sizes under insertion and deletion *)

Lemma sum_sizes_empty : sum_sizes ∅ = 0.
Proof. apply map_fold_empty. Qed.

Lemma sum_sizes_insert_new (m : gmap string Entry) k e :
  m !! k = None -> sum_sizes (<[k := e]> m) = Size e + sum_sizes m.
Proof.
  intros Hk. unfold sum_sizes.
  apply (map_fold_insert_L (fun _ e acc => Size e + acc)); [intros; lia | exact Hk].
Qed.

Lemma sum_sizes_delete (m : gmap string Entry) k e :
  m !! k = Some e -> sum_sizes m = Size e + sum_sizes (delete k m).
Proof.
  intros Hk. unfold sum_sizes.
  apply (map_fold_delete_L (fun _ e acc => Size e + acc)); [intros; lia | exact Hk].
Qed.

Lemma sum_sizes_insert_old (m : gmap string Entry) k e old :
  m !! k = Some old -> sum_sizes (<[k := e]> m) = Size e + (sum_sizes m - Size old).
Proof.
  intros Hk. rewrite <- (insert_delete_eq m k e).
  rewrite sum_sizes_insert_new by apply lookup_delete_eq.
  rewrite (sum_sizes_delete m k old Hk). lia.
Qed.

(** *** Lists of keys *)

Lemma elem_of_list_Remove key k (l : list string) :
  k ∈ list_Remove key l <-> k <> key /\ k ∈ l.
Proof. exact (list_elem_of_filter (fun k0 => k0 <> key) l k). Qed.

Lemma NoDup_list_Remove key (l : list string) : NoDup l -> NoDup (list_Remove key l).
Proof. apply NoDup_filter. Qed.

Lemma list_Remove_absent key (l : list string) : key ∉ l -> list_Remove key l = l.
Proof.
  unfold list_Remove. induction l as [| x l IH]; intros Hnotin.
  - reflexivity.
  - rewrite filter_cons_True by (intros ->; apply Hnotin; left).
    f_equal. apply IH. intros Hin. apply Hnotin. right. exact Hin.
Qed.

(** Removing the back element of a list without repetition removes
    exactly the last position. *)
Lemma list_Remove_back key (l : list string) :
  NoDup (l ++ [key]) -> list_Remove key (l ++ [key]) = l.
Proof.
  intros Hnd. apply NoDup_app in Hnd as (_ & Hdisj & _).
  unfold list_Remove. rewrite filter_app.
  rewrite (filter_cons_False _ key []) by (intros H; apply H; reflexivity).
  rewrite filter_nil, app_nil_r.
  apply (list_Remove_absent key l). intros Hin. apply (Hdisj key Hin). left.
Qed.

Lemma length_list_Remove_lt key (l : list string) :
  key ∈ l -> (length (list_Remove key l) < length l)%nat.
Proof.
  intros Hin. unfold list_Remove.
  apply (length_filter_lt _ _ key); [exact Hin | intros H; apply H; reflexivity].
Qed.

(** *** The invariants are kept *)

Lemma coherent_New maxSize ttl : coherent (NewMemoryCache maxSize ttl).
Proof.
  split; simpl; [constructor |].
  intros k. rewrite lookup_empty. split.
  - intros H. inversion H.
  - intros [x Hx]. discriminate.
Qed.

Lemma coherent_deleteElement c key entry :
  coherent c -> coherent (deleteElement c key entry).
Proof.
  intros [Hnd Hdom]. split; simpl.
  - apply NoDup_list_Remove, Hnd.
  - intros k. rewrite elem_of_list_Remove, Hdom.
    destruct (decide (k = key)) as [-> | Hne].
    + rewrite lookup_delete_eq. split; [intros [H _]; contradiction |].
      intros [x Hx]; discriminate.
    + rewrite lookup_delete_ne by congruence. tauto.
Qed.

Lemma coherent_MoveToFront c key (m : gmap string Entry) mx sz ttl :
  coherent c -> (forall k, is_Some (m !! k) <-> k = key \/ is_Some (items c !! k)) ->
  coherent {| maxSize := mx; size := sz; items := m;
              lru := list_MoveToFront key (lru c); defaultTTL := ttl |}.
Proof.
  intros [Hnd Hdom] Hm. split; simpl.
  - unfold list_MoveToFront. apply NoDup_cons. split.
    + rewrite elem_of_list_Remove. intros [H _]. apply H. reflexivity.
    + apply NoDup_list_Remove, Hnd.
  - intros k. unfold list_MoveToFront.
    rewrite elem_of_cons, elem_of_list_Remove, Hdom, Hm.
    destruct (decide (k = key)); tauto.
Qed.

Lemma is_Some_insert (m : gmap string Entry) key e k :
  is_Some (<[key := e]> m !! k) <-> k = key \/ is_Some (m !! k).
Proof.
  destruct (decide (key = k)) as [-> | Hne].
  - rewrite lookup_insert_eq. split; [auto | eauto].
  - rewrite lookup_insert_ne by exact Hne. split; [auto |].
    intros [-> | H]; [contradiction | exact H].
Qed.

Lemma coherent_store c key entry : coherent c -> coherent (store c key entry).
Proof.
  intros Hc. unfold store. destruct (items c !! key) as [old |] eqn:Hk.
  - apply coherent_MoveToFront; [exact Hc | apply is_Some_insert].
  - destruct Hc as [Hnd Hdom]. split; simpl.
    + apply NoDup_cons. split; [| exact Hnd].
      rewrite Hdom, Hk. intros [x Hx]. discriminate.
    + intros k. rewrite elem_of_cons, Hdom, is_Some_insert. tauto.
Qed.

Lemma coherent_evict fuel c : coherent c -> coherent (evict fuel c).
Proof.
  revert c. induction fuel as [| fuel IH]; intros c Hc; simpl; [exact Hc |].
  destruct ((maxSize c <? size c) && (0 <? Z.of_nat (length (lru c)))); [| exact Hc].
  destruct (last (lru c)) as [key |]; [| exact Hc].
  destruct (items c !! key) as [entry |]; [| exact Hc].
  apply IH, coherent_deleteElement, Hc.
Qed.

Lemma coherent_Get c key now : coherent c -> coherent (fst (Get c key now)).
Proof.
  intros Hc. unfold Get. destruct (items c !! key) as [entry |] eqn:Hk; [| exact Hc].
  destruct (Time_After now (ExpiresAt entry)); simpl.
  - apply coherent_deleteElement, Hc.
  - apply coherent_MoveToFront; [exact Hc |].
    intros k. split; [auto |]. intros [-> | H]; [rewrite Hk; eauto | exact H].
Qed.

Lemma coherent_step c o : coherent c -> coherent (step c o).
Proof.
  intros Hc. destruct o as [key now | key entry | key |]; simpl.
  - apply coherent_Get, Hc.
  - apply coherent_evict, coherent_store, Hc.
  - unfold Delete. destruct (items c !! key); [apply coherent_deleteElement |]; exact Hc.
  - apply (coherent_New (maxSize c) (defaultTTL c)).
Qed.

Lemma accounted_deleteElement c key entry :
  accounted c -> items c !! key = Some entry -> accounted (deleteElement c key entry).
Proof.
  unfold accounted. intros Hs Hk. simpl. unfold Int64.sub.
  rewrite Hs, Int64.wrap64_sub_l. f_equal.
  rewrite (sum_sizes_delete _ _ _ Hk). lia.
Qed.

Lemma accounted_store c key entry : accounted c -> accounted (store c key entry).
Proof.
  unfold accounted, store. intros Hs.
  destruct (items c !! key) as [old |] eqn:Hk; simpl; unfold Int64.add, Int64.sub.
  - rewrite Hs, Int64.wrap64_sub_l, Int64.wrap64_add_l. f_equal.
    rewrite (sum_sizes_insert_old _ _ _ _ Hk). lia.
  - rewrite Hs, Int64.wrap64_add_l. f_equal.
    rewrite (sum_sizes_insert_new _ _ _ Hk). lia.
Qed.

Lemma accounted_evict fuel c : accounted c -> accounted (evict fuel c).
Proof.
  revert c. induction fuel as [| fuel IH]; intros c Hc; simpl; [exact Hc |].
  destruct ((maxSize c <? size c) && (0 <? Z.of_nat (length (lru c)))); [| exact Hc].
  destruct (last (lru c)) as [key |]; [| exact Hc].
  destruct (items c !! key) as [entry |] eqn:Hk; [| exact Hc].
  apply IH, accounted_deleteElement; assumption.
Qed.

Lemma accounted_step c o : accounted c -> accounted (step c o).
Proof.
  intros Hc. destruct o as [key now | key entry | key |]; simpl.
  - unfold Get. destruct (items c !! key) as [entry |] eqn:Hk; [| exact Hc].
    destruct (Time_After now (ExpiresAt entry)); simpl; [| exact Hc].
    apply accounted_deleteElement; assumption.
  - apply accounted_evict, accounted_store, Hc.
  - unfold Delete. destruct (items c !! key) eqn:Hk; [| exact Hc].
    apply accounted_deleteElement; assumption.
  - unfold accounted; simpl. rewrite sum_sizes_empty. reflexivity.
Qed.

Lemma run_invariant (P : memoryCache -> Prop) :
  (forall c o, P c -> P (step c o)) ->
  forall calls c, P c -> P (run c calls).
Proof.
  intros Hstep calls. unfold run.
  induction calls as [| o calls IH]; intros c Hc; simpl; [exact Hc |].
  apply IH, Hstep, Hc.
Qed.

Lemma coherent_run maxSize ttl calls : coherent (run (NewMemoryCache maxSize ttl) calls).
Proof. apply run_invariant; [apply coherent_step | apply coherent_New]. Qed.

Lemma accounted_run maxSize ttl calls : accounted (run (NewMemoryCache maxSize ttl) calls).
Proof.
  apply run_invariant; [apply accounted_step |].
  unfold accounted; simpl. rewrite sum_sizes_empty. reflexivity.
Qed.

Lemma maxSize_evict fuel c : maxSize (evict fuel c) = maxSize c.
Proof.
  revert c. induction fuel as [| fuel IH]; intros c; simpl; [reflexivity |].
  destruct ((maxSize c <? size c) && (0 <? Z.of_nat (length (lru c)))); [| reflexivity].
  destruct (last (lru c)) as [key |]; [| reflexivity].
  destruct (items c !! key) as [entry |]; [| reflexivity].
  rewrite IH. reflexivity.
Qed.

Lemma maxSize_store c key entry : maxSize (store c key entry) = maxSize c.
Proof. unfold store. destruct (items c !! key); reflexivity. Qed.

Lemma maxSize_step c o : maxSize (step c o) = maxSize c.
Proof.
  destruct o as [key now | key entry | key |]; simpl.
  - unfold Get. destruct (items c !! key) as [e |]; [| reflexivity].
    destruct (Time_After now (ExpiresAt e)); reflexivity.
  - unfold Set_. rewrite maxSize_evict. apply maxSize_store.
  - unfold Delete. destruct (items c !! key); reflexivity.
  - reflexivity.
Qed.

Lemma maxSize_run calls c : maxSize (run c calls) = maxSize c.
Proof.
  revert c. unfold run. induction calls as [| o calls IH]; intros c; simpl.
  - reflexivity.
  - rewrite IH. apply maxSize_step.
Qed.

(** The loop of [Set] has run to its end when the fuel is the length of
    the list: its condition is false in the cache it returns. *)
Lemma evict_stops fuel c :
  coherent c -> (length (lru c) <= fuel)%nat ->
  size (evict fuel c) <= maxSize (evict fuel c) \/ lru (evict fuel c) = [].
Proof.
  revert c. induction fuel as [| fuel IH]; intros c Hc Hlen; simpl.
  - right. destruct (lru c); [reflexivity | simpl in Hlen; lia].
  - destruct (Z.ltb_spec (maxSize c) (size c)) as [Hover | Hfits]; simpl;
      [| left; lia].
    destruct (lru c) as [| k0 l0] eqn:Hl; [right; exact Hl |].
    replace (0 <? Z.of_nat (length (k0 :: l0))) with true
      by (symmetry; apply Z.ltb_lt; simpl; lia).
    destruct (last (k0 :: l0)) as [key |] eqn:Hlast;
      [| apply last_None in Hlast; discriminate].
    assert (Hin : key ∈ lru c) by (rewrite Hl; apply last_Some_elem_of, Hlast).
    destruct (items c !! key) as [entry |] eqn:Hk.
    + apply IH; [apply coherent_deleteElement, Hc |].
      simpl. pose proof (length_list_Remove_lt key (lru c) Hin) as Hlt.
      rewrite Hl in Hlt. simpl in Hlt, Hlen. rewrite Hl. lia.
    + destruct Hc as [_ Hdom]. apply Hdom in Hin. rewrite Hk in Hin.
      destruct Hin as [x Hx]. discriminate.
Qed.

Lemma coherent_empty c : coherent c -> lru c = [] -> items c = ∅.
Proof.
  intros [_ Hdom] Hl. apply map_empty. intros k.
  destruct (items c !! k) eqn:Hk; [| reflexivity].
  assert (Hin : k ∈ lru c) by (apply Hdom; rewrite Hk; eauto).
  rewrite Hl in Hin. inversion Hin.
Qed.

Lemma Set_fits c key entry :
  coherent c -> accounted c -> 0 <= maxSize c ->
  size (Set_ c key entry) <= maxSize c.
Proof.
  intros Hc Ha Hmax. unfold Set_.
  set (c' := store c key entry).
  assert (Hc' : coherent c') by apply coherent_store, Hc.
  assert (Ha' : accounted c') by apply accounted_store, Ha.
  destruct (evict_stops (length (lru c')) c' Hc' (le_n _)) as [Hle | Hnil].
  - rewrite maxSize_evict in Hle. subst c'.
    rewrite maxSize_store in Hle. exact Hle.
  - pose proof (accounted_evict (length (lru c')) c' Ha') as Hacc.
    rewrite Hacc, (coherent_empty _ (coherent_evict _ _ Hc') Hnil), sum_sizes_empty.
    rewrite Int64.wrap64_0. exact Hmax.
Qed.

(** C1, as the code has it. After any sequence of calls on a new cache
    the recorded size is the sum of the [Size] fields of the entries
    present, computed in 64-bit arithmetic, hence the exact sum whenever
    that is an [int64]; and when [maxSize] is not negative the size
    after a [Set] is at most [maxSize], whatever the sizes of the
    entries. *)
Theorem size_accounting (maxSize0 ttl : Z) (calls : list call) :
  let c := run (NewMemoryCache maxSize0 ttl) calls in
  Size_ c = Int64.wrap64 (sum_sizes (items c))
  /\ (Int64.in_range (sum_sizes (items c)) -> Size_ c = sum_sizes (items c))
  /\ (0 <= maxSize0 -> forall key entry, Size_ (Set_ c key entry) <= maxSize0).
Proof.
  intros c. pose proof (accounted_run maxSize0 ttl calls) as Ha.
  pose proof (coherent_run maxSize0 ttl calls) as Hc. fold c in Ha, Hc.
  split; [exact Ha |]. split.
  - intros Hr. unfold Size_. rewrite Ha. apply Int64.wrap64_id, Hr.
  - intros Hmax key entry. unfold Size_.
    assert (Hm : maxSize c = maxSize0) by apply maxSize_run.
    rewrite <- Hm. apply Set_fits; [exact Hc | exact Ha | lia].
Qed.

Lemma size_accounting_witness :
  Size_ (run (NewMemoryCache 20 300) lru_test_calls) = 18
  /\ Size_ (Set_ (run (NewMemoryCache 20 300) lru_test_calls) "d" (entry_of_size 9)) <= 20.
Proof.
  pose proof (size_accounting 20 300 lru_test_calls) as (_ & Hexact & Hfits).
  split.
  - vm_compute. reflexivity.
  - apply Hfits. lia.
Defined.

(** C1 as stated fails on a cache made with a negative
    [maxSize]: a [Set] of an entry of size 0 evicts the entry again and
    leaves the size 0, above [maxSize]. *)
Lemma size_above_negative_maxSize :
  let c := Set_ (NewMemoryCache (-1) 300) "k" (entry_of_size 0) in
  Size_ c = 0 /\ maxSize c = -1 /\ Len c = 0 /\ (Size_ c <=? maxSize c) = false.
Proof. vm_compute. repeat split; reflexivity. Qed.

(** The recorded size is a 64-bit sum: two entries of size [2^62] are
    both kept in a cache of the largest [maxSize] and are recorded as
    [-2^63]. *)
Example size_wraps_around :
  let c := run (NewMemoryCache Int64.max_int 300)
               [CallSet "a" (entry_of_size (2 ^ 62)); CallSet "b" (entry_of_size (2 ^ 62))] in
  Size_ c = - 2 ^ 63 /\ Len c = 2 /\ sum_sizes (items c) = 2 ^ 63.
Proof. vm_compute. repeat split; reflexivity. Qed.

(** *** [Get] and the expiry time *)

Lemma Time_After_false_iff now t : Time_After now t = false <-> now <= t.
Proof. unfold Time_After. rewrite Z.ltb_ge. reflexivity. Qed.

Lemma Time_After_true_iff now t : Time_After now t = true <-> t < now.
Proof. unfold Time_After. apply Z.ltb_lt. Qed.

Lemma Get_Some_iff c key now e :
  snd (Get c key now) = Some e <-> items c !! key = Some e /\ now <= ExpiresAt e.
Proof.
  unfold Get. destruct (items c !! key) as [entry |] eqn:Hk.
  - destruct (Time_After now (ExpiresAt entry)) eqn:Ht; simpl.
    + apply Time_After_true_iff in Ht. split; [discriminate |].
      intros [He Hle]. injection He as ->. lia.
    + apply Time_After_false_iff in Ht. split.
      * intros He. injection He as ->. auto.
      * intros [He _]. exact He.
  - simpl. split; [discriminate | intros [H _]; discriminate].
Qed.

Lemma Get_expired c key now e :
  items c !! key = Some e -> ExpiresAt e < now ->
  Get c key now = (deleteElement c key e, None).
Proof.
  intros Hk Ht. unfold Get. rewrite Hk.
  apply Time_After_true_iff in Ht. rewrite Ht. reflexivity.
Qed.

Lemma Get_absent c key now : items c !! key = None -> Get c key now = (c, None).
Proof. intros Hk. unfold Get. rewrite Hk. reflexivity. Qed.

Lemma Get_hit c key now e :
  snd (Get c key now) = Some e ->
  fst (Get c key now)
  = {| maxSize := maxSize c; size := size c; items := items c;
       lru := list_MoveToFront key (lru c); defaultTTL := defaultTTL c |}.
Proof.
  unfold Get. destruct (items c !! key) as [entry |]; [| discriminate].
  destruct (Time_After now (ExpiresAt entry)); [discriminate | reflexivity].
Qed.

(** C2, as the code has it. [Get] returns the entry stored under the key
    exactly when there is one and the clock is not after its
    [ExpiresAt]: the instant [ExpiresAt] itself is still a hit. When the
    clock is after [ExpiresAt] the result is absent, the entry is
    removed from the map and from the list, and every later [Get] of the
    key misses. A hit moves the key to the front of the list and changes
    nothing else. *)
Theorem Get_ttl (c : memoryCache) (key : string) (now : Z) :
  (forall e, snd (Get c key now) = Some e
             <-> items c !! key = Some e /\ now <= ExpiresAt e)
  /\ (forall e, items c !! key = Some e -> ExpiresAt e < now ->
        let c' := fst (Get c key now) in
        snd (Get c key now) = None
        /\ items c' = delete key (items c) /\ (key ∉ lru c')
        /\ size c' = Int64.sub (size c) (Size e)
        /\ forall later, Get c' key later = (c', None))
  /\ (forall e, snd (Get c key now) = Some e ->
        let c' := fst (Get c key now) in
        head (lru c') = Some key /\ items c' = items c /\ size c' = size c).
Proof.
  split; [intros e; apply Get_Some_iff |]. split.
  - intros e Hk Ht. rewrite (Get_expired c key now e Hk Ht). simpl.
    repeat split.
    + rewrite elem_of_list_Remove. intros [H _]. apply H. reflexivity.
    + intros later. apply Get_absent. simpl. apply lookup_delete_eq.
  - intros e Hhit. rewrite (Get_hit c key now e Hhit). simpl. auto.
Qed.

Lemma Get_ttl_witness :
  let c := Set_ (NewMemoryCache 100 300) "k" (entry_of_size 9) in
  snd (Get c "k" 100) = Some (entry_of_size 9)
  /\ snd (Get c "k" 101) = None
  /\ items (fst (Get c "k" 101)) = delete "k" (items c).
Proof.
  intros c.
  pose proof (Get_ttl c "k" 100) as (Hhit & _ & _).
  pose proof (Get_ttl c "k" 101) as (_ & Hexp & _).
  assert (Hk : items c !! "k" = Some (entry_of_size 9)) by (vm_compute; reflexivity).
  split; [| split].
  - apply Hhit. split; [exact Hk | simpl; lia].
  - apply (Hexp (entry_of_size 9) Hk). simpl. lia.
  - apply (Hexp (entry_of_size 9) Hk). simpl. lia.
Defined.

(** C2 as stated fails at the instant of expiry: a [Get]
    when the clock reads exactly [ExpiresAt] returns the entry and keeps
    it. *)
Lemma Get_hit_at_ExpiresAt :
  let c := Set_ (NewMemoryCache 100 300) "k" (entry_of_size 9) in
  ExpiresAt (entry_of_size 9) = 100
  /\ snd (Get c "k" 100) = Some (entry_of_size 9)
  /\ items (fst (Get c "k" 100)) !! "k" = Some (entry_of_size 9).
Proof. vm_compute. repeat split; reflexivity. Qed.

(** *** The order of eviction *)

Lemma sum_over_ext (m1 m2 : gmap string Entry) (l : list string) :
  (forall k, k ∈ l -> m1 !! k = m2 !! k) -> sum_over m1 l = sum_over m2 l.
Proof.
  induction l as [| k l IH]; intros Heq; simpl; [reflexivity |].
  rewrite (Heq k) by left. rewrite IH; [reflexivity |].
  intros k' Hin. apply Heq. right. exact Hin.
Qed.

Lemma sum_sizes_sum_over (l : list string) : forall m : gmap string Entry,
  NoDup l -> (forall k, k ∈ l <-> is_Some (m !! k)) -> sum_sizes m = sum_over m l.
Proof.
  induction l as [| k l IH]; intros m Hnd Hdom; simpl.
  - replace m with (∅ : gmap string Entry); [apply sum_sizes_empty |].
    symmetry. apply map_empty. intros k. destruct (m !! k) eqn:Hk; [| reflexivity].
    assert (H : k ∈ []) by (apply Hdom; rewrite Hk; eauto). inversion H.
  - apply NoDup_cons in Hnd as [Hnotin Hnd].
    destruct (m !! k) as [e |] eqn:Hk.
    + rewrite (sum_sizes_delete m k e Hk). f_equal.
      rewrite (IH (delete k m) Hnd).
      * apply sum_over_ext. intros k' Hin. apply lookup_delete_ne.
        intros ->. contradiction.
      * intros k'. destruct (decide (k = k')) as [<- | Hne].
        -- rewrite lookup_delete_eq. split; [contradiction |].
           intros [x Hx]. discriminate.
        -- rewrite lookup_delete_ne by exact Hne. rewrite <- Hdom.
           rewrite elem_of_cons. split; [auto |]. intros [-> | H]; [contradiction | exact H].
    + assert (H : is_Some (m !! k)) by (apply Hdom; left). rewrite Hk in H.
      destruct H as [x Hx]. discriminate.
Qed.

Lemma size_sum_over c :
  coherent c -> accounted c -> size c = Int64.wrap64 (sum_over (items c) (lru c)).
Proof.
  intros [Hnd Hdom] Ha. rewrite Ha. f_equal. apply sum_sizes_sum_over; assumption.
Qed.

(** What the loop of [Set] does to a coherent cache: it keeps a prefix
    of the list, with the entries of those keys, and each element it
    removed was the back of a list whose entries were too large
    together. *)
Lemma evict_prefix fuel : forall c,
  coherent c -> accounted c -> (length (lru c) <= fuel)%nat ->
  exists n, (n <= length (lru c))%nat
    /\ lru (evict fuel c) = take n (lru c)
    /\ (forall k, k ∈ take n (lru c) -> items (evict fuel c) !! k = items c !! k)
    /\ (forall j, (n < j <= length (lru c))%nat ->
          maxSize c < Int64.wrap64 (sum_over (items c) (take j (lru c)))).
Proof.
  induction fuel as [| fuel IH]; intros c Hc Ha Hlen.
  - exists O. destruct (lru c) eqn:Hl; [| simpl in Hlen; lia].
    simpl. rewrite Hl. split; [lia |]. split; [reflexivity |].
    split; [intros k Hk; inversion Hk | intros j Hj; simpl in Hj; lia].
  - simpl.
    destruct ((maxSize c <? size c) && (0 <? Z.of_nat (length (lru c)))) eqn:Hcond.
    + apply andb_true_iff in Hcond as [Hover Hpos].
      apply Z.ltb_lt in Hover.
      destruct (last (lru c)) as [key |] eqn:Hlast.
      * apply last_Some in Hlast as [l' Hl].
        assert (Hin : key ∈ lru c) by (rewrite Hl, elem_of_app; right; left).
        destruct (items c !! key) as [entry |] eqn:Hk.
        -- set (c1 := deleteElement c key entry).
           assert (Hnd : NoDup (l' ++ [key])) by (rewrite <- Hl; apply Hc).
           assert (Hl1 : lru c1 = l') by (simpl; rewrite Hl; apply list_Remove_back, Hnd).
           assert (Hnotin : key ∉ l').
           { apply NoDup_app in Hnd as (_ & Hdisj & _).
             intros H. apply (Hdisj key H). left. }
           destruct (IH c1) as (n & Hn & Hlru & Hitems & Hmin).
           { apply coherent_deleteElement, Hc. }
           { apply accounted_deleteElement; assumption. }
           { rewrite Hl1. rewrite Hl, length_app in Hlen. simpl in Hlen. lia. }
           rewrite Hl1 in Hn, Hlru, Hitems, Hmin.
           exists n. rewrite Hl, length_app. simpl.
           rewrite (take_app_le l' [key] n Hn).
           split; [lia |]. split; [exact Hlru |]. split.
           ++ intros k Hkin. rewrite (Hitems k Hkin). simpl.
              apply lookup_delete_ne. intros ->.
              apply Hnotin. apply (subseteq_take n l'), Hkin.
           ++ intros j Hj.
              destruct (decide (j <= length l')%nat) as [Hle | Hgt].
              ** rewrite (take_app_le l' [key] j Hle).
                 rewrite (sum_over_ext (items c) (items c1) (take j l')).
                 --- apply Hmin. lia.
                 --- intros k Hkin. simpl. symmetry. apply lookup_delete_ne.
                     intros ->. apply Hnotin. apply (subseteq_take j l'), Hkin.
              ** rewrite take_ge by (rewrite length_app; simpl; lia).
                 rewrite <- Hl, <- (size_sum_over c Hc Ha). exact Hover.
        -- destruct Hc as [_ Hdom]. apply Hdom in Hin. rewrite Hk in Hin.
           destruct Hin as [x Hx]. discriminate.
      * apply last_None in Hlast. rewrite Hlast in Hpos. simpl in Hpos. discriminate.
    + exists (length (lru c)). rewrite take_ge by lia.
      split; [lia |]. split; [reflexivity |].
      split; [reflexivity | intros j Hj; lia].
Qed.

Lemma head_store c key entry : head (lru (store c key entry)) = Some key.
Proof. unfold store. destruct (items c !! key); reflexivity. Qed.

Lemma precedes_filter (P : string -> Prop) `{!forall x, Decision (P x)} a b l :
  precedes a b l -> P a -> P b -> precedes a b (filter P l).
Proof.
  intros (l1 & l2 & l3 & ->) Ha Hb.
  exists (filter P l1), (filter P l2), (filter P l3).
  rewrite filter_app, (filter_cons_True P a) by exact Ha.
  rewrite filter_app, (filter_cons_True P b) by exact Hb. reflexivity.
Qed.

Lemma precedes_cons x a b l : precedes a b l -> precedes a b (x :: l).
Proof. intros (l1 & l2 & l3 & ->). exists (x :: l1), l2, l3. reflexivity. Qed.

Lemma precedes_head a b l : b ∈ l -> precedes a b (a :: l).
Proof.
  intros Hin. apply list_elem_of_split in Hin as (l2 & l3 & ->).
  exists [], l2, l3. reflexivity.
Qed.

Lemma precedes_elem_of a b l : precedes a b l -> a ∈ l /\ b ∈ l.
Proof.
  intros (l1 & l2 & l3 & ->). split.
  - rewrite elem_of_app, elem_of_cons. auto.
  - rewrite elem_of_app, elem_of_cons, elem_of_app, elem_of_cons. auto.
Qed.

(** In a list without repetition, a prefix that holds [b] holds what
    precedes [b]. *)
Lemma precedes_take a b l n :
  NoDup l -> precedes a b l -> b ∈ take n l -> precedes a b (take n l).
Proof.
  intros Hnd (l1 & l2 & l3 & ->) Hin.
  set (p := l1 ++ a :: l2) in *.
  assert (Hl : l1 ++ a :: l2 ++ b :: l3 = p ++ b :: l3).
  { unfold p. rewrite <- app_assoc. reflexivity. }
  rewrite Hl in *.
  destruct (decide (n <= length p)%nat) as [Hle | Hgt].
  - rewrite take_app_le in Hin by exact Hle.
    apply NoDup_app in Hnd as (_ & Hdisj & _).
    exfalso. apply (Hdisj b); [apply (subseteq_take n p), Hin | left].
  - rewrite take_app_ge by lia.
    destruct (n - length p)%nat as [| d] eqn:Hd; [lia |]. simpl.
    exists l1, l2, (take d l3). unfold p. rewrite <- app_assoc. reflexivity.
Qed.

Lemma keeps_order_Remove a b k c mx sz m ttl :
  k <> a -> k <> b -> keeps_order a b c ->
  keeps_order a b {| maxSize := mx; size := sz; items := m;
                     lru := list_Remove k (lru c); defaultTTL := ttl |}.
Proof.
  intros Ha Hb Hc. unfold keeps_order; simpl. intros Hin.
  apply elem_of_list_Remove in Hin as [_ Hin].
  apply (precedes_filter (fun x => x <> k)); [apply Hc, Hin | congruence | congruence].
Qed.

Lemma keeps_order_MoveToFront a b k c mx sz m ttl :
  k <> a -> k <> b -> keeps_order a b c ->
  keeps_order a b {| maxSize := mx; size := sz; items := m;
                     lru := list_MoveToFront k (lru c); defaultTTL := ttl |}.
Proof.
  intros Ha Hb Hc. unfold keeps_order, list_MoveToFront; simpl. intros Hin.
  apply elem_of_cons in Hin as [-> | Hin]; [contradiction |].
  apply precedes_cons.
  apply (keeps_order_Remove a b k c mx sz m ttl Ha Hb Hc). exact Hin.
Qed.

Lemma keeps_order_store a b k e c :
  k <> a -> k <> b -> keeps_order a b c -> keeps_order a b (store c k e).
Proof.
  intros Ha Hb Hc. unfold store. destruct (items c !! k).
  - apply keeps_order_MoveToFront; assumption.
  - unfold keeps_order; simpl. intros Hin.
    apply elem_of_cons in Hin as [-> | Hin]; [contradiction |].
    apply precedes_cons, Hc, Hin.
Qed.

Lemma keeps_order_prefix a b c c' n :
  NoDup (lru c) -> lru c' = take n (lru c) ->
  keeps_order a b c -> keeps_order a b c'.
Proof.
  intros Hnd Hl Hc. unfold keeps_order. rewrite Hl. intros Hin.
  apply precedes_take; [exact Hnd | | exact Hin].
  apply Hc. apply (subseteq_take n (lru c)), Hin.
Qed.

Lemma keeps_order_step a b c o :
  coherent c -> accounted c -> ~ call_names o a -> ~ call_names o b ->
  keeps_order a b c -> keeps_order a b (step c o).
Proof.
  intros Hc Hacc Ha Hb Hk. destruct o as [key now | key entry | key |]; simpl in *.
  - unfold Get. destruct (items c !! key) as [e |]; [| exact Hk].
    destruct (Time_After now (ExpiresAt e)); simpl.
    + apply keeps_order_Remove; assumption.
    + apply keeps_order_MoveToFront; assumption.
  - unfold Set_.
    destruct (evict_prefix (length (lru (store c key entry))) (store c key entry))
      as (n & _ & Hl & _).
    { apply coherent_store, Hc. } { apply accounted_store, Hacc. } { lia. }
    apply (keeps_order_prefix a b (store c key entry) _ n).
    + apply coherent_store, Hc.
    + exact Hl.
    + apply keeps_order_store; assumption.
  - unfold Delete. destruct (items c !! key); [| exact Hk].
    apply keeps_order_Remove; assumption.
  - intros Hin. inversion Hin.
Qed.

Lemma keeps_order_run a b calls : forall c,
  coherent c -> accounted c ->
  Forall (fun o => ~ call_names o a /\ ~ call_names o b) calls ->
  keeps_order a b c -> keeps_order a b (run c calls).
Proof.
  unfold run. induction calls as [| o calls IH]; intros c Hc Hacc Hcalls Hk; simpl.
  - exact Hk.
  - apply Forall_cons in Hcalls as [[Ha Hb] Hcalls].
    apply IH; [apply coherent_step, Hc | apply accounted_step, Hacc | exact Hcalls |].
    apply keeps_order_step; assumption.
Qed.

(** C3. On a cache reached by any calls: a hit of [Get] and the
    insertion of [Set] put the key at the front of the list. The loop
    of [Set] keeps a prefix of the list, that is, it removes from the
    back; it stops with the size within [maxSize] or the list empty;
    and it removes no more than it must, every longer prefix being too
    large. So after a hit on [a], and through any calls that name
    neither [a] nor [b], [b] is cached only with [a] before it: [a] is
    not evicted before [b]. *)
Theorem lru_eviction_order (maxSize0 ttl : Z) (calls0 : list call) :
  let c := run (NewMemoryCache maxSize0 ttl) calls0 in
  (forall key now e, snd (Get c key now) = Some e ->
     head (lru (fst (Get c key now))) = Some key)
  /\ (forall key entry, head (lru (store c key entry)) = Some key)
  /\ (forall key entry,
        let inserted := store c key entry in
        let c' := Set_ c key entry in
        exists n, (n <= length (lru inserted))%nat
          /\ lru c' = take n (lru inserted)
          /\ (forall k, k ∈ lru c' -> items c' !! k = items inserted !! k)
          /\ (size c' <= maxSize0 \/ lru c' = [])
          /\ (forall j, (n < j <= length (lru inserted))%nat ->
                maxSize0 < Int64.wrap64 (sum_over (items inserted) (take j (lru inserted)))))
  /\ (forall a b now e calls,
        a <> b -> snd (Get c a now) = Some e ->
        Forall (fun o => ~ call_names o a /\ ~ call_names o b) calls ->
        let c' := run (fst (Get c a now)) calls in
        b ∈ lru c' -> precedes a b (lru c') /\ is_Some (items c' !! a)).
Proof.
  intros c.
  pose proof (accounted_run maxSize0 ttl calls0) as Ha.
  pose proof (coherent_run maxSize0 ttl calls0) as Hc. fold c in Ha, Hc.
  assert (Hm : maxSize c = maxSize0) by apply maxSize_run.
  split; [| split; [| split]].
  - intros key now e Hhit. rewrite (Get_hit c key now e Hhit). reflexivity.
  - intros key entry. apply head_store.
  - intros key entry inserted c'.
    assert (Hci : coherent inserted) by apply coherent_store, Hc.
    assert (Hai : accounted inserted) by apply accounted_store, Ha.
    assert (Hmi : maxSize inserted = maxSize0).
    { unfold inserted. rewrite maxSize_store. exact Hm. }
    destruct (evict_prefix (length (lru inserted)) inserted Hci Hai (le_n _))
      as (n & Hn & Hl & Hitems & Hmin).
    exists n. fold c' in Hl. unfold c', Set_. fold inserted.
    split; [exact Hn |]. split; [exact Hl |]. split; [| split].
    + intros k Hk. apply Hitems. unfold c', Set_ in Hl. fold inserted in Hl.
      rewrite <- Hl. exact Hk.
    + destruct (evict_stops (length (lru inserted)) inserted Hci (le_n _)) as [H | H].
      * left. rewrite maxSize_evict, Hmi in H. exact H.
      * right. exact H.
    + intros j Hj. rewrite <- Hmi. apply Hmin, Hj.
  - intros a b now e calls Hab Hhit Hcalls c' Hb.
    assert (Hc1 : coherent (fst (Get c a now))) by apply coherent_Get, Hc.
    assert (Ha1 : accounted (fst (Get c a now))) by apply (accounted_step c (CallGet a now) Ha).
    assert (Hk : keeps_order a b c').
    { apply keeps_order_run; [exact Hc1 | exact Ha1 | exact Hcalls |].
      rewrite (Get_hit c a now e Hhit). unfold keeps_order; simpl.
      unfold list_MoveToFront. intros Hin.
      apply elem_of_cons in Hin as [-> | Hin]; [contradiction |].
      apply precedes_head, Hin. }
    specialize (Hk Hb). split; [exact Hk |].
    assert (Hc' : coherent c') by (apply run_invariant; [apply coherent_step | exact Hc1]).
    apply Hc'. apply (precedes_elem_of a b), Hk.
Qed.

Lemma lru_eviction_order_witness :
  let c := run (NewMemoryCache 27 300) [CallSet "a" entry9; CallSet "b" entry9] in
  let c' := run (fst (Get c "a" 50)) [CallSet "c" entry9] in
  lru c = ["b"; "a"] /\ lru c' = ["c"; "a"; "b"] /\ precedes "a" "b" (lru c').
Proof.
  intros c c'.
  pose proof (lru_eviction_order 27 300 [CallSet "a" entry9; CallSet "b" entry9])
    as (_ & _ & _ & Horder).
  split; [vm_compute; reflexivity |]. split; [vm_compute; reflexivity |].
  apply (Horder "a" "b" 50 entry9 [CallSet "c" entry9]).
  - discriminate.
  - vm_compute. reflexivity.
  - repeat constructor; simpl; discriminate.
  - vm_compute. apply list_elem_of_In. simpl. auto.
Defined.

(** After a hit on ["a"] a [Set] that needs room evicts ["b"], the
    older of the two; and an entry larger than [maxSize] is itself
    evicted by the [Set] that inserts it, after all the others. *)
Example lru_evicts_least_recent :
  let c := run (NewMemoryCache 20 300) [CallSet "a" entry9; CallSet "b" entry9] in
  lru (run c [CallGet "a" 50; CallSet "c" entry9]) = ["c"; "a"]
  /\ lru (run c [CallSet "c" entry9]) = ["c"; "b"]
  /\ lru (run c [CallSet "huge" (entry_of_size 21)]) = []
  /\ Size_ (run c [CallSet "huge" (entry_of_size 21)]) = 0.
Proof. vm_compute. repeat split; reflexivity. Qed.

(** *** Insertion, lookup and deletion *)

Lemma store_lookup c key entry : items (store c key entry) !! key = Some entry.
Proof.
  unfold store. destruct (items c !! key); simpl; apply lookup_insert_eq.
Qed.

Lemma store_lookup_ne c key entry k :
  k <> key -> items (store c key entry) !! k = items c !! k.
Proof.
  intros Hk. unfold store. destruct (items c !! key); simpl;
    apply lookup_insert_ne; congruence.
Qed.

Lemma Set_keeps_fitting c key entry :
  coherent c -> accounted c ->
  Int64.in_range (Size entry) -> Size entry <= maxSize c ->
  items (Set_ c key entry) !! key = Some entry.
Proof.
  intros Hc Ha Hr Hfit. unfold Set_.
  set (c' := store c key entry).
  assert (Hc' : coherent c') by apply coherent_store, Hc.
  assert (Ha' : accounted c') by apply accounted_store, Ha.
  destruct (evict_prefix (length (lru c')) c' Hc' Ha' (le_n _))
    as (n & Hn & Hlru & Hitems & Hmin).
  pose proof (head_store c key entry) as Hhead. fold c' in Hhead.
  destruct (lru c') as [| k0 rest] eqn:El; [discriminate |].
  simpl in Hhead. injection Hhead as ->.
  destruct n as [| n].
  - exfalso. specialize (Hmin 1%nat). simpl in Hmin.
    unfold c' in Hmin. rewrite store_lookup, maxSize_store in Hmin.
    rewrite Z.add_0_r, Int64.wrap64_id in Hmin by exact Hr.
    assert (maxSize c < Size entry) by (apply Hmin; lia). lia.
  - rewrite Hitems by (simpl; left). apply store_lookup.
Qed.

(** X5. An entry that fits is found again. After any calls, a [Set] of
    an entry whose size is at most [maxSize] keeps that entry, whatever
    else it evicts, and a [Get] of the key when the clock is not after
    the entry's [ExpiresAt] returns the entry and makes the key the most
    recently used. *)
Theorem Set_then_Get (maxSize0 ttl : Z) (calls : list call)
    (key : string) (entry : Entry) (now : Z) :
  Int64.in_range (Size entry) -> Size entry <= maxSize0 -> now <= ExpiresAt entry ->
  let c := Set_ (run (NewMemoryCache maxSize0 ttl) calls) key entry in
  snd (Get c key now) = Some entry
  /\ head (lru (fst (Get c key now))) = Some key.
Proof.
  intros Hr Hfit Hnow c.
  assert (Hk : items c !! key = Some entry).
  { apply Set_keeps_fitting; [apply coherent_run | apply accounted_run | exact Hr |].
    rewrite maxSize_run. exact Hfit. }
  assert (Hhit : snd (Get c key now) = Some entry).
  { apply Get_Some_iff. split; [exact Hk | exact Hnow]. }
  split; [exact Hhit |]. rewrite (Get_hit c key now entry Hhit). reflexivity.
Qed.

Lemma Set_then_Get_witness :
  let c := Set_ (run (NewMemoryCache 20 300) two_entries) "c" entry9 in
  snd (Get c "c" 100) = Some entry9 /\ head (lru (fst (Get c "c" 100))) = Some "c".
Proof.
  apply (Set_then_Get 20 300 two_entries "c" entry9 100).
  - vm_compute. split; discriminate.
  - simpl. lia.
  - simpl. lia.
Defined.

Lemma evict_lookup fuel : forall c k e,
  items (evict fuel c) !! k = Some e -> items c !! k = Some e.
Proof.
  induction fuel as [| fuel IH]; intros c k e H; simpl in H; [exact H |].
  destruct ((maxSize c <? size c) && (0 <? Z.of_nat (length (lru c)))); [| exact H].
  destruct (last (lru c)) as [key |]; [| exact H].
  destruct (items c !! key) as [entry |] eqn:Ek; [| exact H].
  apply IH in H. simpl in H.
  destruct (decide (key = k)) as [-> | Hne].
  - rewrite lookup_delete_eq in H. discriminate.
  - rewrite lookup_delete_ne in H by exact Hne. exact H.
Qed.

Lemma sizes_nonneg_step c o :
  match o with CallSet _ e => 0 <= Size e | _ => True end ->
  sizes_nonneg c -> sizes_nonneg (step c o).
Proof.
  intros Ho Hc k e. destruct o as [key now | key entry | key |]; simpl.
  - unfold Get. destruct (items c !! key) as [entry |] eqn:Ek; [| apply Hc].
    destruct (Time_After now (ExpiresAt entry)); simpl; [| apply Hc].
    destruct (decide (key = k)) as [-> | Hne].
    + rewrite lookup_delete_eq. discriminate.
    + rewrite lookup_delete_ne by exact Hne. apply Hc.
  - unfold Set_. intros H. apply evict_lookup in H.
    destruct (decide (k = key)) as [-> | Hne].
    + rewrite store_lookup in H. injection H as <-. exact Ho.
    + rewrite store_lookup_ne in H by exact Hne. apply (Hc k e H).
  - unfold Delete. destruct (items c !! key) as [entry |] eqn:Ek; [| apply Hc].
    simpl. destruct (decide (key = k)) as [-> | Hne].
    + rewrite lookup_delete_eq. discriminate.
    + rewrite lookup_delete_ne by exact Hne. apply Hc.
  - rewrite lookup_empty. discriminate.
Qed.

Lemma sizes_nonneg_run calls : forall c,
  sets_nonneg calls -> sizes_nonneg c -> sizes_nonneg (run c calls).
Proof.
  induction calls as [| o calls IH]; intros c Hcalls Hc; [exact Hc |].
  inversion Hcalls as [| ? ? Ho Hrest]; subst.
  apply IH; [exact Hrest | apply sizes_nonneg_step; assumption].
Qed.

Lemma sum_over_nonneg (m : gmap string Entry) (l : list string) :
  (forall k e, m !! k = Some e -> 0 <= Size e) -> 0 <= sum_over m l.
Proof.
  intros Hm. induction l as [| k l IH]; simpl; [lia |].
  destruct (m !! k) as [e |] eqn:Ek; [| exact IH].
  pose proof (Hm k e Ek). lia.
Qed.

Lemma sum_over_take_le (m : gmap string Entry) (l : list string) :
  (forall k e, m !! k = Some e -> 0 <= Size e) ->
  forall n, sum_over m (take n l) <= sum_over m l.
Proof.
  intros Hm. induction l as [| k l IH]; intros n.
  - rewrite take_nil. simpl. lia.
  - destruct n as [| n]; simpl.
    + pose proof (sum_over_nonneg m l Hm).
      destruct (m !! k) as [e |] eqn:Ek; [pose proof (Hm k e Ek) |]; lia.
    + specialize (IH n). destruct (m !! k); lia.
Qed.

Lemma sum_sizes_store_le c key entry :
  sizes_nonneg c -> sum_sizes (items (store c key entry)) <= sum_sizes (items c) + Size entry.
Proof.
  intros Hc. unfold store. destruct (items c !! key) as [old |] eqn:Ek; simpl.
  - rewrite (sum_sizes_insert_old _ _ _ old Ek). pose proof (Hc key old Ek). lia.
  - rewrite (sum_sizes_insert_new _ _ _ Ek). lia.
Qed.

Lemma Set_oversize c key entry :
  coherent c -> accounted c -> sizes_nonneg c ->
  0 <= maxSize c < Size entry ->
  sum_sizes (items c) + Size entry <= Int64.max_int ->
  lru (Set_ c key entry) = [].
Proof.
  intros Hc Ha Hn Hbig Hsum. unfold Set_.
  set (c' := store c key entry).
  assert (Hc' : coherent c') by apply coherent_store, Hc.
  assert (Ha' : accounted c') by apply accounted_store, Ha.
  assert (Hn' : forall k e, items c' !! k = Some e -> 0 <= Size e).
  { intros k e. destruct (decide (k = key)) as [-> | Hne]; unfold c'.
    - rewrite store_lookup. intros [= <-]. lia.
    - rewrite store_lookup_ne by exact Hne. apply Hn. }
  destruct (evict_prefix (length (lru c')) c' Hc' Ha' (le_n _))
    as (n & Hlen & Hlru & Hitems & _).
  destruct (evict_stops (length (lru c')) c' Hc' (le_n _)) as [Hle | Hnil];
    [| exact Hnil].
  rewrite maxSize_evict in Hle.
  pose proof (size_sum_over _ (coherent_evict (length (lru c')) c' Hc')
                (accounted_evict (length (lru c')) c' Ha')) as Hsize.
  rewrite Hlru in Hsize |- *.
  rewrite (sum_over_ext _ (items c') (take n (lru c'))) in Hsize by exact Hitems.
  pose proof (head_store c key entry) as Hhead. fold c' in Hhead.
  destruct n as [| n]; [apply take_0 |]. exfalso.
  pose proof (sum_over_take_le (items c') (lru c') Hn' (S n)) as Hupper.
  rewrite <- (sum_sizes_sum_over (lru c') (items c') (proj1 Hc') (proj2 Hc')) in Hupper.
  pose proof (sum_sizes_store_le c key entry Hn) as Htotal. fold c' in Htotal.
  assert (Hlower : Size entry <= sum_over (items c') (take (S n) (lru c'))).
  { destruct (lru c') as [| k0 rest]; [discriminate |].
    simpl in Hhead. injection Hhead as ->. simpl.
    unfold c' at 1. rewrite store_lookup.
    pose proof (sum_over_nonneg (items c') (take n rest) Hn'). lia. }
  rewrite Int64.wrap64_id in Hsize.
  - change (maxSize c') with (maxSize (store c key entry)) in Hle.
    rewrite maxSize_store in Hle. lia.
  - unfold Int64.in_range, Int64.min_int. split; [| lia].
    pose proof (sum_over_nonneg (items c') (take (S n) (lru c')) Hn'). lia.
Qed.

(** X6. An entry that is too large empties the cache. When the sizes
    stored are not negative and their sum is an [int64], a [Set] of an
    entry larger than [maxSize] evicts every entry, the new one
    included: the cache is left with no entry and a size of 0, and every
    [Get] misses. *)
Theorem Set_oversize_empties (maxSize0 ttl : Z) (calls : list call)
    (key : string) (entry : Entry) :
  sets_nonneg calls -> 0 <= maxSize0 < Size entry ->
  sum_sizes (items (run (NewMemoryCache maxSize0 ttl) calls)) + Size entry <= Int64.max_int ->
  let c := Set_ (run (NewMemoryCache maxSize0 ttl) calls) key entry in
  Len c = 0 /\ Size_ c = 0 /\ forall k now, snd (Get c k now) = None.
Proof.
  intros Hcalls Hbig Hsum c.
  set (c0 := run (NewMemoryCache maxSize0 ttl) calls) in *.
  assert (Hc0 : coherent c0) by apply coherent_run.
  assert (Ha0 : accounted c0) by apply accounted_run.
  assert (Hn0 : sizes_nonneg c0).
  { apply sizes_nonneg_run; [exact Hcalls |]. intros k e. simpl.
    rewrite lookup_empty. discriminate. }
  assert (Hnil : lru c = []).
  { apply Set_oversize; try assumption. unfold c0. rewrite maxSize_run. exact Hbig. }
  assert (Hc : coherent c) by (apply (coherent_step c0 (CallSet key entry)), Hc0).
  assert (Ha : accounted c) by (apply (accounted_step c0 (CallSet key entry)), Ha0).
  pose proof (coherent_empty c Hc Hnil) as Hitems.
  split; [unfold Len; rewrite Hnil; reflexivity |]. split.
  - unfold Size_. rewrite Ha, Hitems, sum_sizes_empty. apply Int64.wrap64_0.
  - intros k now. rewrite Get_absent; [reflexivity |]. rewrite Hitems. apply lookup_empty.
Qed.

Lemma Set_oversize_empties_witness :
  let c := Set_ (run (NewMemoryCache 20 300) two_entries) "huge" (entry_of_size 21) in
  Len c = 0 /\ Size_ c = 0 /\ forall k now, snd (Get c k now) = None.
Proof.
  apply (Set_oversize_empties 20 300 two_entries "huge" (entry_of_size 21)).
  - repeat constructor; simpl; lia.
  - simpl. lia.
  - vm_compute. discriminate.
Defined.

Lemma length_list_Remove key (l : list string) :
  NoDup l -> key ∈ l -> S (length (list_Remove key l)) = length l.
Proof.
  unfold list_Remove. induction l as [| k l IH]; intros Hnd Hin.
  - inversion Hin.
  - apply NoDup_cons in Hnd as [Hk Hnd].
    destruct (decide (k = key)) as [-> | Hne].
    + rewrite filter_cons_False by (intros H; apply H; reflexivity).
      fold (list_Remove key l). rewrite list_Remove_absent by exact Hk. reflexivity.
    + rewrite filter_cons_True by exact Hne. simpl. f_equal. apply IH; [exact Hnd |].
      apply elem_of_cons in Hin as [-> | Hin]; [contradiction | exact Hin].
Qed.

(** X7. [Delete] removes the key and nothing else. Afterwards a [Get]
    of the key misses and changes nothing, every other key has the entry
    it had, and the other keys keep their order of use. Deleting a key
    that is not cached changes nothing; deleting one that is cached
    takes its size off the recorded size and makes [Len] one less. *)
Theorem Delete_removes_one_key (maxSize0 ttl : Z) (calls : list call) (key : string) :
  let c := run (NewMemoryCache maxSize0 ttl) calls in
  let c' := Delete c key in
  (forall now, Get c' key now = (c', None))
  /\ (forall k, k <> key -> items c' !! k = items c !! k)
  /\ lru c' = filter (fun k => k <> key) (lru c)
  /\ (items c !! key = None -> c' = c)
  /\ (forall e, items c !! key = Some e ->
        Size_ c' = Int64.sub (Size_ c) (Size e) /\ Len c' = Len c - 1).
Proof.
  intros c c'. pose proof (coherent_run maxSize0 ttl calls) as Hc. fold c in Hc.
  unfold c', Delete. destruct (items c !! key) as [e |] eqn:Ek.
  - split; [intros now; apply Get_absent; simpl; apply lookup_delete_eq |].
    split; [intros k Hk; simpl; apply lookup_delete_ne; congruence |].
    split; [reflexivity |]. split; [discriminate |].
    intros e' [= <-]. split; [reflexivity |]. unfold Len. simpl.
    destruct Hc as [Hnd Hkeys].
    rewrite <- (length_list_Remove key (lru c) Hnd) by (apply Hkeys; eauto). lia.
  - split; [intros now; apply Get_absent, Ek |].
    split; [reflexivity |]. split.
    + destruct Hc as [_ Hkeys]. symmetry. apply (list_Remove_absent key).
      intros Hin. apply Hkeys in Hin. rewrite Ek in Hin. destruct Hin; discriminate.
    + split; [reflexivity | discriminate].
Qed.

Lemma keys_length (l : list string) (m : gmap string Entry) :
  NoDup l -> (forall k, k ∈ l <-> is_Some (m !! k)) -> length l = length (map_to_list m).
Proof.
  intros Hnd Hkeys. rewrite <- (length_fmap fst (map_to_list m)).
  apply Permutation_length, NoDup_Permutation; [exact Hnd | apply NoDup_fst_map_to_list |].
  intros k. rewrite Hkeys, list_elem_of_fmap. split.
  - intros [e He]. exists (k, e). split; [reflexivity | apply elem_of_map_to_list, He].
  - intros ([k' e] & -> & He). apply elem_of_map_to_list in He. simpl. eauto.
Qed.

(** X8. After any calls the list of use and the map hold the same
    keys, each key once in the list, so that [Len] is the number of
    entries in the map; and an empty cache has a recorded size of 0. *)
Theorem list_and_map_agree (maxSize0 ttl : Z) (calls : list call) :
  let c := run (NewMemoryCache maxSize0 ttl) calls in
  NoDup (lru c)
  /\ (forall k, k ∈ lru c <-> is_Some (items c !! k))
  /\ Len c = Z.of_nat (length (map_to_list (items c)))
  /\ (Len c = 0 -> Size_ c = 0).
Proof.
  intros c. pose proof (coherent_run maxSize0 ttl calls) as Hc.
  pose proof (accounted_run maxSize0 ttl calls) as Ha. fold c in Hc, Ha.
  split; [apply Hc |]. split; [apply Hc |]. split.
  - unfold Len. f_equal. apply keys_length; apply Hc.
  - unfold Len, Size_. intros Hlen. rewrite Ha.
    rewrite (coherent_empty c Hc), sum_sizes_empty; [apply Int64.wrap64_0 |].
    destruct (lru c); [reflexivity | simpl in Hlen; lia].
Qed.

End Store.

(** ** The key extractors *)

Module Extract.
Import Go.

(** [strings.IndexByte] and [strings.LastIndexByte], [None] for [-1]. *)
Fixpoint IndexByte (s : string) (c : ascii) : option nat :=
  match s with
  | EmptyString => None
  | String a rest =>
      if Ascii.eqb a c then Some O else S <$> IndexByte rest c
  end.

Fixpoint LastIndexByte (s : string) (c : ascii) : option nat :=
  match s with
  | EmptyString => None
  | String a rest =>
      match LastIndexByte rest c with
      | Some i => Some (S i)
      | None => if Ascii.eqb a c then Some O else None
      end
  end.

(** The slices [s[from:]] and [s[from:to]]. *)
Fixpoint slice_from (from : nat) (s : string) : string :=
  match from, s with
  | O, _ => s
  | S n, String _ rest => slice_from n rest
  | S _, EmptyString => ""
  end.

Definition slice (from to : nat) (s : string) : string :=
  String.substring from (to - from) s.

Definition has_byte (s : string) (c : ascii) : bool :=
  match IndexByte s c with Some _ => true | None => false end.

(** [net.SplitHostPort]: the host and the port, [None] for an error. *)
Definition SplitHostPort (hostport : string) : option (string * string) :=
  match LastIndexByte hostport ":" with
  | None => None
  | Some i =>
      let bracketed :=
        match hostport with
        | String c _ => Ascii.eqb c "["
        | EmptyString => false
        end in
      let parsed :=
        if bracketed then
          match IndexByte hostport "]" with
          | None => None
          | Some e =>
              if Nat.eqb (S e) (String.length hostport) then None
              else if Nat.eqb (S e) i then Some (slice 1 e hostport, 1%nat, S e)
              else None
          end
        else
          let host := slice 0 i hostport in
          if has_byte host ":" then None else Some (host, O, O) in
      match parsed with
      | None => None
      | Some (host, j, k) =>
          if has_byte (slice_from j hostport) "[" then None
          else if has_byte (slice_from k hostport) "]" then None
          else Some (host, slice_from (S i) hostport)
      end
  end.

(** The loop of [IPKeyExtractor] over [xff]: [xff[:idx]] for the first
    [idx] with a comma, all of [xff] when it has none. *)
Fixpoint before_comma (xff : string) : string :=
  match xff with
  | EmptyString => ""
  | String c rest => if Ascii.eqb c "," then "" else String c (before_comma rest)
  end.

Definition IPKeyExtractor (r : Request) : string :=
  let xff := Header_Get (Req_Header r) "X-Forwarded-For" in
  if negb (String.eqb xff "") then before_comma xff
  else
    let xri := Header_Get (Req_Header r) "X-Real-IP" in
    if negb (String.eqb xri "") then xri
    else match SplitHostPort (RemoteAddr r) with
         | Some (host, _) => host
         | None => RemoteAddr r
         end.

Definition APIKeyExtractor (headerName : string) (r : Request) : string :=
  let key := Header_Get (Req_Header r) headerName in
  if String.eqb key "" then IPKeyExtractor r else "apikey:" +:+ key.

Fixpoint join_keys (keys : list string) (first : bool) : string :=
  match keys with
  | [] => ""
  | key :: rest => (if first then "" else ":") +:+ key +:+ join_keys rest false
  end.

Definition CompositeKeyExtractor (extractors : list (Request -> string)) (r : Request) : string :=
  join_keys (map (fun extractor => extractor r) extractors) true.

(** A request from [addr] with the two forwarding headers as given, an
    empty string for a header that is not set. *)
Definition request_from (addr xff xri : string) : Request :=
  let h0 : Header := ∅ in
  let h1 := if String.eqb xff "" then h0 else Header_Set h0 "X-Forwarded-For" xff in
  let h2 := if String.eqb xri "" then h1 else Header_Set h1 "X-Real-IP" xri in
  {| Method := "GET"; URL_Path := "/"; URL_RawQuery := ""; Req_Header := h2;
     RemoteAddr := addr |}.

(** No byte of [s] is [c]. *)
Definition free_of (c : ascii) (s : string) : Prop := IndexByte s c = None.

(** A request with the given headers from the given peer address. *)
Definition request_with (h : Header) (addr : string) : Request :=
  {| Method := "GET"; URL_Path := "/"; URL_RawQuery := ""; Req_Header := h;
     RemoteAddr := addr |}.

Example IPKeyExtractor_tests :
  IPKeyExtractor (request_from "192.168.1.1:1234" "203.0.113.1" "") = "203.0.113.1"
  /\ IPKeyExtractor (request_from "192.168.1.1:1234" "203.0.113.1, 198.51.100.1" "")
     = "203.0.113.1"
  /\ IPKeyExtractor (request_from "192.168.1.1:1234" "" "203.0.113.1") = "203.0.113.1"
  /\ IPKeyExtractor (request_from "192.168.1.1:1234" "" "") = "192.168.1.1"
  /\ IPKeyExtractor (request_from "[::1]:8080" "" "") = "::1"
  /\ IPKeyExtractor (request_from "::1" "" "") = "::1"
  /\ IPKeyExtractor (request_from "localhost" "" "") = "localhost".
Proof. repeat split; vm_compute; reflexivity. Qed.

(** *** Properties *)

Lemma before_comma_spec (xff : string) :
  free_of "," (before_comma xff)
  /\ (xff = before_comma xff
      \/ exists rest, xff = before_comma xff +:+ String "," rest).
Proof.
  unfold free_of. induction xff as [| c rest [IHfree IHsplit]]; simpl.
  - auto.
  - destruct (Ascii.eqb_spec c ",") as [-> | Hne]; simpl.
    + split; [reflexivity |]. right. exists rest. reflexivity.
    + apply Ascii.eqb_neq in Hne. rewrite Hne, IHfree. split; [reflexivity |].
      destruct IHsplit as [H | [rest' H]].
      * left. f_equal. exact H.
      * right. exists rest'.
        change (String c rest = String c (before_comma rest +:+ String "," rest')).
        f_equal. exact H.
Qed.

Lemma LastIndexByte_free s c : free_of c s -> LastIndexByte s c = None.
Proof.
  unfold free_of. induction s as [| a s IH]; simpl; [reflexivity |].
  destruct (Ascii.eqb a c); [discriminate |].
  destruct (IndexByte s c); [discriminate |]. intros _. rewrite IH; reflexivity.
Qed.

Lemma free_of_cons a s c : free_of c (String a s) <-> Ascii.eqb a c = false /\ free_of c s.
Proof.
  unfold free_of; simpl. destruct (Ascii.eqb a c).
  - split; [discriminate | intros [H _]; discriminate].
  - destruct (IndexByte s c); simpl; split; try discriminate; auto.
    intros [_ H]. discriminate.
Qed.

Lemma free_of_app s1 s2 c : free_of c s1 -> free_of c s2 -> free_of c (s1 +:+ s2).
Proof.
  induction s1 as [| a s1 IH]; simpl; intros H1 H2; [exact H2 |].
  apply free_of_cons in H1 as [Ha H1]. apply free_of_cons. auto.
Qed.

Lemma LastIndexByte_app host port c :
  free_of c port ->
  LastIndexByte (host +:+ String c port) c = Some (String.length host).
Proof.
  intros Hport. induction host as [| a host IH]; simpl.
  - rewrite (LastIndexByte_free port c Hport), Ascii.eqb_refl. reflexivity.
  - change (LastIndexByte (host +:+ String c port) c = Some (String.length host)) in IH.
    rewrite IH. reflexivity.
Qed.

Lemma substring_prefix host rest :
  String.substring 0 (String.length host) (host +:+ rest) = host.
Proof.
  induction host as [| a host IH]; simpl.
  - destruct rest; reflexivity.
  - f_equal. exact IH.
Qed.

Lemma slice_from_app host c port :
  slice_from (S (String.length host)) (host +:+ String c port) = port.
Proof. induction host as [| a host IH]; simpl; [reflexivity | exact IH]. Qed.

Lemma has_byte_free s c : free_of c s -> has_byte s c = false.
Proof. unfold free_of, has_byte. intros ->. reflexivity. Qed.

(** A peer address [host:port], neither part holding a colon or a
    bracket, splits into its two parts. *)
Lemma SplitHostPort_host_port host port :
  free_of ":" host -> free_of "[" host -> free_of "]" host ->
  free_of ":" port -> free_of "[" port -> free_of "]" port ->
  SplitHostPort (host +:+ String ":" port) = Some (host, port).
Proof.
  intros Hc Hl Hr Hpc Hpl Hpr. unfold SplitHostPort.
  rewrite (LastIndexByte_app host port ":" Hpc).
  assert (Hfirst : match host +:+ String ":" port with
                   | String c _ => Ascii.eqb c "["
                   | EmptyString => false
                   end = false).
  { destruct host as [| a host]; simpl; [reflexivity |].
    apply free_of_cons in Hl as [Ha _]. exact Ha. }
  rewrite Hfirst. unfold slice. rewrite Nat.sub_0_r, substring_prefix.
  rewrite (has_byte_free host ":" Hc). simpl slice_from at 1 2.
  rewrite (has_byte_free (host +:+ String ":" port) "[").
  2:{ apply free_of_app; [exact Hl |]. apply free_of_cons. split; [reflexivity | exact Hpl]. }
  rewrite (has_byte_free (host +:+ String ":" port) "]").
  2:{ apply free_of_app; [exact Hr |]. apply free_of_cons. split; [reflexivity | exact Hpr]. }
  rewrite slice_from_app. reflexivity.
Qed.

(** An address without a colon does not split. *)
Lemma SplitHostPort_no_colon addr : free_of ":" addr -> SplitHostPort addr = None.
Proof.
  intros H. unfold SplitHostPort. rewrite (LastIndexByte_free addr ":" H). reflexivity.
Qed.

(** C9, as the code has it. With a non-empty [X-Forwarded-For] the key
    is the text of that header before its first comma, byte for byte:
    nothing is trimmed. Else with a non-empty [X-Real-IP] it is that
    value. Else it is the host that [net.SplitHostPort] finds in the
    peer address, which for [host:port] is [host], and the whole peer
    address when that does not split, as when it has no colon. *)
Theorem IPKeyExtractor_spec (r : Request) :
  let xff := Header_Get (Req_Header r) "X-Forwarded-For" in
  let xri := Header_Get (Req_Header r) "X-Real-IP" in
  (xff <> "" ->
     free_of "," (IPKeyExtractor r)
     /\ (xff = IPKeyExtractor r
         \/ exists rest, xff = IPKeyExtractor r +:+ String "," rest))
  /\ (xff = "" -> xri <> "" -> IPKeyExtractor r = xri)
  /\ (xff = "" -> xri = "" ->
        IPKeyExtractor r = match SplitHostPort (RemoteAddr r) with
                           | Some (host, _) => host
                           | None => RemoteAddr r
                           end)
  /\ (xff = "" -> xri = "" -> forall host port,
        RemoteAddr r = host +:+ String ":" port ->
        free_of ":" host -> free_of "[" host -> free_of "]" host ->
        free_of ":" port -> free_of "[" port -> free_of "]" port ->
        IPKeyExtractor r = host)
  /\ (xff = "" -> xri = "" -> free_of ":" (RemoteAddr r) ->
        IPKeyExtractor r = RemoteAddr r).
Proof.
  intros xff xri. unfold IPKeyExtractor. fold xff xri.
  split; [| split; [| split; [| split]]].
  - intros Hne. apply String.eqb_neq in Hne. rewrite Hne. simpl.
    apply before_comma_spec.
  - intros -> Hne. apply String.eqb_neq in Hne. rewrite Hne. reflexivity.
  - intros -> ->. reflexivity.
  - intros -> -> host port Haddr Hc Hl Hr Hpc Hpl Hpr. simpl.
    rewrite Haddr, SplitHostPort_host_port by assumption. reflexivity.
  - intros -> -> Hfree. simpl. rewrite SplitHostPort_no_colon by exact Hfree.
    reflexivity.
Qed.

Lemma IPKeyExtractor_spec_witness :
  IPKeyExtractor (request_from "192.168.1.1:1234" "" "") = "192.168.1.1"
  /\ IPKeyExtractor (request_from "192.168.1.1:1234" "" "10.0.0.7") = "10.0.0.7"
  /\ free_of "," (IPKeyExtractor (request_from "192.168.1.1:1234" "203.0.113.1, 198.51.100.1" "")).
Proof.
  split; [| split].
  - apply (IPKeyExtractor_spec (request_from "192.168.1.1:1234" "" ""));
      reflexivity.
  - apply (IPKeyExtractor_spec (request_from "192.168.1.1:1234" "" "10.0.0.7"));
      [reflexivity | discriminate].
  - apply (IPKeyExtractor_spec
             (request_from "192.168.1.1:1234" "203.0.113.1, 198.51.100.1" "")).
    discriminate.
Defined.

(** C9 as stated fails on white space around the first
    address: the text before the comma is returned with it. *)
Lemma IPKeyExtractor_not_trimmed :
  let r := request_from "192.168.1.1:1234" "203.0.113.1 , 198.51.100.1" "" in
  IPKeyExtractor r = "203.0.113.1 "
  /\ TrimSpaceASCII (IPKeyExtractor r) = "203.0.113.1"
  /\ String.eqb (IPKeyExtractor r) (TrimSpaceASCII (IPKeyExtractor r)) = false.
Proof. vm_compute. repeat split; reflexivity. Qed.

(** *** Composite keys, API keys and peer addresses *)

Lemma join_keys_Join (keys : list string) :
  join_keys keys true = Join keys ":"
  /\ join_keys keys false = match keys with [] => "" | _ => ":" +:+ Join keys ":" end.
Proof.
  induction keys as [| key rest [_ IH]]; [split; reflexivity |].
  assert (H : key +:+ join_keys rest false = Join (key :: rest) ":").
  { rewrite IH. destruct rest as [| k rest]; [apply StringFacts.append_nil_r | reflexivity]. }
  split; simpl join_keys.
  - exact H.
  - change (":" +:+ key +:+ join_keys rest false) with (":" +:+ (key +:+ join_keys rest false)).
    rewrite H. reflexivity.
Qed.

(** X9. [CompositeKeyExtractor] gives the keys of its extractors, in
    their order, joined with colons: nothing for no extractor, the key
    of the extractor for one, and for more the key of the first, a
    colon, and the composite of the rest. *)
Theorem CompositeKeyExtractor_joins (extractors : list (Request -> string)) (r : Request) :
  CompositeKeyExtractor extractors r = Join (map (fun extractor => extractor r) extractors) ":"
  /\ CompositeKeyExtractor [] r = ""
  /\ (forall e, CompositeKeyExtractor [e] r = e r)
  /\ (forall e rest, rest <> [] ->
        CompositeKeyExtractor (e :: rest) r = e r +:+ ":" +:+ CompositeKeyExtractor rest r).
Proof.
  unfold CompositeKeyExtractor. split; [apply join_keys_Join |].
  split; [reflexivity |]. split.
  - intros e. simpl. apply StringFacts.append_nil_r.
  - intros e rest Hrest. rewrite !(proj1 (join_keys_Join _)).
    destruct rest as [| e' rest]; [contradiction | reflexivity].
Qed.

Lemma before_comma_free (s : string) : free_of "," s -> before_comma s = s.
Proof.
  induction s as [| c s IH]; intros H; [reflexivity |].
  apply free_of_cons in H as [Hc Hs]. simpl. rewrite Hc, (IH Hs). reflexivity.
Qed.

(** X10. The keys of [APIKeyExtractor] for API keys and for addresses
    are not kept apart. A request with the API key [key] gets
    [apikey:key]; so does a request without an API key whose
    [X-Forwarded-For] header is the text [apikey:key], from any peer
    address: the fallback returns that header as it is. *)
Theorem APIKeyExtractor_key_can_be_forged (headerName key : string) (h : Header)
    (addr1 addr2 : string) :
  key <> "" -> free_of "," key ->
  CanonicalMIMEHeaderKey headerName <> "X-Forwarded-For" ->
  let keyed := request_with (Header_Set h headerName key) addr1 in
  let forged :=
    request_with (Header_Set (Header_Del h headerName) "X-Forwarded-For" ("apikey:" +:+ key))
                 addr2 in
  APIKeyExtractor headerName keyed = "apikey:" +:+ key
  /\ APIKeyExtractor headerName forged = "apikey:" +:+ key.
Proof.
  intros Hkey Hfree Hname keyed forged. split.
  - unfold APIKeyExtractor, keyed, request_with. cbn [Req_Header].
    unfold Header_Get, Header_Set. rewrite lookup_insert_eq.
    apply String.eqb_neq in Hkey. rewrite Hkey. reflexivity.
  - unfold APIKeyExtractor, forged, request_with. cbn [Req_Header].
    assert (Hnone : Header_Get (Header_Set (Header_Del h headerName) "X-Forwarded-For"
                                 ("apikey:" +:+ key)) headerName = "").
    { unfold Header_Get, Header_Set, Header_Del.
      rewrite lookup_insert_ne by (intros E; apply Hname; symmetry; exact E).
      rewrite lookup_delete_eq. reflexivity. }
    rewrite Hnone. cbn iota. change (String.eqb "" "") with true. cbn iota.
    unfold IPKeyExtractor. cbn [Req_Header].
    assert (Hxff : Header_Get (Header_Set (Header_Del h headerName) "X-Forwarded-For"
                                ("apikey:" +:+ key)) "X-Forwarded-For" = "apikey:" +:+ key).
    { unfold Header_Get, Header_Set. rewrite lookup_insert_eq. reflexivity. }
    cbv zeta. rewrite Hxff.
    change (String.eqb ("apikey:" +:+ key) "") with false. cbn [negb].
    apply before_comma_free.
    repeat (apply free_of_cons; split; [reflexivity |]). exact Hfree.
Qed.

Lemma APIKeyExtractor_key_can_be_forged_witness :
  APIKeyExtractor "X-API-Key" (request_with (Header_Set ∅ "X-API-Key" "s3cret") "10.0.0.1:80")
  = "apikey:s3cret"
  /\ APIKeyExtractor "X-API-Key"
       (request_with (Header_Set (Header_Del ∅ "X-API-Key") "X-Forwarded-For" "apikey:s3cret")
                     "203.0.113.9:4711")
     = "apikey:s3cret".
Proof.
  apply (APIKeyExtractor_key_can_be_forged "X-API-Key" "s3cret" ∅
           "10.0.0.1:80" "203.0.113.9:4711").
  - discriminate.
  - reflexivity.
  - vm_compute. discriminate.
Defined.

Lemma IndexByte_app s c rest :
  free_of c s -> IndexByte (s +:+ String c rest) c = Some (String.length s).
Proof.
  induction s as [| a s IH]; intros H.
  - simpl. rewrite Ascii.eqb_refl. reflexivity.
  - apply free_of_cons in H as [Ha Hs].
    change (IndexByte (String a (s +:+ String c rest)) c = Some (S (String.length s))).
    simpl. rewrite Ha, (IH Hs). reflexivity.
Qed.

Lemma has_byte_app s c rest : has_byte (s +:+ String c rest) c = true.
Proof.
  unfold has_byte. induction s as [| a s IH].
  - simpl. rewrite Ascii.eqb_refl. reflexivity.
  - change (match IndexByte (String a (s +:+ String c rest)) c with
            | Some _ => true | None => false end = true).
    simpl. destruct (Ascii.eqb a c); [reflexivity |].
    destruct (IndexByte (s +:+ String c rest) c); [reflexivity | discriminate].
Qed.

(** A bracketed peer address [[host]:port] splits into the host without
    the brackets and the port. *)
Lemma SplitHostPort_bracketed host port :
  free_of "[" host -> free_of "]" host ->
  free_of ":" port -> free_of "[" port -> free_of "]" port ->
  SplitHostPort (String "[" (host +:+ String "]" (String ":" port))) = Some (host, port).
Proof.
  intros Hl Hr Hpc Hpl Hpr.
  remember (String "[" (host +:+ String "]" (String ":" port))) as addr eqn:Eaddr.
  unfold SplitHostPort.
  assert (Eapp : addr = (String "[" (host +:+ "]")) +:+ String ":" port).
  { rewrite Eaddr. change (String "[" (host +:+ String "]" (String ":" port))
                           = String "[" ((host +:+ "]") +:+ String ":" port)).
    rewrite StringFacts.append_assoc. reflexivity. }
  assert (Hlast : LastIndexByte addr ":" = Some (S (S (String.length host)))).
  { rewrite Eapp, (LastIndexByte_app _ port ":" Hpc). simpl.
    rewrite StringFacts.length_append. simpl. f_equal. lia. }
  assert (Hfirst : match addr with
                   | String c _ => Ascii.eqb c "["
                   | EmptyString => false
                   end = true) by (rewrite Eaddr; reflexivity).
  assert (Hend : IndexByte addr "]" = Some (S (String.length host))).
  { rewrite Eaddr. simpl. rewrite (IndexByte_app host "]" (String ":" port) Hr). reflexivity. }
  assert (Hlen : Nat.eqb (S (S (String.length host))) (String.length addr) = false).
  { apply Nat.eqb_neq. rewrite Eaddr. simpl. rewrite StringFacts.length_append. simpl. lia. }
  assert (Hhost : slice 1 (S (String.length host)) addr = host).
  { unfold slice. rewrite Eaddr. simpl. rewrite Nat.sub_0_r. apply substring_prefix. }
  assert (Hj : slice_from 1 addr = host +:+ String "]" (String ":" port))
    by (rewrite Eaddr; reflexivity).
  assert (Hk : slice_from (S (S (String.length host))) addr = String ":" port).
  { rewrite Eaddr. simpl. apply slice_from_app. }
  assert (Hi : slice_from (S (S (S (String.length host)))) addr = port).
  { rewrite Eapp.
    replace (S (S (String.length host))) with (String.length (String "[" (host +:+ "]")))
      by (simpl; rewrite StringFacts.length_append; simpl; lia).
    apply slice_from_app. }
  rewrite Hlast. cbv zeta. rewrite Hfirst, Hend, Hlen, Nat.eqb_refl, Hhost, Hj, Hk, Hi.
  rewrite (has_byte_free _ "[").
  2:{ apply free_of_app; [exact Hl |]. repeat (apply free_of_cons; split; [reflexivity |]).
      exact Hpl. }
  rewrite (has_byte_free _ "]").
  2:{ apply free_of_cons; split; [reflexivity | exact Hpr]. }
  reflexivity.
Qed.

(** An address that does not begin with a bracket and holds a colon
    before its last colon does not split. *)
Lemma SplitHostPort_many_colons front back rest :
  (forall tail, front <> String "[" tail) -> free_of ":" rest ->
  SplitHostPort ((front +:+ String ":" back) +:+ String ":" rest) = None.
Proof.
  intros Hfront Hrest. unfold SplitHostPort.
  rewrite (LastIndexByte_app _ rest ":" Hrest). cbv zeta.
  assert (Hfirst : match (front +:+ String ":" back) +:+ String ":" rest with
                   | String c _ => Ascii.eqb c "["
                   | EmptyString => false
                   end = false).
  { destruct front as [| a front]; [reflexivity |].
    change (Ascii.eqb a "[" = false). apply Ascii.eqb_neq. intros ->.
    apply (Hfront front). reflexivity. }
  rewrite Hfirst. unfold slice. rewrite Nat.sub_0_r, substring_prefix.
  rewrite has_byte_app. reflexivity.
Qed.

(** X11. [IPKeyExtractor] on a peer address of IP version 6, when the
    request has neither forwarding header. For [[host]:port] the key is
    the host, without the brackets and the port. An address that does
    not begin with a bracket and has more than one colon, such as an
    address without a port, does not split: the key is the whole
    address. *)
Theorem IPKeyExtractor_IPv6_peer (r : Request) :
  Header_Get (Req_Header r) "X-Forwarded-For" = "" ->
  Header_Get (Req_Header r) "X-Real-IP" = "" ->
  (forall host port,
     RemoteAddr r = String "[" (host +:+ String "]" (String ":" port)) ->
     free_of "[" host -> free_of "]" host ->
     free_of ":" port -> free_of "[" port -> free_of "]" port ->
     IPKeyExtractor r = host)
  /\ (forall front back rest,
        RemoteAddr r = (front +:+ String ":" back) +:+ String ":" rest ->
        (forall tail, front <> String "[" tail) -> free_of ":" rest ->
        IPKeyExtractor r = RemoteAddr r).
Proof.
  intros Hxff Hxri. unfold IPKeyExtractor. cbv zeta. rewrite Hxff, Hxri.
  change (negb (String.eqb "" "")) with false. cbn iota. split.
  - intros host port -> Hl Hr Hpc Hpl Hpr.
    rewrite (SplitHostPort_bracketed host port Hl Hr Hpc Hpl Hpr). reflexivity.
  - intros front back rest E Hfront Hrest. rewrite E at 1.
    rewrite (SplitHostPort_many_colons front back rest Hfront Hrest). reflexivity.
Qed.

Lemma IPKeyExtractor_IPv6_peer_witness :
  IPKeyExtractor (request_from "[2001:db8::1]:443" "" "") = "2001:db8::1"
  /\ IPKeyExtractor (request_from "2001:db8::1" "" "") = "2001:db8::1".
Proof.
  destruct (IPKeyExtractor_IPv6_peer (request_from "[2001:db8::1]:443" "" ""))
    as [Hbracket _]; [reflexivity | reflexivity |].
  destruct (IPKeyExtractor_IPv6_peer (request_from "2001:db8::1" "" ""))
    as [_ Hbare]; [reflexivity | reflexivity |].
  split.
  - apply (Hbracket "2001:db8::1" "443"); reflexivity.
  - apply (Hbare "2001" "db8:" "1"); [reflexivity | discriminate | reflexivity].
Defined.

End Extract.

(** ** Binary64 arithmetic

    Facts about the rounding of [SpecFloat], which the kernel's floats
    follow ([FloatAxioms]): enough to bound what the limiter computes. *)

Module Binary64.

(** The value of a finite binary64 of mantissa [m] and exponent [e], in
    units of [2^-1074], the least positive binary64. *)
Definition valZ (m : positive) (e : Z) : Z := Z.pos m * 2 ^ (e + 1074).

(** The exponent of the last place of a number of [e] binary digits. *)
Definition fexp64 (e : Z) : Z := Z.max (e - 53) (-1074).

(** Whether a shift or a division has lost a bit that was set. *)
Definition inexact (mrs : shr_record) : bool := shr_r mrs || shr_s mrs.

Definition loc_inexact (l : location) : bool :=
  match l with loc_Exact => false | loc_Inexact _ => true end.

(** [b] is [a] shifted right by [k] bits, its flags telling whether a
    bit that is set was lost. *)
Definition shifted (k : Z) (a b : shr_record) : Prop :=
  shr_m b = shr_m a / 2 ^ k
  /\ inexact b = inexact a || negb (shr_m a mod 2 ^ k =? 0).

(** The shift that [shr_fexp] makes. *)
Definition fexp_shift (m e : Z) : Z := Z.max (fexp64 (Zdigits2 m + e) - e) 0.

(** Not a NaN and not negative: a zero of either sign, a positive
    finite number or plus infinity. *)
Definition SFnonneg (x : spec_float) : bool :=
  match x with
  | S754_zero _ | S754_finite false _ _ | S754_infinity false => true
  | _ => false
  end.

(** The value of a finite float that is not negative, in units of
    [2^-1074]. *)
Definition SFvalue (x : spec_float) : option Z :=
  match x with
  | S754_zero _ => Some 0
  | S754_finite false m e => Some (valZ m e)
  | _ => None
  end.

(** The same for the machine's [float]. *)
Definition value (x : float) : option Z := SFvalue (Prim2SF x).

Definition nonneg (x : float) : Prop := SFnonneg (Prim2SF x) = true.

(** The mantissa of a power of two. *)
Definition m52 : positive := 4503599627370496.

(** The unit of [valZ]: the value of 1. *)
Definition one_value : Z := 2 ^ 1074.

(** A value that a positive finite binary64 has. *)
Definition representable (v : Z) : Prop :=
  exists m e, valid_binary (S754_finite false m e) = true /\ valZ m e = v.

(** [x] is plus infinity, or a finite number that is at least [v]. *)
Definition SFabove (v : Z) (x : spec_float) : Prop :=
  x = S754_infinity false \/ exists vx, SFvalue x = Some vx /\ v <= vx.

Definition above (v : Z) (x : float) : Prop := SFabove v (Prim2SF x).

Lemma fexp64_eq e : fexp prec emax e = fexp64 e.
Proof. reflexivity. Qed.

Lemma digits2_bounds (m : positive) :
  2 ^ (Z.pos (digits2_pos m) - 1) <= Z.pos m < 2 ^ Z.pos (digits2_pos m).
Proof.
  induction m as [p IH | p IH |]; simpl digits2_pos.
  - rewrite Pos2Z.inj_succ.
    replace (Z.succ (Z.pos (digits2_pos p)) - 1) with (Z.succ (Z.pos (digits2_pos p) - 1)) by lia.
    rewrite !Z.pow_succ_r by lia. lia.
  - rewrite Pos2Z.inj_succ.
    replace (Z.succ (Z.pos (digits2_pos p)) - 1) with (Z.succ (Z.pos (digits2_pos p) - 1)) by lia.
    rewrite !Z.pow_succ_r by lia. lia.
  - simpl. lia.
Qed.

Lemma pow2_pos n : 0 < 2 ^ n \/ n < 0.
Proof. destruct (Z_lt_le_dec n 0); [right; lia | left; apply Z.pow_pos_nonneg; lia]. Qed.

(** More digits, larger number. *)
Lemma digits2_le (m1 m2 : positive) :
  Z.pos m1 <= Z.pos m2 -> Z.pos (digits2_pos m1) <= Z.pos (digits2_pos m2).
Proof.
  intros Hle. pose proof (digits2_bounds m1) as [H1 _].
  pose proof (digits2_bounds m2) as [_ H2].
  destruct (Z_lt_le_dec (Z.pos (digits2_pos m2)) (Z.pos (digits2_pos m1))) as [Hlt |]; [| lia].
  exfalso.
  assert (2 ^ Z.pos (digits2_pos m2) <= 2 ^ (Z.pos (digits2_pos m1) - 1))
    by (apply Z.pow_le_mono_r; lia).
  lia.
Qed.

Lemma valid_finite_inv s m e :
  valid_binary (S754_finite s m e) = true ->
  -1074 <= e <= 971 /\ Z.pos (digits2_pos m) <= 53
  /\ (-1074 < e -> Z.pos (digits2_pos m) = 53).
Proof.
  unfold valid_binary, bounded, canonical_mantissa. rewrite fexp64_eq. unfold fexp64.
  intros H. apply andb_true_iff in H as [Hc He].
  apply Z.eqb_eq in Hc. apply Z.leb_le in He.
  change (emax - prec) with 971 in He. lia.
Qed.

Lemma valid_finite_bounds s m e :
  valid_binary (S754_finite s m e) = true ->
  -1074 <= e <= 971 /\ Z.pos m < 2 ^ 53 /\ (-1074 < e -> 2 ^ 52 <= Z.pos m).
Proof.
  intros H. apply valid_finite_inv in H as (He & Hd & Hn).
  pose proof (digits2_bounds m) as [Hlo Hhi].
  split; [exact He |]. split.
  - assert (2 ^ Z.pos (digits2_pos m) <= 2 ^ 53) by (apply Z.pow_le_mono_r; lia). lia.
  - intros Hgt. rewrite (Hn Hgt) in Hlo. exact Hlo.
Qed.

Lemma valZ_pos m e : -1074 <= e -> 0 < valZ m e.
Proof.
  intros He. unfold valZ.
  assert (0 < 2 ^ (e + 1074)) by (apply Z.pow_pos_nonneg; lia). lia.
Qed.

(** On valid floats the comparison of [SpecFloat] is that of the values. *)
Lemma SFcompare_valZ m1 e1 m2 e2 :
  valid_binary (S754_finite false m1 e1) = true ->
  valid_binary (S754_finite false m2 e2) = true ->
  SFcompare (S754_finite false m1 e1) (S754_finite false m2 e2)
  = Some (valZ m1 e1 ?= valZ m2 e2).
Proof.
  intros H1 H2.
  apply valid_finite_bounds in H1 as (He1 & Hm1 & Hn1).
  apply valid_finite_bounds in H2 as (He2 & Hm2 & Hn2).
  simpl. f_equal. unfold valZ.
  destruct (Z.compare_spec e1 e2) as [-> | Hlt | Hgt].
  - rewrite Pos.compare_cont_spec. simpl.
    assert (0 < 2 ^ (e2 + 1074)) by (apply Z.pow_pos_nonneg; lia).
    destruct (Pos.compare_spec m1 m2) as [-> | Hl | Hg]; symmetry.
    + apply Z.compare_refl.
    + apply Z.compare_lt_iff. apply Z.mul_lt_mono_pos_r; [assumption | lia].
    + apply Z.compare_gt_iff. apply Z.mul_lt_mono_pos_r; [assumption | lia].
  - symmetry. apply Z.compare_lt_iff.
    replace (e2 + 1074) with ((e1 + 1074) + (e2 - e1)) by lia.
    rewrite (Z.pow_add_r 2 (e1 + 1074) (e2 - e1)) by lia.
    assert (HP : 0 < 2 ^ (e1 + 1074)) by (apply Z.pow_pos_nonneg; lia).
    assert (HQ : 2 ^ 1 <= 2 ^ (e2 - e1)) by (apply Z.pow_le_mono_r; lia).
    specialize (Hn2 ltac:(lia)).
    change (2 ^ 53) with (2 ^ 52 * 2 ^ 1) in Hm1.
    apply Z.lt_le_trans with (2 ^ 52 * 2 ^ 1 * 2 ^ (e1 + 1074));
      [apply Z.mul_lt_mono_pos_r; assumption |].
    rewrite (Z.mul_comm (2 ^ (e1 + 1074))), Z.mul_assoc.
    apply Z.mul_le_mono_nonneg_r; [lia |].
    apply Z.mul_le_mono_nonneg; lia.
  - symmetry. apply Z.compare_gt_iff.
    replace (e1 + 1074) with ((e2 + 1074) + (e1 - e2)) by lia.
    rewrite (Z.pow_add_r 2 (e2 + 1074) (e1 - e2)) by lia.
    assert (HP : 0 < 2 ^ (e2 + 1074)) by (apply Z.pow_pos_nonneg; lia).
    assert (HQ : 2 ^ 1 <= 2 ^ (e1 - e2)) by (apply Z.pow_le_mono_r; lia).
    specialize (Hn1 ltac:(lia)).
    change (2 ^ 53) with (2 ^ 52 * 2 ^ 1) in Hm2.
    apply Z.lt_le_trans with (2 ^ 52 * 2 ^ 1 * 2 ^ (e2 + 1074));
      [apply Z.mul_lt_mono_pos_r; assumption |].
    rewrite (Z.mul_comm (2 ^ (e2 + 1074))), Z.mul_assoc.
    apply Z.mul_le_mono_nonneg_r; [lia |].
    apply Z.mul_le_mono_nonneg; lia.
Qed.


(** *** Shifting a mantissa to the right *)

Lemma shifted_shr_1 a : 0 <= shr_m a -> shifted 1 a (shr_1 a).
Proof.
  destruct a as [m r s]. unfold shifted, inexact. simpl shr_m. intros Hm.
  change (2 ^ 1) with 2. rewrite <- Z.div2_div.
  destruct m as [| p | p]; [| | lia].
  - simpl. split; [reflexivity | destruct r, s; reflexivity].
  - destruct p as [p | p |]; simpl shr_1; simpl shr_m; simpl shr_r; simpl shr_s.
    + split; [reflexivity |]. rewrite Pos2Z.inj_xI.
      replace ((2 * Z.pos p + 1) mod 2) with 1
        by (symmetry; rewrite Z.add_comm, Z.mul_comm, Z.mod_add by lia; reflexivity).
      destruct r, s; reflexivity.
    + split; [reflexivity |]. rewrite Pos2Z.inj_xO.
      replace ((2 * Z.pos p) mod 2) with 0
        by (symmetry; rewrite Z.mul_comm; apply Z.mod_mul; lia).
      destruct r, s; reflexivity.
    + split; [reflexivity |]. destruct r, s; reflexivity.
Qed.

Lemma shifted_nonneg k a b : 0 <= k -> 0 <= shr_m a -> shifted k a b -> 0 <= shr_m b.
Proof.
  intros Hk Ha [Hm _]. rewrite Hm. apply Z.div_pos; [exact Ha |].
  apply Z.pow_pos_nonneg; lia.
Qed.

Lemma mod_pow2_add m k1 k2 :
  0 <= m -> 0 <= k1 -> 0 <= k2 ->
  (m mod 2 ^ (k1 + k2) =? 0)
  = (m mod 2 ^ k1 =? 0) && ((m / 2 ^ k1) mod 2 ^ k2 =? 0).
Proof.
  intros Hm Hk1 Hk2.
  assert (H1 : 0 < 2 ^ k1) by (apply Z.pow_pos_nonneg; lia).
  assert (H2 : 0 < 2 ^ k2) by (apply Z.pow_pos_nonneg; lia).
  rewrite Z.pow_add_r by assumption.
  rewrite Z.rem_mul_r by lia.
  pose proof (Z.mod_pos_bound m (2 ^ k1) H1) as Hb1.
  pose proof (Z.mod_pos_bound (m / 2 ^ k1) (2 ^ k2) H2) as Hb2.
  destruct (Z.eqb_spec (m mod 2 ^ k1) 0) as [E1 | N1];
    destruct (Z.eqb_spec ((m / 2 ^ k1) mod 2 ^ k2) 0) as [E2 | N2]; simpl.
  - rewrite E1, E2. apply Z.eqb_eq. lia.
  - apply Z.eqb_neq. rewrite E1. nia.
  - apply Z.eqb_neq. rewrite E2. lia.
  - apply Z.eqb_neq. nia.
Qed.

Lemma shifted_trans k1 k2 a b c :
  0 <= k1 -> 0 <= k2 -> 0 <= shr_m a ->
  shifted k1 a b -> shifted k2 b c -> shifted (k1 + k2) a c.
Proof.
  intros Hk1 Hk2 Ha [Hm1 Hi1] [Hm2 Hi2]. split.
  - rewrite Hm2, Hm1, Z.pow_add_r by assumption.
    apply Zdiv_Zdiv; apply Z.pow_nonneg; lia.
  - rewrite Hi2, Hi1, Hm1, (mod_pow2_add _ k1 k2) by assumption.
    rewrite negb_andb, orb_assoc. reflexivity.
Qed.

Lemma shifted_iter_pos (p : positive) : forall a,
  0 <= shr_m a -> shifted (Z.pos p) a (SpecFloat.iter_pos shr_1 p a).
Proof.
  induction p as [p IH | p IH |]; intros a Ha; simpl SpecFloat.iter_pos.
  - pose proof (shifted_shr_1 a Ha) as S1.
    pose proof (shifted_nonneg 1 _ _ ltac:(lia) Ha S1) as H1.
    pose proof (IH _ H1) as S2.
    pose proof (shifted_nonneg (Z.pos p) _ _ ltac:(lia) H1 S2) as H2.
    pose proof (IH _ H2) as S3.
    replace (Z.pos p~1) with (1 + Z.pos p + Z.pos p) by lia.
    eapply (shifted_trans (1 + Z.pos p) (Z.pos p)); [lia | lia | exact Ha | | exact S3].
    eapply (shifted_trans 1 (Z.pos p)); [lia | lia | exact Ha | exact S1 | exact S2].
  - pose proof (IH _ Ha) as S2.
    pose proof (shifted_nonneg (Z.pos p) _ _ ltac:(lia) Ha S2) as H2.
    pose proof (IH _ H2) as S3.
    replace (Z.pos p~0) with (Z.pos p + Z.pos p) by lia.
    eapply (shifted_trans (Z.pos p) (Z.pos p)); [lia | lia | exact Ha | exact S2 | exact S3].
  - apply shifted_shr_1, Ha.
Qed.

Lemma shifted_0 a : shifted 0 a a.
Proof.
  split.
  - change (2 ^ 0) with 1. rewrite Z.div_1_r. reflexivity.
  - change (2 ^ 0) with 1. rewrite Z.mod_1_r. simpl. rewrite orb_false_r. reflexivity.
Qed.

Lemma shr_spec mrs e n :
  0 <= shr_m mrs ->
  snd (shr mrs e n) = e + Z.max n 0 /\ shifted (Z.max n 0) mrs (fst (shr mrs e n)).
Proof.
  intros Hm. destruct n as [| p | p]; simpl.
  - split; [lia | apply shifted_0].
  - split; [lia | apply shifted_iter_pos, Hm].
  - split; [lia | apply shifted_0].
Qed.

Lemma shr_record_of_loc_spec m l :
  shr_m (shr_record_of_loc m l) = m /\ inexact (shr_record_of_loc m l) = loc_inexact l.
Proof. destruct l as [| []]; split; reflexivity. Qed.

Lemma shr_fexp_spec m e l :
  0 <= m ->
  let r := shr_fexp prec emax m e l in
  snd r = e + fexp_shift m e
  /\ shr_m (fst r) = m / 2 ^ fexp_shift m e
  /\ inexact (fst r) = loc_inexact l || negb (m mod 2 ^ fexp_shift m e =? 0).
Proof.
  intros Hm r. unfold r, shr_fexp. rewrite fexp64_eq.
  pose proof (shr_record_of_loc_spec m l) as [Hrm Hri].
  destruct (shr_spec (shr_record_of_loc m l) e (fexp64 (Zdigits2 m + e) - e))
    as [He [Hs1 Hs2]]; [rewrite Hrm; exact Hm |].
  rewrite Hrm in Hs1, Hs2. rewrite Hri in Hs2. auto.
Qed.

Lemma round_nearest_even_spec mrs :
  let m := round_nearest_even (shr_m mrs) (loc_of_shr_record mrs) in
  shr_m mrs <= m <= shr_m mrs + 1 /\ (inexact mrs = false -> m = shr_m mrs).
Proof.
  destruct mrs as [m [] []]; unfold inexact; simpl.
  - split; [lia | discriminate].
  - destruct (Z.even m); split; try lia; discriminate.
  - split; [lia | discriminate].
  - split; [lia | reflexivity].
Qed.

(** [binary_round_aux], its two shifts and its rounding laid out. *)
Lemma binary_round_aux_spec sx mx ex lx :
  0 <= mx ->
  exists m1 : Z,
    let n1 := fexp_shift mx ex in
    let n2 := fexp_shift m1 (ex + n1) in
    mx / 2 ^ n1 <= m1 <= mx / 2 ^ n1 + 1
    /\ (loc_inexact lx = false -> mx mod 2 ^ n1 = 0 -> m1 = mx / 2 ^ n1)
    /\ binary_round_aux prec emax sx mx ex lx
       = match m1 / 2 ^ n2 with
         | Z0 => S754_zero sx
         | Zpos m => if ex + n1 + n2 <=? 971 then S754_finite sx m (ex + n1 + n2)
                     else S754_infinity sx
         | Zneg _ => S754_nan
         end.
Proof.
  intros Hm. unfold binary_round_aux.
  pose proof (shr_fexp_spec mx ex lx Hm) as H1. cbv zeta in H1.
  destruct (shr_fexp prec emax mx ex lx) as [mrs' e'] eqn:E1.
  simpl fst in H1; simpl snd in H1. destruct H1 as (He' & Hm' & Hi').
  pose proof (round_nearest_even_spec mrs') as Hr. cbv zeta in Hr.
  set (m1 := round_nearest_even (shr_m mrs') (loc_of_shr_record mrs')) in *.
  destruct Hr as [Hr1 Hr2].
  assert (Hm1 : 0 <= m1).
  { rewrite Hm' in Hr1. assert (0 <= mx / 2 ^ fexp_shift mx ex); [| lia].
    apply Z.div_pos; [exact Hm |]. apply Z.pow_pos_nonneg; unfold fexp_shift; lia. }
  pose proof (shr_fexp_spec m1 e' loc_Exact Hm1) as H2. cbv zeta in H2.
  destruct (shr_fexp prec emax m1 e' loc_Exact) as [mrs'' e''] eqn:E2.
  simpl fst in H2; simpl snd in H2. destruct H2 as (He'' & Hm'' & _).
  exists m1. cbv zeta. split; [rewrite <- Hm'; exact Hr1 |]. split.
  - intros Hl Hmod. rewrite <- Hm'. apply Hr2. rewrite Hi', Hl, Hmod. reflexivity.
  - rewrite Hm'', He'', He'. change (emax - prec) with 971. reflexivity.
Qed.


(** *** Bounds on what [binary_round_aux] returns *)

Lemma Zdigits2_bounds m :
  0 < m -> 2 ^ (Zdigits2 m - 1) <= m < 2 ^ Zdigits2 m.
Proof. destruct m as [| p | p]; try lia. intros _. apply digits2_bounds. Qed.

Lemma Zdigits2_pos m : 0 < m -> 1 <= Zdigits2 m.
Proof. destruct m as [| p | p]; simpl; lia. Qed.

Lemma pow2_lt_inv a b : 2 ^ a < 2 ^ b -> 0 <= b -> a < b.
Proof.
  intros H Hb. destruct (Z_lt_le_dec a b) as [| Hge]; [assumption |].
  assert (2 ^ b <= 2 ^ a) by (apply Z.pow_le_mono_r; lia). lia.
Qed.

(** From an order of scaled mantissas to an order of their magnitudes. *)
Lemma scaled_le_digits m1 a m2 c :
  0 < m1 -> 0 < m2 -> 0 <= a -> 0 <= c ->
  m1 * 2 ^ a <= m2 * 2 ^ c -> Zdigits2 m1 + a <= Zdigits2 m2 + c.
Proof.
  intros H1 H2 Ha Hc Hle.
  pose proof (Zdigits2_bounds m1 H1) as [Hlo _].
  pose proof (Zdigits2_bounds m2 H2) as [_ Hhi].
  pose proof (Zdigits2_pos m1 H1). pose proof (Zdigits2_pos m2 H2).
  assert (Hpa : 0 < 2 ^ a) by (apply Z.pow_pos_nonneg; lia).
  assert (Hpc : 0 < 2 ^ c) by (apply Z.pow_pos_nonneg; lia).
  assert (Hlt : 2 ^ (Zdigits2 m1 - 1 + a) < 2 ^ (Zdigits2 m2 + c)).
  { rewrite !Z.pow_add_r by lia.
    apply Z.le_lt_trans with (m1 * 2 ^ a); [apply Z.mul_le_mono_nonneg_r; lia |].
    apply Z.le_lt_trans with (m2 * 2 ^ c); [exact Hle |].
    apply Z.mul_lt_mono_pos_r; lia. }
  apply pow2_lt_inv in Hlt; lia.
Qed.

Lemma fexp64_mono a b : a <= b -> fexp64 a <= fexp64 b.
Proof. unfold fexp64. lia. Qed.

Lemma valid_canonical s m e :
  valid_binary (S754_finite s m e) = true ->
  fexp64 (Z.pos (digits2_pos m) + e) = e /\ -1074 <= e <= 971.
Proof.
  intros H. apply valid_finite_inv in H as (He & Hd & Hn). unfold fexp64. lia.
Qed.

Lemma pow2_cancel x y k : 0 <= k -> x * 2 ^ k <= y * 2 ^ k -> x <= y.
Proof.
  intros Hk H. assert (0 < 2 ^ k) by (apply Z.pow_pos_nonneg; lia).
  apply Z.mul_le_mono_pos_r in H; assumption.
Qed.

(** The grid of a float that is at least [mx * 2^ex] is no finer than
    the grid [binary_round_aux] rounds to. *)
Lemma grid_below mx ex mF eF b :
  0 < mx -> valid_binary (S754_finite false mF eF) = true ->
  b <= ex -> b <= eF ->
  mx * 2 ^ (ex - b) <= Z.pos mF * 2 ^ (eF - b) ->
  fexp64 (Zdigits2 mx + ex) <= eF.
Proof.
  intros Hm HF Hb1 Hb2 Hle. apply valid_canonical in HF as [Hc _].
  rewrite <- Hc. apply fexp64_mono.
  pose proof (scaled_le_digits mx (ex - b) (Z.pos mF) (eF - b)
                Hm ltac:(lia) ltac:(lia) ltac:(lia) Hle) as H.
  simpl Zdigits2 in H. lia.
Qed.

Lemma bra_upper mx ex lx mF eF b :
  0 <= mx -> valid_binary (S754_finite false mF eF) = true ->
  b <= ex -> ex <= eF ->
  (mx + (if loc_inexact lx then 1 else 0)) * 2 ^ (ex - b) <= Z.pos mF * 2 ^ (eF - b) ->
  let R := binary_round_aux prec emax false mx ex lx in
  R = S754_zero false
  \/ exists m e, R = S754_finite false m e /\ b <= e
       /\ Z.pos m * 2 ^ (e - b) <= Z.pos mF * 2 ^ (eF - b).
Proof.
  intros Hm HF Hb Hex Hle R.
  destruct (binary_round_aux_spec false mx ex lx ltac:(lia)) as (m1 & Hm1 & Hexact & HR).
  cbv zeta in Hm1, Hexact, HR. fold R in HR.
  set (n1 := fexp_shift mx ex) in *.
  set (n2 := fexp_shift m1 (ex + n1)) in *.
  assert (Hn1 : 0 <= n1) by (unfold n1, fexp_shift; lia).
  assert (Hn2 : 0 <= n2) by (unfold n2, fexp_shift; lia).
  assert (Hp : 0 < 2 ^ (ex - b)) by (apply Z.pow_pos_nonneg; lia).
  assert (Hle0 : mx * 2 ^ (ex - b) <= Z.pos mF * 2 ^ (eF - b)).
  { destruct (loc_inexact lx); nia. }
  assert (He1 : ex + n1 <= eF).
  { destruct (Z.eq_dec mx 0) as [E0 | N0].
    - unfold n1, fexp_shift. rewrite E0. simpl Zdigits2.
      apply valid_canonical in HF as [_ HeF]. unfold fexp64. lia.
    - pose proof (grid_below mx ex mF eF b ltac:(lia) HF Hb ltac:(lia) Hle0).
      unfold n1, fexp_shift. lia. }
  set (T := Z.pos mF * 2 ^ (eF - (ex + n1))).
  assert (HT : Z.pos mF * 2 ^ (eF - b) = T * 2 ^ n1 * 2 ^ (ex - b)).
  { unfold T. rewrite <- !Z.mul_assoc, <- !Z.pow_add_r by lia. do 2 f_equal. lia. }
  rewrite HT in Hle. apply pow2_cancel in Hle; [| lia].
  assert (Hpn1 : 0 < 2 ^ n1) by (apply Z.pow_pos_nonneg; lia).
  assert (Hm1T : m1 <= T).
  { destruct (loc_inexact lx) eqn:El.
    - assert (mx / 2 ^ n1 < T) by (apply Z.div_lt_upper_bound; lia). lia.
    - destruct (Z.eq_dec (mx mod 2 ^ n1) 0) as [E | N].
      + rewrite (Hexact eq_refl E). apply Z.div_le_upper_bound; lia.
      + assert (mx <> T * 2 ^ n1).
        { intros E'. apply N. rewrite E'. apply Z.mod_mul. lia. }
        assert (mx / 2 ^ n1 < T) by (apply Z.div_lt_upper_bound; lia). lia. }
  assert (Hpn2 : 0 < 2 ^ n2) by (apply Z.pow_pos_nonneg; lia).
  destruct (m1 / 2 ^ n2) as [| m2 | m2] eqn:Em2.
  - left. exact HR.
  - right. assert (Hm1pos : 0 < m1).
    { destruct (Z_lt_le_dec 0 m1) as [| Hle1]; [assumption |].
      assert (m1 / 2 ^ n2 <= 0) by (apply Z.div_le_upper_bound; lia). lia. }
    assert (He2 : ex + n1 + n2 <= eF).
    { assert (Hg : fexp64 (Zdigits2 m1 + (ex + n1)) <= eF).
      { apply (grid_below m1 (ex + n1) mF eF (ex + n1) Hm1pos HF); [lia | lia |].
        rewrite Z.sub_diag, Z.mul_1_r. exact Hm1T. }
      unfold n2, fexp_shift. lia. }
    apply valid_canonical in HF as [_ HeF].
    assert (Hfin : (ex + n1 + n2 <=? 971) = true) by (apply Z.leb_le; lia).
    rewrite Hfin in HR. exists m2, (ex + n1 + n2). split; [exact HR |].
    split; [lia |]. rewrite HT.
    replace (ex + n1 + n2 - b) with (n2 + n1 + (ex - b)) by lia.
    rewrite !Z.pow_add_r by lia. rewrite !Z.mul_assoc.
    apply Z.mul_le_mono_nonneg_r; [lia |].
    apply Z.mul_le_mono_nonneg_r; [lia |].
    assert (Z.pos m2 * 2 ^ n2 <= m1); [| lia].
    rewrite <- Em2, Z.mul_comm. apply Z.mul_div_le. lia.
  - exfalso. assert (0 <= m1 / 2 ^ n2); [| lia].
    apply Z.div_pos; [| lia].
    assert (0 <= mx / 2 ^ n1) by (apply Z.div_pos; lia). lia.
Qed.

(** Dropping the bits below the grid of a number leaves it at least
    any float that it was at least. *)
Lemma floor_grid m e mF eF b :
  0 < m -> valid_binary (S754_finite false mF eF) = true ->
  b <= e -> b <= eF ->
  Z.pos mF * 2 ^ (eF - b) <= m * 2 ^ (e - b) ->
  Z.pos mF * 2 ^ (eF - b) <= m / 2 ^ fexp_shift m e * 2 ^ (e + fexp_shift m e - b).
Proof.
  intros Hm HF Hb1 Hb2 Hle.
  set (n := fexp_shift m e).
  assert (Hn : 0 <= n) by (unfold n, fexp_shift; lia).
  destruct (Z.eq_dec n 0) as [E | N].
  - rewrite E. change (2 ^ 0) with 1. rewrite Z.div_1_r, Z.add_0_r. exact Hle.
  - assert (Hf : fexp64 (Zdigits2 m + e) = e + n) by (unfold n, fexp_shift in *; lia).
    assert (Hpn : 0 < 2 ^ n) by (apply Z.pow_pos_nonneg; lia).
    assert (Hpe : 0 < 2 ^ (e - b)) by (apply Z.pow_pos_nonneg; lia).
    replace (e + n - b) with (n + (e - b)) by lia. rewrite Z.pow_add_r by lia.
    destruct (Z_lt_le_dec eF (e + n)) as [Hlt | Hge].
    + pose proof (valid_finite_bounds _ _ _ HF) as (HeF & HmF & _).
      assert (Hd : Zdigits2 m = n + 53) by (unfold fexp64 in Hf; lia).
      pose proof (Zdigits2_bounds m Hm) as [Hlo _]. rewrite Hd in Hlo.
      replace (n + 53 - 1) with (52 + n) in Hlo by lia.
      rewrite Z.pow_add_r in Hlo by lia.
      assert (Hq : 2 ^ 52 <= m / 2 ^ n) by (apply Z.div_le_lower_bound; lia).
      assert (Hpow : 2 ^ (eF - b) * 2 <= 2 ^ n * 2 ^ (e - b)).
      { rewrite <- Z.pow_add_r by lia.
        replace (2 ^ (eF - b) * 2) with (2 ^ (eF - b + 1))
          by (rewrite Z.pow_add_r by lia; reflexivity).
        apply Z.pow_le_mono_r; lia. }
      assert (0 < 2 ^ (eF - b)) by (apply Z.pow_pos_nonneg; lia).
      change (2 ^ 53) with (2 ^ 52 * 2) in HmF.
      apply Z.le_trans with (2 ^ 52 * (2 ^ n * 2 ^ (e - b))); [nia |].
      apply Z.mul_le_mono_nonneg_r; [nia | exact Hq].
    + rewrite Z.mul_assoc. 
      replace (eF - b) with ((eF - (e + n)) + n + (e - b)) in * by lia.
      rewrite !Z.pow_add_r in * by lia. rewrite !Z.mul_assoc in *.
      apply Z.mul_le_mono_nonneg_r; [lia |].
      apply pow2_cancel in Hle; [| lia].
      assert (Z.pos mF * 2 ^ (eF - (e + n)) <= m / 2 ^ n)
        by (apply Z.div_le_lower_bound; lia).
      nia.
Qed.

Lemma bra_lower mx ex lx mF eF b :
  0 < mx -> valid_binary (S754_finite false mF eF) = true ->
  b <= ex -> b <= eF ->
  Z.pos mF * 2 ^ (eF - b) <= mx * 2 ^ (ex - b) ->
  let R := binary_round_aux prec emax false mx ex lx in
  R = S754_infinity false
  \/ exists m e, R = S754_finite false m e /\ b <= e
       /\ Z.pos mF * 2 ^ (eF - b) <= Z.pos m * 2 ^ (e - b).
Proof.
  intros Hm HF Hb1 Hb2 Hle R.
  destruct (binary_round_aux_spec false mx ex lx ltac:(lia)) as (m1 & Hm1 & _ & HR).
  cbv zeta in Hm1, HR. fold R in HR.
  set (n1 := fexp_shift mx ex) in *.
  set (n2 := fexp_shift m1 (ex + n1)) in *.
  assert (Hn1 : 0 <= n1) by (unfold n1, fexp_shift; lia).
  assert (Hn2 : 0 <= n2) by (unfold n2, fexp_shift; lia).
  pose proof (floor_grid mx ex mF eF b Hm HF Hb1 Hb2 Hle) as H1. fold n1 in H1.
  assert (Hp1 : 0 < 2 ^ (ex + n1 - b)) by (apply Z.pow_pos_nonneg; lia).
  assert (HF1 : Z.pos mF * 2 ^ (eF - b) <= m1 * 2 ^ (ex + n1 - b)) by nia.
  assert (HpF : 0 < 2 ^ (eF - b)) by (apply Z.pow_pos_nonneg; lia).
  assert (Hm1pos : 0 < m1) by nia.
  pose proof (floor_grid m1 (ex + n1) mF eF b Hm1pos HF ltac:(lia) Hb2 HF1) as H2.
  fold n2 in H2.
  assert (Hp2 : 0 < 2 ^ (ex + n1 + n2 - b)) by (apply Z.pow_pos_nonneg; lia).
  destruct (m1 / 2 ^ n2) as [| m2 | m2] eqn:Em2; [nia | | nia].
  destruct (ex + n1 + n2 <=? 971); [right | left; exact HR].
  exists m2, (ex + n1 + n2). split; [exact HR |]. split; [lia | exact H2].
Qed.


(** *** Classes of floats *)

Lemma SFvalue_nonneg x v : SFvalue x = Some v -> SFnonneg x = true.
Proof. destruct x as [s | s | | [] m e]; simpl; try discriminate; auto. Qed.

Lemma SFvalue_ge_0 x v : valid_binary x = true -> SFvalue x = Some v -> 0 <= v.
Proof.
  intros Hv H. destruct x as [s | s | | [] m e]; simpl in H; try discriminate.
  - injection H as <-. lia.
  - injection H as <-.
    apply valid_finite_inv in Hv as (He & _). pose proof (valZ_pos m e). lia.
Qed.

Lemma bra_nonneg mx ex lx :
  0 <= mx -> SFnonneg (binary_round_aux prec emax false mx ex lx) = true.
Proof.
  intros Hm. destruct (binary_round_aux_spec false mx ex lx Hm) as (m1 & Hm1 & _ & HR).
  cbv zeta in Hm1, HR. rewrite HR.
  set (n1 := fexp_shift mx ex) in *. set (n2 := fexp_shift m1 (ex + n1)) in *.
  assert (0 <= m1 / 2 ^ n2).
  { apply Z.div_pos; [| apply Z.pow_pos_nonneg; unfold n2, fexp_shift; lia].
    assert (0 <= mx / 2 ^ n1); [| lia].
    apply Z.div_pos; [exact Hm | apply Z.pow_pos_nonneg; unfold n1, fexp_shift; lia]. }
  destruct (m1 / 2 ^ n2); [reflexivity | | lia].
  destruct (ex + n1 + n2 <=? 971); reflexivity.
Qed.

(** *** [shl_align] and [binary_round] *)

Lemma iter_xO m d : Z.pos (Pos.iter xO m d) = Z.pos m * 2 ^ Z.pos d.
Proof.
  induction d as [| d IH] using Pos.peano_ind.
  - simpl. lia.
  - rewrite Pos.iter_succ, Pos2Z.inj_xO, IH, Pos2Z.inj_succ, Z.pow_succ_r by lia. lia.
Qed.

Lemma shl_align_spec mx ex e0 :
  snd (shl_align mx ex e0) = Z.min ex e0
  /\ Z.pos (fst (shl_align mx ex e0)) = Z.pos mx * 2 ^ (ex - Z.min ex e0).
Proof.
  unfold shl_align. destruct (e0 - ex) as [| d | d] eqn:E; simpl.
  - replace (Z.min ex e0) with ex by lia. rewrite Z.sub_diag. split; lia.
  - replace (Z.min ex e0) with ex by lia. rewrite Z.sub_diag. split; lia.
  - replace (Z.min ex e0) with e0 by lia. split; [reflexivity |].
    rewrite iter_xO. f_equal. f_equal. lia.
Qed.

Lemma binary_round_nonneg p e : SFnonneg (binary_round prec emax false p e) = true.
Proof.
  unfold binary_round. destruct (shl_align p e _) as [mz ez].
  apply bra_nonneg. lia.
Qed.

Lemma valZ_rescale m e b :
  -1074 <= b -> b <= e -> valZ m e = Z.pos m * 2 ^ (e - b) * 2 ^ (b + 1074).
Proof.
  intros Hb He. unfold valZ. rewrite <- Z.mul_assoc, <- Z.pow_add_r by lia.
  do 2 f_equal. lia.
Qed.

Lemma binary_round_upper p e mF eF :
  valid_binary (S754_finite false mF eF) = true -> -1074 <= e ->
  valZ p e <= valZ mF eF ->
  let R := binary_round prec emax false p e in
  R = S754_zero false
  \/ exists m e', R = S754_finite false m e' /\ valZ m e' <= valZ mF eF.
Proof.
  intros HF He Hle R. unfold R, binary_round.
  pose proof (shl_align_spec p e (fexp prec emax (Z.pos (digits2_pos p) + e))) as [Hez Hmz].
  destruct (shl_align p e _) as [mz ez]. cbn [fst snd] in Hez, Hmz.
  rewrite <- Hez in Hmz. rewrite fexp64_eq in Hez.
  pose proof (valid_canonical _ _ _ HF) as [_ HeF].
  assert (Hb : -1074 <= ez) by (unfold fexp64 in Hez; lia).
  assert (Hval : valZ p e = Z.pos mz * 2 ^ (ez + 1074)).
  { unfold valZ. rewrite Hmz, <- Z.mul_assoc, <- Z.pow_add_r by lia.
    do 2 f_equal. lia. }
  assert (HezF : ez <= eF).
  { assert (Hg : fexp64 (Zdigits2 (Z.pos p) + e) <= eF).
    { apply (grid_below (Z.pos p) e mF eF (-1074)); try lia; [exact HF |].
      replace (e - -1074) with (e + 1074) by lia.
      replace (eF - -1074) with (eF + 1074) by lia. exact Hle. }
    simpl Zdigits2 in Hg. lia. }
  destruct (bra_upper (Z.pos mz) ez loc_Exact mF eF (-1074)) as [H0 | (m & e' & HR & He' & Hv)];
    try lia; try assumption.
  - simpl. rewrite Z.add_0_r.
    replace (ez - -1074) with (ez + 1074) by lia.
    replace (eF - -1074) with (eF + 1074) by lia.
    rewrite <- Hval. exact Hle.
  - left. exact H0.
  - right. exists m, e'. split; [exact HR |]. unfold valZ.
    replace (e' + 1074) with (e' - -1074) by lia.
    replace (eF + 1074) with (eF - -1074) by lia. exact Hv.
Qed.

Lemma binary_round_lower p e mF eF :
  valid_binary (S754_finite false mF eF) = true -> -1074 <= e ->
  valZ mF eF <= valZ p e ->
  let R := binary_round prec emax false p e in
  R = S754_infinity false
  \/ exists m e', R = S754_finite false m e' /\ valZ mF eF <= valZ m e'.
Proof.
  intros HF He Hle R. unfold R, binary_round.
  pose proof (shl_align_spec p e (fexp prec emax (Z.pos (digits2_pos p) + e))) as [Hez Hmz].
  destruct (shl_align p e _) as [mz ez]. cbn [fst snd] in Hez, Hmz.
  rewrite <- Hez in Hmz. rewrite fexp64_eq in Hez.
  pose proof (valid_canonical _ _ _ HF) as [_ HeF].
  assert (Hb : -1074 <= ez) by (unfold fexp64 in Hez; lia).
  assert (Hval : valZ p e = Z.pos mz * 2 ^ (ez + 1074)).
  { unfold valZ. rewrite Hmz, <- Z.mul_assoc, <- Z.pow_add_r by lia.
    do 2 f_equal. lia. }
  destruct (bra_lower (Z.pos mz) ez loc_Exact mF eF (-1074)) as [H0 | (m & e' & HR & He' & Hv)];
    try lia; try assumption.
  - replace (ez - -1074) with (ez + 1074) by lia.
    replace (eF - -1074) with (eF + 1074) by lia.
    rewrite <- Hval. exact Hle.
  - left. exact H0.
  - right. exists m, e'. split; [exact HR |]. unfold valZ.
    replace (e' + 1074) with (e' - -1074) by lia.
    replace (eF + 1074) with (eF - -1074) by lia. exact Hv.
Qed.


(** *** The primitive floats *)

Lemma value_nonneg x v : value x = Some v -> nonneg x.
Proof. apply SFvalue_nonneg. Qed.

Lemma value_ge_0 x v : value x = Some v -> 0 <= v.
Proof. apply SFvalue_ge_0, Prim2SF_valid. Qed.

Lemma SFvalue_compare x y vx vy :
  valid_binary x = true -> valid_binary y = true ->
  SFvalue x = Some vx -> SFvalue y = Some vy ->
  SFcompare x y = Some (vx ?= vy).
Proof.
  intros Hx Hy Vx Vy.
  destruct x as [sx | sx | | [] mx ex]; simpl in Vx; try discriminate;
    destruct y as [sy | sy | | [] my ey]; simpl in Vy; try discriminate;
    injection Vx as <-; injection Vy as <-.
  - reflexivity.
  - pose proof (valid_finite_inv _ _ _ Hy) as (He & _).
    pose proof (valZ_pos my ey ltac:(lia)). simpl SFcompare. f_equal.
    symmetry. apply Z.compare_lt_iff. lia.
  - pose proof (valid_finite_inv _ _ _ Hx) as (He & _).
    pose proof (valZ_pos mx ex ltac:(lia)). simpl SFcompare. f_equal.
    symmetry. apply Z.compare_gt_iff. lia.
  - apply SFcompare_valZ; assumption.
Qed.

Lemma value_leb x y vx vy :
  value x = Some vx -> value y = Some vy -> (x <=? y)%float = (vx <=? vy).
Proof.
  intros Vx Vy. rewrite FloatAxioms.leb_spec. unfold SFleb.
  rewrite (SFvalue_compare _ _ vx vy (Prim2SF_valid x) (Prim2SF_valid y) Vx Vy).
  unfold Z.leb. destruct (vx ?= vy); reflexivity.
Qed.

Lemma value_ltb x y vx vy :
  value x = Some vx -> value y = Some vy -> (x <? y)%float = (vx <? vy).
Proof.
  intros Vx Vy. rewrite FloatAxioms.ltb_spec. unfold SFltb.
  rewrite (SFvalue_compare _ _ vx vy (Prim2SF_valid x) (Prim2SF_valid y) Vx Vy).
  unfold Z.ltb. destruct (vx ?= vy); reflexivity.
Qed.

(** A float that is not negative and not above a finite one is finite. *)
Lemma nonneg_not_above x b vb :
  nonneg x -> value b = Some vb -> (b <? x)%float = false ->
  exists vx, value x = Some vx /\ vx <= vb.
Proof.
  intros Hx Vb Hlt. unfold nonneg in Hx. unfold value in *.
  destruct (Prim2SF x) as [sx | [] | | [] mx ex] eqn:Ex; simpl in Hx; try discriminate.
  - exists 0. split; [reflexivity |].
    apply (SFvalue_ge_0 (Prim2SF b)); [apply Prim2SF_valid | exact Vb].
  - rewrite FloatAxioms.ltb_spec, Ex in Hlt. unfold SFltb in Hlt.
    destruct (Prim2SF b) as [sb | sb | | [] mb eb]; simpl in Vb; try discriminate;
      simpl in Hlt; discriminate.
  - exists (valZ mx ex). split; [reflexivity |].
    assert (Vx : value x = Some (valZ mx ex)) by (unfold value; rewrite Ex; reflexivity).
    rewrite (value_ltb b x vb (valZ mx ex) Vb Vx) in Hlt.
    apply Z.ltb_ge in Hlt. exact Hlt.
Qed.

Lemma one_value_pos : 0 < one_value.
Proof. apply Z.pow_pos_nonneg; lia. Qed.

Lemma valZ_int p : valZ p 0 = Z.pos p * one_value.
Proof. reflexivity. Qed.

Lemma valZ_1 : valZ m52 (-52) = one_value.
Proof. vm_compute. reflexivity. Qed.

Lemma valZ_2_63 : valZ m52 11 = 2 ^ 63 * one_value.
Proof. vm_compute. reflexivity. Qed.

Lemma value_one : value 1%float = Some one_value.
Proof. vm_compute. reflexivity. Qed.

Lemma value_zero : value 0%float = Some 0.
Proof. reflexivity. Qed.

Lemma to_Z_of_Z n : 0 <= n < 2 ^ 63 -> Uint63.to_Z (Uint63.of_Z n) = n.
Proof.
  intros Hn. rewrite Uint63.of_Z_spec. apply Z.mod_small. exact Hn.
Qed.

(** The conversion of a machine integer that is not negative. *)
Lemma of_uint63_nonneg n :
  0 <= n < 2 ^ 63 -> nonneg (PrimFloat.of_uint63 (Uint63.of_Z n)).
Proof.
  intros Hn. unfold nonneg. rewrite of_uint63_spec, (to_Z_of_Z n Hn).
  destruct n as [| p | p]; [reflexivity | | lia].
  apply binary_round_nonneg.
Qed.

Lemma of_uint63_bounds n mL eL :
  1 <= n < 2 ^ 63 ->
  valid_binary (S754_finite false mL eL) = true -> valZ mL eL <= n * one_value ->
  exists v, value (PrimFloat.of_uint63 (Uint63.of_Z n)) = Some v
            /\ valZ mL eL <= v <= 2 ^ 63 * one_value.
Proof.
  intros Hn HL HLn. unfold value. rewrite of_uint63_spec, (to_Z_of_Z n ltac:(lia)).
  destruct n as [| p | p]; try lia. simpl binary_normalize.
  assert (H63 : valid_binary (S754_finite false m52 11) = true) by reflexivity.
  pose proof one_value_pos as Hp.
  assert (Hup : valZ p 0 <= valZ m52 11).
  { rewrite valZ_int, valZ_2_63. apply Z.mul_le_mono_nonneg_r; lia. }
  assert (Hlo : valZ mL eL <= valZ p 0) by (rewrite valZ_int; exact HLn).
  destruct (binary_round_upper p 0 m52 11 H63 ltac:(lia) Hup) as [Hz | (m & e & HR & Hv)];
    destruct (binary_round_lower p 0 mL eL HL ltac:(lia) Hlo)
      as [Hi | (m' & e' & HR' & Hv')].
  - rewrite Hz in Hi. discriminate.
  - rewrite Hz in HR'. discriminate.
  - rewrite HR in Hi. discriminate.
  - rewrite HR in HR'. injection HR' as <- <-.
    rewrite HR. exists (valZ m e). split; [reflexivity |].
    rewrite <- valZ_2_63. split; assumption.
Qed.

Lemma of_uint63_value n :
  1 <= n < 2 ^ 63 ->
  exists v, value (PrimFloat.of_uint63 (Uint63.of_Z n)) = Some v
            /\ one_value <= v <= 2 ^ 63 * one_value.
Proof.
  intros Hn.
  destruct (of_uint63_bounds n m52 (-52) Hn eq_refl) as (v & Hv & Hb).
  - rewrite valZ_1. pose proof one_value_pos. nia.
  - exists v. rewrite valZ_1 in Hb. auto.
Qed.

(** *** Signs of sums, products and quotients *)

Lemma SFadd_nonneg x y :
  SFnonneg x = true -> SFnonneg y = true -> SFnonneg (SF64add x y) = true.
Proof.
  intros Hx Hy.
  destruct x as [sx | [] | | [] mx ex]; simpl in Hx; try discriminate;
    destruct y as [sy | [] | | [] my ey]; simpl in Hy; try discriminate;
    try reflexivity.
  - destruct sx, sy; reflexivity.
  - unfold SF64add, SFadd. cbn [cond_Zopp].
    set (a := fst (shl_align mx ex (Z.min ex ey))).
    set (c := fst (shl_align my ey (Z.min ex ey))).
    change (Z.pos a + Z.pos c) with (Z.pos (a + c)).
    apply binary_round_nonneg.
Qed.

Lemma SFmul_nonneg x my ey :
  SFnonneg x = true -> SFnonneg (SF64mul x (S754_finite false my ey)) = true.
Proof.
  intros Hx. destruct x as [sx | [] | | [] mx ex]; simpl in Hx; try discriminate.
  - reflexivity.
  - reflexivity.
  - unfold SF64mul, SFmul. apply bra_nonneg. lia.
Qed.

Lemma SFdiv_core_spec m1 e1 m2 e2 :
  let e' := Z.min (fexp64 (Z.pos (digits2_pos m1) + e1 - (Z.pos (digits2_pos m2) + e2)))
                  (e1 - e2) in
  let m' := Z.pos m1 * 2 ^ (e1 - e2 - e') in
  SFdiv_core_binary prec emax (Z.pos m1) e1 (Z.pos m2) e2
  = (m' / Z.pos m2, e', new_location (Z.pos m2) (m' mod Z.pos m2)).
Proof.
  intros e' m'. unfold SFdiv_core_binary. rewrite fexp64_eq.
  simpl Zdigits2. fold e'.
  assert (Hs : 0 <= e1 - e2 - e') by (unfold e'; lia).
  assert (Hm' : match e1 - e2 - e' with
                | Z.pos _ => Z.shiftl (Z.pos m1) (e1 - e2 - e')
                | 0 => Z.pos m1
                | Z.neg _ => 0
                end = m').
  { unfold m'. destruct (e1 - e2 - e') as [| p | p] eqn:E; [lia | | lia].
    rewrite Z.shiftl_mul_pow2 by lia. reflexivity. }
  rewrite Hm'. unfold Z.div, Z.modulo.
  destruct (Z.div_eucl m' (Z.pos m2)) as [q r]. reflexivity.
Qed.

Lemma new_location_inexact n k :
  loc_inexact (new_location n k) = negb (k =? 0).
Proof.
  unfold new_location, new_location_even, new_location_odd.
  destruct (Z.even n); destruct (k =? 0); reflexivity.
Qed.

Lemma SFdiv_nonneg x my ey :
  SFnonneg x = true -> SFnonneg (SF64div x (S754_finite false my ey)) = true.
Proof.
  intros Hx. destruct x as [sx | [] | | [] mx ex]; simpl in Hx; try discriminate.
  - reflexivity.
  - reflexivity.
  - unfold SF64div, SFdiv. rewrite SFdiv_core_spec. apply bra_nonneg.
    apply Z.div_pos; [| lia].
    apply Z.mul_nonneg_nonneg; [lia | apply Z.pow_nonneg; lia].
Qed.

Lemma value_positive_finite y v :
  value y = Some v -> 0 < v -> exists m e, Prim2SF y = S754_finite false m e.
Proof.
  unfold value. intros Vy Hv.
  destruct (Prim2SF y) as [s | s | | [] m e]; simpl in Vy; try discriminate.
  - injection Vy as <-. lia.
  - exists m, e. reflexivity.
Qed.

Lemma add_nonneg x y : nonneg x -> nonneg y -> nonneg (x + y)%float.
Proof. unfold nonneg. rewrite FloatAxioms.add_spec. apply SFadd_nonneg. Qed.

Lemma mul_nonneg x y v :
  nonneg x -> value y = Some v -> 0 < v -> nonneg (x * y)%float.
Proof.
  unfold nonneg. intros Hx Vy Hv.
  destruct (value_positive_finite y v Vy Hv) as (m & e & Ey).
  rewrite FloatAxioms.mul_spec, Ey. apply SFmul_nonneg, Hx.
Qed.

Lemma div_nonneg x y v :
  nonneg x -> value y = Some v -> 0 < v -> nonneg (x / y)%float.
Proof.
  unfold nonneg. intros Hx Vy Hv.
  destruct (value_positive_finite y v Vy Hv) as (m & e & Ey).
  rewrite FloatAxioms.div_spec, Ey. apply SFdiv_nonneg, Hx.
Qed.

(** *** Subtraction of a smaller number *)

Lemma SFsub_value mx ex my ey :
  valid_binary (S754_finite false mx ex) = true ->
  valid_binary (S754_finite false my ey) = true ->
  valZ my ey <= valZ mx ex ->
  exists v, SFvalue (SF64sub (S754_finite false mx ex) (S754_finite false my ey)) = Some v
            /\ v <= valZ mx ex.
Proof.
  intros Hx Hy Hle. unfold SF64sub, SFsub. cbn [cond_Zopp].
  set (ez := Z.min ex ey).
  pose proof (shl_align_spec mx ex ez) as [_ Ha].
  pose proof (shl_align_spec my ey ez) as [_ Hc].
  replace (Z.min ex ez) with ez in Ha by (unfold ez; lia).
  replace (Z.min ey ez) with ez in Hc by (unfold ez; lia).
  set (a := fst (shl_align mx ex ez)) in *.
  set (c := fst (shl_align my ey ez)) in *.
  pose proof (valid_canonical _ _ _ Hx) as [_ Hex].
  pose proof (valid_canonical _ _ _ Hy) as [_ Hey].
  assert (Hez : -1074 <= ez) by (unfold ez; lia).
  assert (Hpz : 0 < 2 ^ (ez + 1074)) by (apply Z.pow_pos_nonneg; lia).
  assert (Hvx : valZ mx ex = Z.pos a * 2 ^ (ez + 1074)).
  { unfold valZ. rewrite Ha, <- Z.mul_assoc, <- Z.pow_add_r by (unfold ez; lia).
    do 2 f_equal. lia. }
  assert (Hvy : valZ my ey = Z.pos c * 2 ^ (ez + 1074)).
  { unfold valZ. rewrite Hc, <- Z.mul_assoc, <- Z.pow_add_r by (unfold ez; lia).
    do 2 f_equal. lia. }
  assert (Hca : Z.pos c <= Z.pos a).
  { rewrite Hvx, Hvy in Hle. apply Z.mul_le_mono_pos_r in Hle; assumption. }
  destruct (Z.pos a - Z.pos c) as [| p | p] eqn:Ed; [| | lia].
  - exists 0. split; [reflexivity |]. rewrite Hvx. lia.
  - simpl binary_normalize.
    destruct (binary_round_upper p ez mx ex Hx Hez) as [Hz | (m & e & HR & Hv)].
    + unfold valZ at 1. rewrite Hvx. apply Z.mul_le_mono_nonneg_r; lia.
    + rewrite Hz. exists 0. split; [reflexivity |]. rewrite Hvx. lia.
    + rewrite HR. exists (valZ m e). split; [reflexivity | exact Hv].
Qed.

Lemma sub_value x y vx vy :
  value x = Some vx -> value y = Some vy -> vy <= vx ->
  exists v, value (x - y)%float = Some v /\ v <= vx.
Proof.
  unfold value. intros Vx Vy Hle. rewrite FloatAxioms.sub_spec.
  pose proof (Prim2SF_valid x) as Hx. pose proof (Prim2SF_valid y) as Hy.
  pose proof (SFvalue_ge_0 _ _ Hy Vy) as Hy0.
  destruct (Prim2SF x) as [sx | sx | | [] mx ex]; simpl in Vx; try discriminate;
    destruct (Prim2SF y) as [sy | sy | | [] my ey]; simpl in Vy; try discriminate;
    injection Vx as <-; injection Vy as <-.
  - exists 0. split; [| lia]. destruct sx, sy; reflexivity.
  - pose proof (valid_finite_inv _ _ _ Hy) as (He & _).
    pose proof (valZ_pos my ey ltac:(lia)). lia.
  - exists (valZ mx ex). split; [reflexivity | lia].
  - apply SFsub_value; assumption.
Qed.


(** *** Upper bounds on products and quotients *)

(** An order of scaled mantissas does not depend on the common scale. *)
Lemma scaled_le_shift m1 m2 A C d :
  0 <= A -> 0 <= C -> 0 <= A + d -> 0 <= C + d ->
  m1 * 2 ^ A <= m2 * 2 ^ C -> m1 * 2 ^ (A + d) <= m2 * 2 ^ (C + d).
Proof.
  intros HA HC HAd HCd Hle. destruct (Z_lt_le_dec d 0) as [Hneg | Hpos].
  - apply (pow2_cancel _ _ (- d)); [lia |].
    rewrite <- !Z.mul_assoc, <- !Z.pow_add_r by lia.
    replace (A + d + - d) with A by lia. replace (C + d + - d) with C by lia.
    exact Hle.
  - rewrite !Z.pow_add_r, !Z.mul_assoc by lia.
    apply Z.mul_le_mono_nonneg_r; [apply Z.pow_nonneg; lia | exact Hle].
Qed.

Lemma digits2_mul_le (m1 m2 : positive) :
  Z.pos (digits2_pos (m1 * m2)) <= Z.pos (digits2_pos m1) + Z.pos (digits2_pos m2).
Proof.
  pose proof (digits2_bounds m1) as [_ H1]. pose proof (digits2_bounds m2) as [_ H2].
  pose proof (digits2_bounds (m1 * m2)) as [H3 _].
  assert (H : 2 ^ (Z.pos (digits2_pos (m1 * m2)) - 1)
              < 2 ^ (Z.pos (digits2_pos m1) + Z.pos (digits2_pos m2))).
  { rewrite Z.pow_add_r by lia. rewrite Pos2Z.inj_mul in H3. nia. }
  apply pow2_lt_inv in H; lia.
Qed.

Lemma digits2_mul_ge (m1 m2 : positive) :
  Z.pos (digits2_pos m1) + Z.pos (digits2_pos m2) - 1 <= Z.pos (digits2_pos (m1 * m2)).
Proof.
  pose proof (digits2_bounds m1) as [H1 _]. pose proof (digits2_bounds m2) as [H2 _].
  pose proof (digits2_bounds (m1 * m2)) as [_ H3].
  assert (H : 2 ^ (Z.pos (digits2_pos m1) - 1 + (Z.pos (digits2_pos m2) - 1))
              < 2 ^ Z.pos (digits2_pos (m1 * m2))).
  { rewrite Z.pow_add_r by lia. rewrite Pos2Z.inj_mul in H3.
    assert (0 < 2 ^ (Z.pos (digits2_pos m1) - 1)) by (apply Z.pow_pos_nonneg; lia).
    assert (0 < 2 ^ (Z.pos (digits2_pos m2) - 1)) by (apply Z.pow_pos_nonneg; lia).
    nia. }
  apply pow2_lt_inv in H; lia.
Qed.

(** From a bound in the base of a rounding to a bound on values. *)
Lemma scaled_to_valZ m e mF eF b :
  -1074 <= e -> -1074 <= eF -> b <= e -> b <= eF ->
  Z.pos m * 2 ^ (e - b) <= Z.pos mF * 2 ^ (eF - b) -> valZ m e <= valZ mF eF.
Proof.
  intros He HeF Hb1 Hb2 H. unfold valZ.
  replace (e + 1074) with (e - b + (b + 1074)) by lia.
  replace (eF + 1074) with (eF - b + (b + 1074)) by lia.
  apply scaled_le_shift; [lia | lia | lia | lia | exact H].
Qed.

Lemma SFmul_upper mx ex my ey mF eF :
  valid_binary (S754_finite false mx ex) = true ->
  valid_binary (S754_finite false my ey) = true ->
  valid_binary (S754_finite false mF eF) = true ->
  valid_binary (SF64mul (S754_finite false mx ex) (S754_finite false my ey)) = true ->
  valZ mx ex * valZ my ey <= valZ mF eF * one_value ->
  exists v, SFvalue (SF64mul (S754_finite false mx ex) (S754_finite false my ey)) = Some v
            /\ v <= valZ mF eF.
Proof.
  intros Hx Hy HF HR Hle. unfold SF64mul, SFmul in *. cbn [xorb] in *.
  pose proof (valid_finite_inv _ _ _ Hx) as (Hex & Hdx & Hnx).
  pose proof (valid_finite_inv _ _ _ Hy) as (Hey & Hdy & Hny).
  pose proof (valid_canonical _ _ _ HF) as [HcF HeF].
  assert (Hscaled : Z.pos (mx * my) * 2 ^ (ex + ey - -2148)
                    <= Z.pos mF * 2 ^ (eF - -2148)).
  { unfold valZ, one_value in Hle. rewrite Pos2Z.inj_mul.
    replace (ex + ey - -2148) with ((ex + 1074) + (ey + 1074)) by lia.
    replace (eF - -2148) with ((eF + 1074) + 1074) by lia.
    rewrite (Z.pow_add_r 2 (ex + 1074) (ey + 1074)) by lia.
    rewrite (Z.pow_add_r 2 (eF + 1074) 1074) by lia. lia. }
  assert (Hgrid : fexp64 (Zdigits2 (Z.pos (mx * my)) + (ex + ey)) <= eF).
  { apply (grid_below _ _ mF eF (-2148)); try lia; assumption. }
  assert (Hexp : ex + ey <= eF).
  { simpl Zdigits2 in Hgrid. pose proof (digits2_mul_ge mx my) as Hd.
    pose proof (digits2_bounds mx) as _. unfold fexp64 in Hgrid.
    assert (1 <= Z.pos (digits2_pos mx)) by lia.
    assert (1 <= Z.pos (digits2_pos my)) by lia.
    lia. }
  destruct (bra_upper (Z.pos (mx * my)) (ex + ey) loc_Exact mF eF (ex + ey))
    as [Hz | (m & e & HRe & He & Hv)]; try lia; try assumption.
  - simpl loc_inexact. cbv iota. rewrite Z.add_0_r, Z.sub_diag, Z.mul_1_r.
    apply (pow2_cancel _ _ (ex + ey + 2148)); [lia |].
    rewrite <- Z.mul_assoc, <- Z.pow_add_r by lia.
    replace (eF - (ex + ey) + (ex + ey + 2148)) with (eF - -2148) by lia.
    replace (ex + ey + 2148) with (ex + ey - -2148) by lia. exact Hscaled.
  - rewrite Hz. exists 0. split; [reflexivity |].
    pose proof (valZ_pos mF eF ltac:(lia)). lia.
  - rewrite HRe in *. exists (valZ m e). split; [reflexivity |].
    pose proof (valid_canonical _ _ _ HR) as [_ HeR].
    destruct (Z_le_gt_dec (-1074) (ex + ey)).
    + apply (scaled_to_valZ m e mF eF (ex + ey)); [lia | lia | lia | lia | exact Hv].
    + apply (scaled_to_valZ m e mF eF (-1074)); [lia | lia | lia | lia |].
      replace (e - -1074) with (e - (ex + ey) + (ex + ey + 1074)) by lia.
      replace (eF - -1074) with (eF - (ex + ey) + (ex + ey + 1074)) by lia.
      apply scaled_le_shift; [lia | lia | lia | lia | exact Hv].
Qed.

Lemma SFdiv_upper mx ex my ey mF eF :
  valid_binary (S754_finite false mx ex) = true ->
  valid_binary (S754_finite false my ey) = true ->
  valid_binary (S754_finite false mF eF) = true ->
  valid_binary (SF64div (S754_finite false mx ex) (S754_finite false my ey)) = true ->
  valZ mx ex * one_value <= valZ mF eF * valZ my ey ->
  exists v, SFvalue (SF64div (S754_finite false mx ex) (S754_finite false my ey)) = Some v
            /\ v <= valZ mF eF.
Proof.
  intros Hx Hy HF HR Hle. unfold SF64div, SFdiv in *. cbn [xorb] in *.
  rewrite SFdiv_core_spec in *. cbv zeta in *.
  pose proof (valid_finite_inv _ _ _ Hx) as (Hex & Hdx & Hnx).
  pose proof (valid_finite_inv _ _ _ Hy) as (Hey & Hdy & Hny).
  pose proof (valid_canonical _ _ _ HF) as [HcF HeF].
  set (e' := Z.min (fexp64 (Z.pos (digits2_pos mx) + ex - (Z.pos (digits2_pos my) + ey)))
                   (ex - ey)) in *.
  set (m' := Z.pos mx * 2 ^ (ex - ey - e')) in *.
  assert (Hs : 0 <= ex - ey - e') by (unfold e'; lia).
  assert (Hscaled : Z.pos mx * 2 ^ (ex + 2148) <= Z.pos (mF * my) * 2 ^ (eF + ey + 2148)).
  { unfold valZ, one_value in Hle. rewrite Pos2Z.inj_mul.
    replace (ex + 2148) with ((ex + 1074) + 1074) by lia.
    replace (eF + ey + 2148) with ((eF + 1074) + (ey + 1074)) by lia.
    rewrite (Z.pow_add_r 2 (ex + 1074) 1074) by lia.
    rewrite (Z.pow_add_r 2 (eF + 1074) (ey + 1074)) by lia. lia. }
  assert (He'F : e' <= eF).
  { pose proof (scaled_le_digits (Z.pos mx) (ex + 2148) (Z.pos (mF * my)) (eF + ey + 2148)
                  ltac:(lia) ltac:(lia) ltac:(lia) ltac:(lia) Hscaled) as Hd.
    simpl Zdigits2 in Hd. pose proof (digits2_mul_le mF my) as Hm.
    assert (Hf : fexp64 (Z.pos (digits2_pos mx) + ex - (Z.pos (digits2_pos my) + ey)) <= eF).
    { rewrite <- HcF. apply fexp64_mono. lia. }
    unfold e'. lia. }
  assert (Hm'T : m' <= Z.pos my * (Z.pos mF * 2 ^ (eF - e'))).
  { unfold m'. rewrite Z.mul_assoc, (Z.mul_comm (Z.pos my)), <- Pos2Z.inj_mul.
    destruct (Z_le_gt_dec 0 (ey + e' + 2148)) as [Hd | Hd].
    - apply (pow2_cancel _ _ (ey + e' + 2148)); [lia |].
      rewrite <- !Z.mul_assoc, <- !Z.pow_add_r by lia.
      replace (ex - ey - e' + (ey + e' + 2148)) with (ex + 2148) by lia.
      replace (eF - e' + (ey + e' + 2148)) with (eF + ey + 2148) by lia.
      exact Hscaled.
    - replace (ex - ey - e') with (ex + 2148 + - (ey + e' + 2148)) by lia.
      replace (eF - e') with (eF + ey + 2148 + - (ey + e' + 2148)) by lia.
      apply scaled_le_shift; [lia | lia | lia | lia | exact Hscaled]. }
  assert (Hm'0 : 0 <= m').
  { unfold m'. apply Z.mul_nonneg_nonneg; [lia | apply Z.pow_nonneg; lia]. }
  destruct (bra_upper (m' / Z.pos my) e' (new_location (Z.pos my) (m' mod Z.pos my))
              mF eF e') as [Hz | (m & e & HRe & He & Hv)]; try lia; try assumption.
  - apply Z.div_pos; lia.
  - rewrite Z.sub_diag, Z.mul_1_r, new_location_inexact.
    destruct (Z.eqb_spec (m' mod Z.pos my) 0) as [E | N]; simpl.
    + rewrite Z.add_0_r. apply Z.div_le_upper_bound; lia.
    + assert (m' <> Z.pos my * (Z.pos mF * 2 ^ (eF - e'))).
      { intros E'. apply N. rewrite E', Z.mul_comm. apply Z.mod_mul. lia. }
      assert (m' / Z.pos my < Z.pos mF * 2 ^ (eF - e'))
        by (apply Z.div_lt_upper_bound; lia).
      lia.
  - rewrite Hz. exists 0. split; [reflexivity |].
    pose proof (valZ_pos mF eF ltac:(lia)). lia.
  - rewrite HRe in *. exists (valZ m e). split; [reflexivity |].
    pose proof (valid_canonical _ _ _ HR) as [_ HeR].
    destruct (Z_le_gt_dec (-1074) e').
    + apply (scaled_to_valZ m e mF eF e'); [lia | lia | lia | lia | exact Hv].
    + apply (scaled_to_valZ m e mF eF (-1074)); [lia | lia | lia | lia |].
      replace (e - -1074) with (e - e' + (e' + 1074)) by lia.
      replace (eF - -1074) with (eF - e' + (e' + 1074)) by lia.
      apply scaled_le_shift; [lia | lia | lia | lia | exact Hv].
Qed.


Lemma mul_upper x y vx vy mF eF :
  value x = Some vx -> value y = Some vy ->
  valid_binary (S754_finite false mF eF) = true ->
  vx * vy <= valZ mF eF * one_value ->
  exists v, value (x * y)%float = Some v /\ v <= valZ mF eF.
Proof.
  unfold value. intros Vx Vy HF Hle.
  pose proof (Prim2SF_valid x) as Hx. pose proof (Prim2SF_valid y) as Hy.
  pose proof (Prim2SF_valid (x * y)%float) as HR. rewrite FloatAxioms.mul_spec in *.
  pose proof (valid_canonical _ _ _ HF) as [_ HeF].
  pose proof (valZ_pos mF eF ltac:(lia)) as HvF.
  destruct (Prim2SF x) as [sx | sx | | [] mx ex]; simpl in Vx; try discriminate;
    destruct (Prim2SF y) as [sy | sy | | [] my ey]; simpl in Vy; try discriminate;
    injection Vx as <-; injection Vy as <-.
  - exists 0. split; [reflexivity | lia].
  - exists 0. split; [reflexivity | lia].
  - exists 0. split; [reflexivity | lia].
  - apply SFmul_upper; assumption.
Qed.

Lemma div_upper x y vx vy mF eF :
  value x = Some vx -> value y = Some vy -> 0 < vy ->
  valid_binary (S754_finite false mF eF) = true ->
  vx * one_value <= valZ mF eF * vy ->
  exists v, value (x / y)%float = Some v /\ v <= valZ mF eF.
Proof.
  unfold value. intros Vx Vy Hpos HF Hle.
  pose proof (Prim2SF_valid x) as Hx. pose proof (Prim2SF_valid y) as Hy.
  pose proof (Prim2SF_valid (x / y)%float) as HR. rewrite FloatAxioms.div_spec in *.
  pose proof (valid_canonical _ _ _ HF) as [_ HeF].
  pose proof (valZ_pos mF eF ltac:(lia)) as HvF.
  destruct (Prim2SF x) as [sx | sx | | [] mx ex]; simpl in Vx; try discriminate;
    destruct (Prim2SF y) as [sy | sy | | [] my ey]; simpl in Vy; try discriminate;
    injection Vx as <-; injection Vy as <-; try lia.
  - exists 0. split; [reflexivity | lia].
  - apply SFdiv_upper; assumption.
Qed.

(** *** Sums with a number that is not negative *)

Lemma SFadd_lower mx ex y :
  valid_binary (S754_finite false mx ex) = true -> valid_binary y = true ->
  SFnonneg y = true ->
  let R := SF64add (S754_finite false mx ex) y in
  R = S754_infinity false
  \/ exists m e, R = S754_finite false m e /\ valZ mx ex <= valZ m e.
Proof.
  intros Hx Hy Hn R. unfold R.
  destruct y as [sy | [] | | [] my ey]; simpl in Hn; try discriminate.
  - right. exists mx, ex. split; [reflexivity | lia].
  - left. reflexivity.
  - unfold SF64add, SFadd. cbn [cond_Zopp].
    set (ez := Z.min ex ey).
    pose proof (shl_align_spec mx ex ez) as [_ Ha].
    replace (Z.min ex ez) with ez in Ha by (unfold ez; lia).
    set (a := fst (shl_align mx ex ez)) in *.
    set (c := fst (shl_align my ey ez)) in *.
    change (Z.pos a + Z.pos c) with (Z.pos (a + c)). simpl binary_normalize.
    pose proof (valid_canonical _ _ _ Hx) as [_ Hex].
    pose proof (valid_canonical _ _ _ Hy) as [_ Hey].
    assert (Hez : -1074 <= ez) by (unfold ez; lia).
    apply binary_round_lower; [exact Hx | exact Hez |].
    unfold valZ. rewrite Pos2Z.inj_add, Ha, Z.mul_add_distr_r.
    rewrite <- Z.mul_assoc, <- Z.pow_add_r by (unfold ez; lia).
    replace (ex - ez + (ez + 1074)) with (ex + 1074) by lia.
    assert (0 <= Z.pos c * 2 ^ (ez + 1074)); [| lia].
    apply Z.mul_nonneg_nonneg; [lia | apply Z.pow_nonneg; lia].
Qed.

(** Two valid floats of the same value are the same float. *)
Lemma valZ_inj m1 e1 m2 e2 :
  valid_binary (S754_finite false m1 e1) = true ->
  valid_binary (S754_finite false m2 e2) = true ->
  valZ m1 e1 = valZ m2 e2 -> m1 = m2 /\ e1 = e2.
Proof.
  intros H1 H2 Hv. pose proof (SFcompare_valZ m1 e1 m2 e2 H1 H2) as Hc.
  rewrite Hv, Z.compare_refl in Hc. simpl in Hc.
  destruct (Z.compare_spec e1 e2) as [-> | |]; try discriminate.
  rewrite Pos.compare_cont_spec in Hc. simpl in Hc.
  destruct (Pos.compare_spec m1 m2) as [-> | |]; try discriminate. auto.
Qed.

(** Adding a number that is not negative to a positive [b] gives [b], or
    something above [b]. *)
Lemma add_nonneg_ge b y vb :
  value b = Some vb -> 0 < vb -> nonneg y ->
  (b + y)%float = b \/ (b <? b + y)%float = true.
Proof.
  intros Vb Hpos Hy.
  destruct (value_positive_finite b vb Vb Hpos) as (mb & eb & Eb).
  pose proof (Prim2SF_valid b) as Hvb. rewrite Eb in Hvb.
  pose proof (Prim2SF_valid (b + y)%float) as HvR.
  pose proof (SFadd_lower mb eb (Prim2SF y) Hvb (Prim2SF_valid y) Hy) as HR.
  cbv zeta in HR. rewrite <- Eb, <- FloatAxioms.add_spec in HR.
  assert (Evb : vb = valZ mb eb).
  { unfold value in Vb. rewrite Eb in Vb. simpl in Vb. congruence. }
  destruct HR as [Hinf | (m & e & HRe & Hle)].
  - right. rewrite FloatAxioms.ltb_spec, Hinf, Eb. reflexivity.
  - assert (VR : value (b + y)%float = Some (valZ m e))
      by (unfold value; rewrite HRe; reflexivity).
    destruct (Z.eq_dec (valZ mb eb) (valZ m e)) as [E | N].
    + left. apply Prim2SF_inj. rewrite HRe, Eb. rewrite HRe in HvR.
      destruct (valZ_inj mb eb m e Hvb HvR E) as [-> ->]. reflexivity.
    + right. rewrite (value_ltb b (b + y) vb (valZ m e) Vb VR).
      apply Z.ltb_lt. lia.
Qed.

(** *** Numbers that are computed exactly *)

Lemma digits2_unique (m : positive) d :
  2 ^ (d - 1) <= Z.pos m < 2 ^ d -> Z.pos (digits2_pos m) = d.
Proof.
  intros [Hlo Hhi]. pose proof (digits2_bounds m) as [Hlo' Hhi'].
  assert (0 < d).
  { destruct (Z_lt_le_dec 0 d); [assumption |].
    destruct d as [| p | p]; simpl in Hhi; try lia.
    rewrite Z.pow_neg_r in Hhi by lia. lia. }
  assert (2 ^ (d - 1) < 2 ^ Z.pos (digits2_pos m)) by lia.
  assert (2 ^ (Z.pos (digits2_pos m) - 1) < 2 ^ d) by lia.
  apply pow2_lt_inv in H0; [| lia]. apply pow2_lt_inv in H1; lia.
Qed.

(** A whole number below [2^53] is a binary64. *)
Lemma representable_int n : 1 <= n < 2 ^ 53 -> representable (n * one_value).
Proof.
  intros Hn. set (d := Zdigits2 n).
  pose proof (Zdigits2_bounds n ltac:(lia)) as [Hlo Hhi]. fold d in Hlo, Hhi.
  pose proof (Zdigits2_pos n ltac:(lia)) as Hd1. fold d in Hd1.
  assert (Hd : d <= 53).
  { assert (2 ^ (d - 1) < 2 ^ 53) by lia. apply pow2_lt_inv in H; lia. }
  assert (Hp : 0 < 2 ^ (53 - d)) by (apply Z.pow_pos_nonneg; lia).
  assert (Hm : 2 ^ 52 <= n * 2 ^ (53 - d) < 2 ^ 53).
  { assert (E52 : 2 ^ 52 = 2 ^ (d - 1) * 2 ^ (53 - d))
      by (rewrite <- Z.pow_add_r by lia; f_equal; lia).
    assert (E53 : 2 ^ 53 = 2 ^ d * 2 ^ (53 - d))
      by (rewrite <- Z.pow_add_r by lia; f_equal; lia).
    rewrite E52, E53. split.
    - apply Z.mul_le_mono_nonneg_r; lia.
    - apply Z.mul_lt_mono_pos_r; lia. }
  exists (Z.to_pos (n * 2 ^ (53 - d))), (d - 53).
  assert (Epos : Z.pos (Z.to_pos (n * 2 ^ (53 - d))) = n * 2 ^ (53 - d))
    by (apply Z2Pos.id; lia).
  split.
  - unfold valid_binary, bounded, canonical_mantissa. rewrite fexp64_eq.
    rewrite (digits2_unique _ 53) by (rewrite Epos; exact Hm).
    apply andb_true_iff. split.
    + apply Z.eqb_eq. unfold fexp64. lia.
    + apply Z.leb_le. change (emax - prec) with 971. lia.
  - unfold valZ, one_value. rewrite Epos, <- Z.mul_assoc, <- Z.pow_add_r by lia.
    do 2 f_equal. lia.
Qed.

(** The rounding of a positive number that is a binary64 is exact. *)
Lemma binary_round_exact p e :
  -1074 <= e -> representable (valZ p e) ->
  SFvalue (binary_round prec emax false p e) = Some (valZ p e).
Proof.
  intros He (mF & eF & HF & Hv).
  destruct (binary_round_upper p e mF eF HF He ltac:(lia)) as [Hz | (m & e' & HR & Hup)];
    destruct (binary_round_lower p e mF eF HF He ltac:(lia)) as [Hi | (m' & e'' & HR' & Hlo)].
  - rewrite Hz in Hi. discriminate.
  - rewrite Hz in HR'. discriminate.
  - rewrite HR in Hi. discriminate.
  - rewrite HR in HR'. injection HR' as <- <-. rewrite HR. simpl. f_equal. lia.
Qed.

(** The conversion of a whole number below [2^53] is exact. *)
Lemma of_uint63_exact n :
  0 <= n < 2 ^ 53 -> value (PrimFloat.of_uint63 (Uint63.of_Z n)) = Some (n * one_value).
Proof.
  intros Hn. unfold value. rewrite of_uint63_spec, (to_Z_of_Z n ltac:(lia)).
  destruct n as [| p | p]; [reflexivity | | lia]. simpl binary_normalize.
  rewrite binary_round_exact; [rewrite valZ_int; reflexivity | lia |].
  rewrite valZ_int. apply representable_int. lia.
Qed.

(** The difference of two numbers is exact when it is a binary64. *)
Lemma SFsub_exact mx ex my ey :
  valid_binary (S754_finite false mx ex) = true ->
  valid_binary (S754_finite false my ey) = true ->
  valZ my ey <= valZ mx ex ->
  valZ mx ex = valZ my ey \/ representable (valZ mx ex - valZ my ey) ->
  SFvalue (SF64sub (S754_finite false mx ex) (S754_finite false my ey))
  = Some (valZ mx ex - valZ my ey).
Proof.
  intros Hx Hy Hle Hrep. unfold SF64sub, SFsub. cbn [cond_Zopp].
  set (ez := Z.min ex ey).
  pose proof (shl_align_spec mx ex ez) as [_ Ha].
  pose proof (shl_align_spec my ey ez) as [_ Hc].
  replace (Z.min ex ez) with ez in Ha by (unfold ez; lia).
  replace (Z.min ey ez) with ez in Hc by (unfold ez; lia).
  set (a := fst (shl_align mx ex ez)) in *.
  set (c := fst (shl_align my ey ez)) in *.
  pose proof (valid_canonical _ _ _ Hx) as [_ Hex].
  pose proof (valid_canonical _ _ _ Hy) as [_ Hey].
  assert (Hez : -1074 <= ez) by (unfold ez; lia).
  assert (Hpz : 0 < 2 ^ (ez + 1074)) by (apply Z.pow_pos_nonneg; lia).
  assert (Hvx : valZ mx ex = Z.pos a * 2 ^ (ez + 1074)).
  { unfold valZ. rewrite Ha, <- Z.mul_assoc, <- Z.pow_add_r by (unfold ez; lia).
    do 2 f_equal. lia. }
  assert (Hvy : valZ my ey = Z.pos c * 2 ^ (ez + 1074)).
  { unfold valZ. rewrite Hc, <- Z.mul_assoc, <- Z.pow_add_r by (unfold ez; lia).
    do 2 f_equal. lia. }
  assert (Hd : valZ mx ex - valZ my ey = (Z.pos a - Z.pos c) * 2 ^ (ez + 1074))
    by (rewrite Hvx, Hvy; ring).
  assert (Hca : Z.pos c <= Z.pos a).
  { rewrite Hvx, Hvy in Hle. apply Z.mul_le_mono_pos_r in Hle; assumption. }
  rewrite Hd in Hrep |- *.
  destruct (Z.pos a - Z.pos c) as [| p | p] eqn:Ed; [| | lia].
  - reflexivity.
  - simpl binary_normalize. destruct Hrep as [Heq | Hrep]; [lia |].
    apply (binary_round_exact p ez Hez Hrep).
Qed.

Lemma sub_exact x y vx vy :
  value x = Some vx -> value y = Some vy -> vy <= vx ->
  vx = vy \/ representable (vx - vy) ->
  value (x - y)%float = Some (vx - vy).
Proof.
  unfold value. intros Vx Vy Hle Hrep. rewrite FloatAxioms.sub_spec.
  pose proof (Prim2SF_valid x) as Hx. pose proof (Prim2SF_valid y) as Hy.
  pose proof (SFvalue_ge_0 _ _ Hy Vy) as Hy0.
  destruct (Prim2SF x) as [sx | sx | | [] mx ex]; simpl in Vx; try discriminate;
    destruct (Prim2SF y) as [sy | sy | | [] my ey]; simpl in Vy; try discriminate;
    injection Vx as <-; injection Vy as <-.
  - destruct sx, sy; reflexivity.
  - pose proof (valid_finite_inv _ _ _ Hy) as (He & _).
    pose proof (valZ_pos my ey ltac:(lia)). lia.
  - simpl. f_equal. lia.
  - apply SFsub_exact; assumption.
Qed.

(** Adding zero and multiplying zero. *)
Lemma add_zero x y vx :
  value x = Some vx -> value y = Some 0 -> value (x + y)%float = Some vx.
Proof.
  unfold value. intros Vx Vy. rewrite FloatAxioms.add_spec.
  pose proof (Prim2SF_valid y) as Hy.
  destruct (Prim2SF x) as [sx | sx | | [] mx ex]; simpl in Vx; try discriminate;
    destruct (Prim2SF y) as [sy | sy | | [] my ey]; simpl in Vy; try discriminate.
  - injection Vx as <-. destruct sx, sy; reflexivity.
  - pose proof (valid_finite_inv _ _ _ Hy) as (He & _).
    pose proof (valZ_pos my ey ltac:(lia)). injection Vy as Vy. lia.
  - exact Vx.
  - pose proof (valid_finite_inv _ _ _ Hy) as (He & _).
    pose proof (valZ_pos my ey ltac:(lia)). injection Vy as Vy. lia.
Qed.

Lemma mul_zero x y vy :
  value x = Some 0 -> value y = Some vy -> value (x * y)%float = Some 0.
Proof.
  unfold value. intros Vx Vy. rewrite FloatAxioms.mul_spec.
  pose proof (Prim2SF_valid x) as Hx.
  destruct (Prim2SF x) as [sx | sx | | [] mx ex]; simpl in Vx; try discriminate;
    destruct (Prim2SF y) as [sy | sy | | [] my ey]; simpl in Vy; try discriminate;
    try reflexivity.
  pose proof (valid_finite_inv _ _ _ Hx) as (He & _).
  pose proof (valZ_pos mx ex ltac:(lia)). injection Vx as Vx. lia.
Qed.

(** *** Lower bounds *)

Lemma above_of_value x vx v : value x = Some vx -> v <= vx -> above v x.
Proof. intros Vx Hle. right. exists vx. auto. Qed.

Lemma above_weaken v v' x : v' <= v -> above v x -> above v' x.
Proof.
  intros Hle [Hinf | (vx & Vx & Hv)]; [left; exact Hinf |].
  right. exists vx. split; [exact Vx | lia].
Qed.

Lemma SFnonneg_above x : valid_binary x = true -> SFnonneg x = true -> SFabove 0 x.
Proof.
  intros Hv Hn. destruct x as [s | [] | | [] m e]; simpl in Hn; try discriminate.
  - right. exists 0. split; [reflexivity | lia].
  - left. reflexivity.
  - right. exists (valZ m e). split; [reflexivity |].
    pose proof (valid_finite_inv _ _ _ Hv) as (He & _).
    pose proof (valZ_pos m e ltac:(lia)). lia.
Qed.

Lemma SFabove_nonneg v x : SFabove v x -> SFnonneg x = true.
Proof.
  intros [-> | (vx & Vx & _)]; [reflexivity | apply (SFvalue_nonneg _ _ Vx)].
Qed.

Lemma SFadd_comm mx ex my ey :
  SF64add (S754_finite false mx ex) (S754_finite false my ey)
  = SF64add (S754_finite false my ey) (S754_finite false mx ex).
Proof.
  unfold SF64add, SFadd. cbn [cond_Zopp]. rewrite (Z.min_comm ey ex), Z.add_comm.
  reflexivity.
Qed.

(** A sum is not below its first term, nor below its second. *)
Lemma SFadd_above_l x y vx :
  valid_binary x = true -> valid_binary y = true ->
  SFvalue x = Some vx -> SFnonneg y = true -> SFabove vx (SF64add x y).
Proof.
  intros Hx Hy Vx Hn.
  destruct x as [sx | sx | | [] mx ex]; simpl in Vx; try discriminate; injection Vx as <-.
  - apply SFnonneg_above.
    + destruct y as [sy | [] | | [] my ey]; simpl in Hn; try discriminate;
        try reflexivity; [destruct sx, sy; reflexivity | exact Hy].
    + destruct y as [sy | [] | | [] my ey]; simpl in Hn; try discriminate;
        try reflexivity. destruct sx, sy; reflexivity.
  - destruct (SFadd_lower mx ex y Hx Hy Hn) as [Hinf | (m & e & HR & Hle)].
    + left. exact Hinf.
    + right. exists (valZ m e). rewrite HR. split; [reflexivity | exact Hle].
Qed.

Lemma SFadd_above_r x y v :
  valid_binary x = true -> valid_binary y = true ->
  SFnonneg x = true -> SFabove v y -> SFabove v (SF64add x y).
Proof.
  intros Hx Hy Hn [-> | (vy & Vy & Hv)].
  - left. destruct x as [sx | [] | | [] mx ex]; simpl in Hn; try discriminate; reflexivity.
  - destruct x as [sx | [] | | [] mx ex]; simpl in Hn; try discriminate.
    + destruct y as [sy | sy | | [] my ey]; simpl in Vy; try discriminate.
      * right. exists 0. injection Vy as <-. split; [destruct sx, sy; reflexivity | exact Hv].
      * right. exists vy. split; [exact Vy | exact Hv].
    + left. destruct y as [sy | sy | | [] my ey]; simpl in Vy; try discriminate; reflexivity.
    + destruct y as [sy | sy | | [] my ey]; simpl in Vy; try discriminate;
        injection Vy as <-.
      * right. exists (valZ mx ex). split; [reflexivity |].
        pose proof (valid_finite_inv _ _ _ Hx) as (He & _).
        pose proof (valZ_pos mx ex ltac:(lia)). lia.
      * rewrite SFadd_comm.
        destruct (SFadd_lower my ey (S754_finite false mx ex) Hy Hx eq_refl)
          as [Hinf | (m & e & HR & Hle)].
        -- left. exact Hinf.
        -- right. exists (valZ m e). rewrite HR. split; [reflexivity | lia].
Qed.

Lemma add_above_l x y vx : value x = Some vx -> nonneg y -> above vx (x + y)%float.
Proof.
  unfold value, nonneg, above. rewrite FloatAxioms.add_spec.
  apply SFadd_above_l; apply Prim2SF_valid.
Qed.

Lemma add_above_r x y v : nonneg x -> above v y -> above v (x + y)%float.
Proof.
  unfold nonneg, above. rewrite FloatAxioms.add_spec.
  apply SFadd_above_r; apply Prim2SF_valid.
Qed.

(** A product is not below a binary64 that the exact product is not
    below. *)
Lemma SFmul_lower mx ex my ey mF eF :
  valid_binary (S754_finite false mx ex) = true ->
  valid_binary (S754_finite false my ey) = true ->
  valid_binary (S754_finite false mF eF) = true ->
  valid_binary (SF64mul (S754_finite false mx ex) (S754_finite false my ey)) = true ->
  valZ mF eF * one_value <= valZ mx ex * valZ my ey ->
  SFabove (valZ mF eF) (SF64mul (S754_finite false mx ex) (S754_finite false my ey)).
Proof.
  intros Hx Hy HF HR Hle. unfold SF64mul, SFmul in *. cbn [xorb] in *.
  pose proof (valid_finite_inv _ _ _ Hx) as (Hex & _).
  pose proof (valid_finite_inv _ _ _ Hy) as (Hey & _).
  pose proof (valid_canonical _ _ _ HF) as [_ HeF].
  assert (Hscaled : Z.pos mF * 2 ^ (eF - -2148)
                    <= Z.pos (mx * my) * 2 ^ (ex + ey - -2148)).
  { unfold valZ, one_value in Hle. rewrite Pos2Z.inj_mul.
    replace (ex + ey - -2148) with ((ex + 1074) + (ey + 1074)) by lia.
    replace (eF - -2148) with ((eF + 1074) + 1074) by lia.
    rewrite (Z.pow_add_r 2 (ex + 1074) (ey + 1074)) by lia.
    rewrite (Z.pow_add_r 2 (eF + 1074) 1074) by lia. lia. }
  destruct (bra_lower (Z.pos (mx * my)) (ex + ey) loc_Exact mF eF (-2148))
    as [Hinf | (m & e & HRe & He & Hv)]; try lia; try assumption.
  - left. exact Hinf.
  - right. exists (valZ m e). rewrite HRe in *. split; [reflexivity |].
    pose proof (valid_canonical _ _ _ HR) as [_ HeR].
    apply (scaled_to_valZ mF eF m e (-2148)); [lia | lia | lia | lia | exact Hv].
Qed.

Lemma mul_above x y vx vy mF eF :
  above vx x -> 0 < vx -> value y = Some vy -> 0 < vy ->
  valid_binary (S754_finite false mF eF) = true ->
  valZ mF eF * one_value <= vx * vy ->
  above (valZ mF eF) (x * y)%float.
Proof.
  unfold above, value. intros Hx Hpos Vy Hvy HF Hle.
  pose proof (Prim2SF_valid x) as Hvx. pose proof (Prim2SF_valid y) as Hvy'.
  pose proof (Prim2SF_valid (x * y)%float) as HR. rewrite FloatAxioms.mul_spec in *.
  destruct (Prim2SF y) as [sy | sy | | [] my ey]; simpl in Vy; try discriminate;
    injection Vy as <-; [lia |].
  destruct Hx as [-> | (vx' & Vx & Hge)]; [left; reflexivity |].
  destruct (Prim2SF x) as [sx | sx | | [] mx ex]; simpl in Vx; try discriminate;
    injection Vx as <-; [lia |].
  apply SFmul_lower; try assumption.
  pose proof (valZ_pos my ey) as Hp.
  pose proof (valid_finite_inv _ _ _ Hvy') as (Hey & _).
  apply Z.le_trans with (vx * valZ my ey); [exact Hle |].
  apply Z.mul_le_mono_nonneg_r; lia.
Qed.

(** Comparisons with a number that is plus infinity or large. *)
Lemma leb_above a x va v :
  value a = Some va -> above v x -> va <= v -> (a <=? x)%float = true.
Proof.
  intros Va [Hinf | (vx & Vx & Hv)] Hle.
  - rewrite FloatAxioms.leb_spec, Hinf. unfold value in Va.
    destruct (Prim2SF a) as [s | s | | [] m e]; simpl in Va; try discriminate; reflexivity.
  - rewrite (value_leb a x va vx Va Vx). apply Z.leb_le. lia.
Qed.

Lemma ltb_infinity a va x :
  value a = Some va -> Prim2SF x = S754_infinity false -> (a <? x)%float = true.
Proof.
  intros Va Hinf. rewrite FloatAxioms.ltb_spec, Hinf. unfold value in Va.
  destruct (Prim2SF a) as [s | s | | [] m e]; simpl in Va; try discriminate; reflexivity.
Qed.

End Binary64.

(** ** The token-bucket limiter *)

Module RateLimit.
Import Go.

(** [float64(n)] for an [int]: the nearest binary64, ties to even. *)
Definition float64_of_int (n : Z) : float :=
  if n <? 0 then
    if n =? Int64.min_int then (-0x1p63)%float
    else (- PrimFloat.of_uint63 (Uint63.of_Z (- n)))%float
  else PrimFloat.of_uint63 (Uint63.of_Z n).

(** [int64(f)], as in [time.Duration(f)]: the fraction is dropped. For
    a value that is not a number or is out of range Go leaves the
    result to the machine; amd64 gives the least [int64]. *)
Definition int64_of_float (f : float) : Z :=
  match Prim2SF f with
  | S754_zero _ => 0
  | S754_finite s m e =>
      let magnitude :=
        if 0 <=? e then Z.pos m * 2 ^ e else Z.pos m / 2 ^ (- e) in
      let z := if s then - magnitude else magnitude in
      if (Int64.min_int <=? z) && (z <=? Int64.max_int) then z else Int64.min_int
  | S754_infinity _ | S754_nan => Int64.min_int
  end.

(** [d.Seconds()] *)
Definition Duration_Seconds (d : Z) : float :=
  let sec := Z.quot d Second in
  let nsec := Z.rem d Second in
  (float64_of_int sec + float64_of_int nsec / 1e9)%float.

(** The [min] of the package. *)
Definition min (a b : float) : float := if (a <? b)%float then a else b.

Record bucket := {
  tokens : float;
  lastRefill : Z
}.

Record tokenBucket := {
  rate : float;
  burst : Z;
  buckets : gmap string bucket
}.

Definition NewTokenBucket (requestsPerSecond burst : Z) : tokenBucket :=
  {| rate := float64_of_int requestsPerSecond; burst := burst; buckets := ∅ |}.

Definition with_bucket (tb : tokenBucket) (key : string) (b : bucket) : tokenBucket :=
  {| rate := rate tb; burst := burst tb; buckets := <[key := b]> (buckets tb) |}.

(** The bucket [Allow] works on: the one of the key, or a new one made
    when the clock reads [created]. *)
Definition bucket_for (tb : tokenBucket) (key : string) (created : Z) : bucket :=
  match buckets tb !! key with
  | Some b => b
  | None => {| tokens := float64_of_int (burst tb); lastRefill := created |}
  end.

(** The refill of [Allow]. The product and the sum are each rounded to
    binary64, as the compiler does on amd64. *)
Definition refill (tb : tokenBucket) (b : bucket) (now : Z) : float :=
  let elapsed := Duration_Seconds (Time_Sub now (lastRefill b)) in
  min (float64_of_int (burst tb)) (tokens b + elapsed * rate tb)%float.

(** [tb.Allow(key)]. The clock is read twice: [created] when a bucket
    is made for a new key, [now] once the bucket is locked. *)
Definition Allow (tb : tokenBucket) (key : string) (created now : Z) : tokenBucket * bool :=
  let b := bucket_for tb key created in
  let tokens' := refill tb b now in
  if (1 <=? tokens')%float
  then (with_bucket tb key {| tokens := (tokens' - 1)%float; lastRefill := now |}, true)
  else (with_bucket tb key {| tokens := tokens'; lastRefill := now |}, false).

(** [tb.Wait(key)]: the limiter afterwards and the duration. *)
Definition Wait (tb : tokenBucket) (key : string) : tokenBucket * Z :=
  match buckets tb !! key with
  | None => (tb, 0)
  | Some b =>
      if (1 <=? tokens b)%float then (tb, 0)
      else
        let tokensNeeded := (1 - tokens b)%float in
        let waitTime :=
          Int64.mul (int64_of_float (tokensNeeded / rate tb * 1000)%float) Millisecond in
        (tb, waitTime)
  end.

(** One turn of [cleanup] when the ticker fires and the clock reads
    [now]: the buckets idle for more than five minutes are deleted. *)
Definition sweep (tb : tokenBucket) (now : Z) : tokenBucket :=
  {| rate := rate tb; burst := burst tb;
     buckets := filter (fun kb => ~ (5 * 60 * Second < Time_Sub now (lastRefill (snd kb))))
                       (buckets tb) |}.

(** [n] calls of [Allow] for one key, the clock reading [now] at each:
    the limiter afterwards and the answers, the first call first. *)
Fixpoint allow_n (n : nat) (tb : tokenBucket) (key : string) (now : Z) : tokenBucket * list bool :=
  match n with
  | O => (tb, [])
  | S n' =>
      let (tb1, ok) := Allow tb key now now in
      let (tb2, oks) := allow_n n' tb1 key now in
      (tb2, ok :: oks)
  end.

(** A call of the limiter, with what the clock reads in it. *)
Inductive call :=
| CallAllow (key : string) (created now : Z)
| CallWait (key : string)
| CallSweep (now : Z).

(** The limiter after a call, and after a list of calls. *)
Definition step (tb : tokenBucket) (c : call) : tokenBucket :=
  match c with
  | CallAllow key created now => fst (Allow tb key created now)
  | CallWait key => fst (Wait tb key)
  | CallSweep now => sweep tb now
  end.

Definition run (tb : tokenBucket) (calls : list call) : tokenBucket :=
  fold_left step calls tb.

(** The clock is monotonic: no reading is before an earlier one. *)
Fixpoint well_timed (clock : Z) (calls : list call) : Prop :=
  match calls with
  | [] => True
  | CallAllow _ created now :: rest =>
      clock <= created /\ created <= now /\ well_timed now rest
  | CallWait _ :: rest => well_timed clock rest
  | CallSweep now :: rest => clock <= now /\ well_timed now rest
  end.

(** The tokens of a bucket are a finite number, not negative and at
    most the burst. *)
Definition tokens_ok (burst : Z) (b : bucket) : Prop :=
  exists v vB, Binary64.value (tokens b) = Some v
               /\ Binary64.value (float64_of_int burst) = Some vB /\ v <= vB.

(** The limiter keeps its rate and burst, every bucket is in range and
    none was refilled after the clock's last reading. *)
Definition limiter_ok (rps burst0 clock : Z) (tb : tokenBucket) : Prop :=
  rate tb = float64_of_int rps /\ burst tb = burst0
  /\ forall key b, buckets tb !! key = Some b ->
       tokens_ok burst0 b /\ lastRefill b <= clock.

(** The calls of a small session on two keys. *)
Definition sample_calls : list call :=
  [CallAllow "k" 0 0; CallAllow "k" 50000000 50000007; CallWait "k";
   CallSweep 60000000; CallAllow "j" 70000000 70000000].

(** Moving every clock reading by the same amount changes nothing. *)
Definition shift_bucket (d : Z) (b : bucket) : bucket :=
  {| tokens := tokens b; lastRefill := lastRefill b + d |}.

Definition shift (d : Z) (tb : tokenBucket) : tokenBucket :=
  {| rate := rate tb; burst := burst tb; buckets := shift_bucket d <$> buckets tb |}.

(** Two floats bound what [Wait] computes for a rate: [F] is at least
    [1/rate], [G] is at least [1000 * F], and the whole milliseconds in
    [G] are no more than [1/rate] seconds. The test works on mantissas
    and exponents. *)
Definition wait_bounds (rps : Z) (F G : float) : bool :=
  match Prim2SF (float64_of_int rps), Prim2SF F, Prim2SF G with
  | S754_finite false mr er, S754_finite false mF eF, S754_finite false mG eG =>
      (if 0 <=? eF + er then true else 2 ^ (- (eF + er)) <=? Z.pos mF * Z.pos mr)
      && (1000 * Z.pos mF * 2 ^ (eF - Z.min eF eG) <=? Z.pos mG * 2 ^ (eG - Z.min eF eG))
      && ((if 0 <=? eG then Z.pos mG * 2 ^ eG else Z.pos mG / 2 ^ (- eG)) * rps <=? 1000)
  | _, _, _ => false
  end.

(** The two floats for a rate of at most 1000 a second. *)
Definition wait_check (rps : Z) : bool :=
  let F := next_up (1 / float64_of_int rps) in
  wait_bounds rps F (next_up (F * 1000)).

(** The answers of the calls of [Allow] among [calls], in their order. *)
Fixpoint answers (tb : tokenBucket) (calls : list call) : list bool :=
  match calls with
  | [] => []
  | c :: rest =>
      match c with
      | CallAllow key created now => [snd (Allow tb key created now)]
      | _ => []
      end ++ answers (step tb c) rest
  end.

(** The limiter has the rate and the burst of its making, and the
    bucket that [Allow] works on for the key was last refilled at the
    instant [now] and holds the whole number [k] of tokens. *)
Definition holds (rps burst0 : Z) (key : string) (now k : Z) (tb : tokenBucket) : Prop :=
  rate tb = float64_of_int rps /\ burst tb = burst0
  /\ lastRefill (bucket_for tb key now) = now
  /\ Binary64.value (tokens (bucket_for tb key now)) = Some (k * Binary64.one_value).

(** The calls without the sweeps. *)
Definition without_sweeps (calls : list call) : list call :=
  List.filter (fun c => match c with CallSweep _ => false | _ => true end) calls.

(** What sweeps change: [swept] has the buckets of [kept], but for keys
    that have been idle for five minutes at least. *)
Definition sweeps_only (rps burst0 clock : Z) (swept kept : tokenBucket) : Prop :=
  rate swept = float64_of_int rps /\ rate kept = float64_of_int rps
  /\ burst swept = burst0 /\ burst kept = burst0
  /\ forall key,
       buckets swept !! key = buckets kept !! key
       \/ (buckets swept !! key = None
           /\ exists b, buckets kept !! key = Some b /\ tokens_ok burst0 b
                        /\ lastRefill b + 300 * Second <= clock).

(** Calls on one key: two at once, a sweep after 400 seconds, one more. *)
Definition swept_calls : list call :=
  [CallAllow "k" 0 0; CallAllow "k" 0 0; CallSweep 400000000000;
   CallAllow "k" 400000000000 400000000000].

(** The whole milliseconds that [Wait] computes for an empty bucket are
    [1000 / rate], rounded down: the test for one rate. *)
Definition wait_empty_check (rps : Z) : bool :=
  int64_of_float (1 / float64_of_int rps * 1000)%float =? 1000 / rps.

Example burst_then_denied :
  snd (allow_n 21 (NewTokenBucket 10 20) "k" 0) = replicate 20 true ++ [false].
Proof. vm_compute. reflexivity. Qed.

Example wait_examples :
  snd (Wait (fst (Allow (NewTokenBucket 10 1) "k" 0 0)) "k") = 100 * Millisecond
  /\ snd (Wait (fst (Allow (NewTokenBucket 2000 1) "k" 0 0)) "k") = 0.
Proof. vm_compute. split; reflexivity. Qed.

(** *** The tokens stay within the burst *)

Import Binary64.

Lemma max_int_eq : Int64.max_int = 2 ^ 63 - 1.
Proof. reflexivity. Qed.

Lemma float64_of_int_nonneg n : 0 <= n <= Int64.max_int -> nonneg (float64_of_int n).
Proof.
  intros Hn. unfold float64_of_int.
  destruct (Z.ltb_spec n 0); [lia |]. apply of_uint63_nonneg.
  rewrite max_int_eq in Hn. lia.
Qed.

Lemma float64_of_int_value n :
  1 <= n <= Int64.max_int ->
  exists v, value (float64_of_int n) = Some v /\ one_value <= v <= 2 ^ 63 * one_value.
Proof.
  intros Hn. unfold float64_of_int.
  destruct (Z.ltb_spec n 0); [lia |]. apply of_uint63_value.
  rewrite max_int_eq in Hn. lia.
Qed.

Lemma value_1e9 : value 1e9%float = Some (1000000000 * one_value).
Proof. vm_compute. reflexivity. Qed.

Lemma Duration_Seconds_nonneg d :
  0 <= d <= Int64.max_int -> nonneg (Duration_Seconds d).
Proof.
  intros Hd. unfold Duration_Seconds, Second.
  assert (Hq : 0 <= Z.quot d 1000000000 <= d).
  { split; [apply Z.quot_pos; lia |].
    rewrite Z.quot_div_nonneg by lia. apply Z.div_le_upper_bound; lia. }
  assert (Hr : 0 <= Z.rem d 1000000000 < 1000000000) by (apply Z.rem_bound_pos; lia).
  pose proof one_value_pos.
  apply add_nonneg.
  - apply float64_of_int_nonneg. lia.
  - assert (Hn : nonneg (float64_of_int (Z.rem d 1000000000))).
    { apply float64_of_int_nonneg. rewrite max_int_eq. lia. }
    apply (div_nonneg _ _ _ Hn value_1e9). lia.
Qed.

Lemma Time_Sub_range now last :
  last <= now -> 0 <= Time_Sub now last <= Int64.max_int.
Proof. unfold Time_Sub, Int64.clamp, Int64.max_int, Int64.min_int. lia. Qed.

(** The refill leaves a finite number of tokens that is not negative
    and at most the burst. *)
Lemma refill_ok rps burst0 tb b now :
  1 <= rps <= Int64.max_int ->
  rate tb = float64_of_int rps -> burst tb = burst0 ->
  tokens_ok burst0 b -> lastRefill b <= now ->
  tokens_ok burst0 {| tokens := refill tb b now; lastRefill := now |}.
Proof.
  intros Hrps Hrate Hburst (v & vB & Vt & VB & Hle) Hclock.
  unfold tokens_ok; simpl. unfold refill, min. rewrite Hrate, Hburst.
  set (elapsed := Duration_Seconds (Time_Sub now (lastRefill b))).
  assert (He : nonneg elapsed).
  { apply Duration_Seconds_nonneg, Time_Sub_range, Hclock. }
  destruct (float64_of_int_value rps Hrps) as (vr & Vr & Hvr & _).
  pose proof one_value_pos as H1.
  assert (Hx : nonneg (tokens b + elapsed * float64_of_int rps)).
  { apply add_nonneg; [apply (value_nonneg _ _ Vt) |].
    apply (mul_nonneg _ _ vr He Vr). lia. }
  destruct (float64_of_int burst0 <? tokens b + elapsed * float64_of_int rps)%float eqn:Hlt.
  - exists vB, vB. split; [exact VB |]. split; [exact VB | lia].
  - destruct (nonneg_not_above _ _ vB Hx VB Hlt) as (vx & Vx & Hvx).
    exists vx, vB. auto.
Qed.

Lemma take_token_ok burst0 t now :
  tokens_ok burst0 {| tokens := t; lastRefill := now |} ->
  (1 <=? t)%float = true ->
  tokens_ok burst0 {| tokens := (t - 1)%float; lastRefill := now |}.
Proof.
  intros (v & vB & Vt & VB & Hle) H1. simpl in Vt. unfold tokens_ok; simpl.
  rewrite (value_leb 1 t one_value v value_one Vt) in H1. apply Z.leb_le in H1.
  destruct (sub_value t 1 v one_value Vt value_one H1) as (v' & Vs & Hv').
  exists v', vB. split; [exact Vs |]. split; [exact VB | lia].
Qed.

Lemma fresh_bucket_ok burst0 created :
  1 <= burst0 <= Int64.max_int ->
  tokens_ok burst0 {| tokens := float64_of_int burst0; lastRefill := created |}.
Proof.
  intros Hb. destruct (float64_of_int_value burst0 Hb) as (vB & VB & _).
  exists vB, vB. simpl. split; [exact VB |]. split; [exact VB | lia].
Qed.

Lemma limiter_ok_with_bucket rps burst0 clock now tb key b :
  limiter_ok rps burst0 clock tb -> clock <= now ->
  tokens_ok burst0 b -> lastRefill b <= now ->
  limiter_ok rps burst0 now (with_bucket tb key b).
Proof.
  intros (Hrate & Hburst & Hall) Hclock Hb Hlast.
  split; [exact Hrate |]. split; [exact Hburst |]. simpl.
  intros k b' Hk. destruct (decide (key = k)) as [-> | Hne].
  - rewrite lookup_insert_eq in Hk. injection Hk as <-. auto.
  - rewrite lookup_insert_ne in Hk by exact Hne.
    destruct (Hall k b' Hk) as [Hok Hl]. split; [exact Hok | lia].
Qed.

Lemma Allow_ok rps burst0 clock tb key created now :
  1 <= rps <= Int64.max_int -> 1 <= burst0 <= Int64.max_int ->
  limiter_ok rps burst0 clock tb -> clock <= created -> created <= now ->
  limiter_ok rps burst0 now (fst (Allow tb key created now)).
Proof.
  intros Hrps Hb Hok Hc1 Hc2. pose proof Hok as (Hrate & Hburst & Hall).
  assert (Hbucket : tokens_ok burst0 (bucket_for tb key created)
                    /\ lastRefill (bucket_for tb key created) <= now).
  { unfold bucket_for. destruct (buckets tb !! key) as [b |] eqn:Hk.
    - destruct (Hall key b Hk). split; [assumption | lia].
    - rewrite Hburst. split; [apply fresh_bucket_ok, Hb | simpl; lia]. }
  destruct Hbucket as [Hbok Hlast].
  pose proof (refill_ok rps burst0 tb _ now Hrps Hrate Hburst Hbok Hlast) as Hrefill.
  unfold Allow.
  destruct (1 <=? refill tb (bucket_for tb key created) now)%float eqn:H1; simpl.
  - apply (limiter_ok_with_bucket rps burst0 clock); [exact Hok | lia | | simpl; lia].
    apply take_token_ok; assumption.
  - apply (limiter_ok_with_bucket rps burst0 clock); [exact Hok | lia | | simpl; lia].
    exact Hrefill.
Qed.

Lemma Wait_unchanged tb key : fst (Wait tb key) = tb.
Proof.
  unfold Wait. destruct (buckets tb !! key) as [b |]; [| reflexivity].
  destruct (1 <=? tokens b)%float; reflexivity.
Qed.

Lemma limiter_ok_later rps burst0 clock now tb :
  limiter_ok rps burst0 clock tb -> clock <= now -> limiter_ok rps burst0 now tb.
Proof.
  intros (Hrate & Hburst & Hall) Hle. split; [exact Hrate |]. split; [exact Hburst |].
  intros k b Hk. destruct (Hall k b Hk). split; [assumption | lia].
Qed.

Lemma sweep_ok rps burst0 clock tb now :
  limiter_ok rps burst0 clock tb -> limiter_ok rps burst0 clock (sweep tb now).
Proof.
  intros (Hrate & Hburst & Hall). split; [exact Hrate |]. split; [exact Hburst |].
  simpl. intros k b Hk. apply map_lookup_filter_Some in Hk as [Hk _].
  exact (Hall k b Hk).
Qed.

Lemma run_ok rps burst0 calls : forall clock tb,
  1 <= rps <= Int64.max_int -> 1 <= burst0 <= Int64.max_int ->
  limiter_ok rps burst0 clock tb -> well_timed clock calls ->
  exists clock', limiter_ok rps burst0 clock' (run tb calls).
Proof.
  unfold run. induction calls as [| c calls IH]; intros clock tb Hrps Hb Hok Ht; simpl.
  - exists clock. exact Hok.
  - destruct c as [key created now | key | now]; simpl in Ht |- *.
    + destruct Ht as (H1 & H2 & Ht).
      apply (IH now); try assumption. apply (Allow_ok rps burst0 clock); assumption.
    + rewrite Wait_unchanged. apply (IH clock); assumption.
    + destruct Ht as [H1 Ht]. apply (IH now); try assumption.
      apply (limiter_ok_later rps burst0 clock); [| exact H1].
      apply sweep_ok, Hok.
Qed.

Lemma New_ok rps burst0 clock : limiter_ok rps burst0 clock (NewTokenBucket rps burst0).
Proof.
  split; [reflexivity |]. split; [reflexivity |]. simpl.
  intros k b Hk. rewrite lookup_empty in Hk. discriminate.
Qed.

(** C5. With a positive rate and a positive burst, and a clock that
    never goes back, after any calls of [Allow] and [Wait], and sweeps
    of idle buckets, every bucket holds a number of tokens that is at
    least 0 and at most the burst. *)
Theorem tokens_within_burst (rps burst0 clock : Z) (calls : list call)
    (key : string) (b : bucket) :
  1 <= rps <= Int64.max_int -> 1 <= burst0 <= Int64.max_int ->
  well_timed clock calls ->
  buckets (run (NewTokenBucket rps burst0) calls) !! key = Some b ->
  (0 <=? tokens b)%float = true
  /\ (tokens b <=? float64_of_int burst0)%float = true.
Proof.
  intros Hrps Hb Ht Hk.
  destruct (run_ok rps burst0 calls clock (NewTokenBucket rps burst0) Hrps Hb
              (New_ok rps burst0 clock) Ht) as (clock' & _ & _ & Hall).
  destruct (Hall key b Hk) as [(v & vB & Vt & VB & Hle) _].
  split.
  - rewrite (value_leb 0 (tokens b) 0 v value_zero Vt). apply Z.leb_le.
    apply (value_ge_0 _ _ Vt).
  - rewrite (value_leb _ _ v vB Vt VB). apply Z.leb_le, Hle.
Qed.

Lemma tokens_within_burst_witness :
  exists b, buckets (run (NewTokenBucket 10 20) sample_calls) !! "k" = Some b
            /\ (0 <=? tokens b)%float = true
            /\ (tokens b <=? float64_of_int 20)%float = true.
Proof.
  eexists. split.
  - vm_compute. reflexivity.
  - apply (tokens_within_burst 10 20 0 sample_calls "k").
    + rewrite max_int_eq. lia.
    + rewrite max_int_eq. lia.
    + simpl. lia.
    + vm_compute. reflexivity.
Defined.

(** *** What [Allow] does *)

Lemma Allow_rate_burst tb key created now :
  rate (fst (Allow tb key created now)) = rate tb
  /\ burst (fst (Allow tb key created now)) = burst tb.
Proof.
  unfold Allow. destruct (1 <=? refill tb (bucket_for tb key created) now)%float;
    split; reflexivity.
Qed.

Lemma Allow_other_key tb key created now k :
  k <> key -> buckets (fst (Allow tb key created now)) !! k = buckets tb !! k.
Proof.
  intros Hne. unfold Allow.
  destruct (1 <=? refill tb (bucket_for tb key created) now)%float; simpl;
    apply lookup_insert_ne; congruence.
Qed.

(** What [Allow] does for a key is settled by the bucket of the key,
    the rate and the burst. *)
Lemma Allow_local tb1 tb2 key created now :
  rate tb1 = rate tb2 -> burst tb1 = burst tb2 ->
  buckets tb1 !! key = buckets tb2 !! key ->
  snd (Allow tb1 key created now) = snd (Allow tb2 key created now)
  /\ buckets (fst (Allow tb1 key created now)) !! key
     = buckets (fst (Allow tb2 key created now)) !! key.
Proof.
  intros Hr Hb Hk. unfold Allow.
  assert (Hbf : bucket_for tb1 key created = bucket_for tb2 key created).
  { unfold bucket_for. rewrite Hk, Hb. reflexivity. }
  assert (Hrf : refill tb1 (bucket_for tb1 key created) now
                = refill tb2 (bucket_for tb2 key created) now).
  { unfold refill. rewrite Hbf, Hr, Hb. reflexivity. }
  rewrite Hrf.
  destruct (1 <=? refill tb2 (bucket_for tb2 key created) now)%float; simpl;
    rewrite !lookup_insert_eq; auto.
Qed.

(** A first call finds the bucket full: the refill leaves the burst. *)
Lemma refill_fresh rps tb created now :
  1 <= rps <= Int64.max_int -> 1 <= burst tb <= Int64.max_int ->
  rate tb = float64_of_int rps -> created <= now ->
  refill tb {| tokens := float64_of_int (burst tb); lastRefill := created |} now
  = float64_of_int (burst tb).
Proof.
  intros Hrps Hb Hrate Hclock. unfold refill, min. simpl. rewrite Hrate.
  set (elapsed := Duration_Seconds (Time_Sub now created)).
  destruct (float64_of_int_value rps Hrps) as (vr & Vr & Hvr & _).
  destruct (float64_of_int_value (burst tb) Hb) as (vB & VB & HvB & _).
  pose proof one_value_pos as H1.
  assert (Hy : nonneg (elapsed * float64_of_int rps)).
  { apply (mul_nonneg _ _ vr); [| exact Vr | lia].
    apply Duration_Seconds_nonneg, Time_Sub_range, Hclock. }
  destruct (add_nonneg_ge (float64_of_int (burst tb)) _ vB VB ltac:(lia) Hy) as [E | L].
  - rewrite E. destruct (_ <? _)%float; reflexivity.
  - rewrite L. reflexivity.
Qed.

Lemma Time_Sub_shift now last d : Time_Sub (now + d) (last + d) = Time_Sub now last.
Proof. unfold Time_Sub. f_equal. lia. Qed.

Lemma Allow_shift d tb key created now :
  Allow (shift d tb) key (created + d) (now + d)
  = (shift d (fst (Allow tb key created now)), snd (Allow tb key created now)).
Proof.
  unfold Allow.
  assert (Hbf : bucket_for (shift d tb) key (created + d)
                = shift_bucket d (bucket_for tb key created)).
  { unfold bucket_for. simpl. rewrite lookup_fmap.
    destruct (buckets tb !! key); reflexivity. }
  assert (Hrf : refill (shift d tb) (bucket_for (shift d tb) key (created + d)) (now + d)
                = refill tb (bucket_for tb key created) now).
  { unfold refill. rewrite Hbf. simpl. rewrite Time_Sub_shift. reflexivity. }
  rewrite Hrf.
  destruct (1 <=? refill tb (bucket_for tb key created) now)%float; simpl;
    unfold with_bucket, shift; simpl; rewrite fmap_insert; reflexivity.
Qed.

Lemma allow_n_shift d n : forall tb key now,
  allow_n n (shift d tb) key (now + d)
  = (shift d (fst (allow_n n tb key now)), snd (allow_n n tb key now)).
Proof.
  induction n as [| n IH]; intros tb key now; simpl; [reflexivity |].
  rewrite Allow_shift.
  destruct (Allow tb key now now) as [tb1 ok]. simpl.
  rewrite IH. destruct (allow_n n tb1 key now) as [tb2 oks]. reflexivity.
Qed.

Lemma shift_New d rps burst0 :
  shift d (NewTokenBucket rps burst0) = NewTokenBucket rps burst0.
Proof. unfold shift, NewTokenBucket. simpl. rewrite fmap_empty. reflexivity. Qed.

Lemma burst_at_any_instant (now : Z) :
  snd (allow_n 21 (NewTokenBucket 10 20) "k" now) = replicate 20 true ++ [false].
Proof.
  rewrite <- (shift_New now 10 20).
  replace now with (0 + now) at 2 by lia.
  rewrite allow_n_shift. simpl snd. apply burst_then_denied.
Qed.

(** C4. [Allow] works on the bucket of the key, or for a new key on a
    bucket holding [burst] tokens made at the instant of the call; it
    sets the tokens to [min(burst, tokens + elapsed * rate)] and
    [lastRefill] to [now]; it answers true and takes one token exactly
    when the tokens are then at least 1, and otherwise leaves them as
    refilled. It touches no other bucket, so what it does for a key does
    not depend on calls for other keys. A first call for a key, with a
    positive rate and burst, is admitted and leaves [burst - 1] tokens.
    With rate 10 and burst 20 and the clock standing still, 20 calls in
    a row are admitted and the 21st is denied. *)
Theorem Allow_semantics (tb : tokenBucket) (key : string) (created now : Z) :
  let b0 := match buckets tb !! key with
            | Some b => b
            | None => {| tokens := float64_of_int (burst tb); lastRefill := created |}
            end in
  let elapsed := Duration_Seconds (Time_Sub now (lastRefill b0)) in
  let t := min (float64_of_int (burst tb)) (tokens b0 + elapsed * rate tb)%float in
  let tb' := fst (Allow tb key created now) in
  let ok := snd (Allow tb key created now) in
  ok = (1 <=? t)%float
  /\ buckets tb' !! key
     = Some {| tokens := if ok then (t - 1)%float else t; lastRefill := now |}
  /\ (forall k, k <> key -> buckets tb' !! k = buckets tb !! k)
  /\ rate tb' = rate tb /\ burst tb' = burst tb
  /\ (forall k other_created other_now, k <> key ->
        let tb1 := fst (Allow tb k other_created other_now) in
        snd (Allow tb1 key created now) = ok
        /\ buckets (fst (Allow tb1 key created now)) !! key = buckets tb' !! key)
  /\ (forall rps, buckets tb !! key = None ->
        1 <= rps <= Int64.max_int -> 1 <= burst tb <= Int64.max_int ->
        rate tb = float64_of_int rps -> created <= now ->
        ok = true
        /\ buckets tb' !! key
           = Some {| tokens := (float64_of_int (burst tb) - 1)%float; lastRefill := now |})
  /\ (forall instant,
        snd (allow_n 21 (NewTokenBucket 10 20) "k" instant) = replicate 20 true ++ [false]).
Proof.
  intros b0 elapsed t tb' ok.
  assert (Ht : refill tb (bucket_for tb key created) now = t) by reflexivity.
  assert (Hok : ok = (1 <=? t)%float).
  { unfold ok, Allow. rewrite Ht. destruct (1 <=? t)%float; reflexivity. }
  assert (Hb : buckets tb' !! key
               = Some {| tokens := if ok then (t - 1)%float else t; lastRefill := now |}).
  { rewrite Hok. unfold tb', Allow. rewrite Ht.
    destruct (1 <=? t)%float; simpl; apply lookup_insert_eq. }
  split; [exact Hok |]. split; [exact Hb |].
  split; [intros k Hk; apply Allow_other_key, Hk |].
  split; [apply Allow_rate_burst |]. split; [apply Allow_rate_burst |].
  split; [| split].
  - intros k oc on Hk tb1.
    destruct (Allow_rate_burst tb k oc on) as [Hr Hbu].
    apply Allow_local; [exact Hr | exact Hbu |].
    apply Allow_other_key. congruence.
  - intros rps Hnone Hrps Hburst Hrate Hclock.
    assert (Hfull : t = float64_of_int (burst tb)).
    { rewrite <- Ht. unfold bucket_for. rewrite Hnone.
      apply (refill_fresh rps); assumption. }
    destruct (float64_of_int_value (burst tb) Hburst) as (vB & VB & HvB & _).
    assert (H1 : (1 <=? t)%float = true).
    { rewrite Hfull, (value_leb 1 _ one_value vB value_one VB). apply Z.leb_le. lia. }
    rewrite Hb, Hok, H1, Hfull. auto.
  - apply burst_at_any_instant.
Qed.

Lemma Allow_semantics_witness :
  let tb := NewTokenBucket 10 20 in
  snd (Allow tb "k" 5 7) = true
  /\ buckets (fst (Allow tb "k" 5 7)) !! "k"
     = Some {| tokens := 19%float; lastRefill := 7 |}
  /\ snd (Allow (fst (Allow tb "j" 1 2)) "k" 5 7) = true.
Proof.
  intros tb.
  pose proof (Allow_semantics tb "k" 5 7) as (_ & _ & _ & _ & _ & Hother & Hfirst & _).
  cbv zeta in Hother, Hfirst.
  destruct (Hfirst 10) as [Hok Hb].
  - reflexivity.
  - rewrite max_int_eq. lia.
  - rewrite max_int_eq. simpl. lia.
  - reflexivity.
  - lia.
  - split; [exact Hok |]. split.
    + rewrite Hb. vm_compute. reflexivity.
    + destruct (Hother "j" 1 2) as [H _]; [discriminate |].
      rewrite H. exact Hok.
Defined.

(** *** What [Wait] returns *)

(** The whole part of a value. *)
Lemma valZ_floor m e :
  -1074 <= e ->
  valZ m e / one_value = if 0 <=? e then Z.pos m * 2 ^ e else Z.pos m / 2 ^ (- e).
Proof.
  intros He. unfold valZ, one_value. destruct (Z.leb_spec 0 e).
  - rewrite Z.pow_add_r, Z.mul_assoc by lia. apply Z.div_mul. lia.
  - replace 1074 with (e + 1074 + - e) at 2 by lia.
    rewrite (Z.pow_add_r 2 (e + 1074) (- e)) by lia.
    rewrite (Z.mul_comm (2 ^ (e + 1074)) (2 ^ (- e))).
    apply Z.div_mul_cancel_r; apply Z.pow_nonzero; lia.
Qed.

(** The conversion to an integer drops the fraction of the value. *)
Lemma int64_of_float_value w v :
  value w = Some v -> v / one_value <= Int64.max_int ->
  int64_of_float w = v / one_value.
Proof.
  unfold value, int64_of_float. intros Vw Hmax.
  pose proof (Prim2SF_valid w) as Hv. pose proof one_value_pos as H1.
  destruct (Prim2SF w) as [s | s | | [] m e]; simpl in Vw; try discriminate;
    injection Vw as <-.
  - symmetry. apply Z.div_0_l. lia.
  - pose proof (valid_canonical _ _ _ Hv) as [_ He].
    rewrite <- (valZ_floor m e) by lia.
    assert (0 <= valZ m e / one_value).
    { apply Z.div_pos; [| lia]. pose proof (valZ_pos m e). lia. }
    replace (Int64.min_int <=? valZ m e / one_value) with true
      by (symmetry; apply Z.leb_le; unfold Int64.min_int; lia).
    replace (valZ m e / one_value <=? Int64.max_int) with true
      by (symmetry; apply Z.leb_le; lia).
    reflexivity.
Qed.

Lemma value_1000 : value 1000%float = Some (1000 * one_value).
Proof. vm_compute. reflexivity. Qed.

Lemma wait_check_small :
  forallb wait_check (map Z.of_nat (seq 1 1000)) = true.
Proof. vm_compute. reflexivity. Qed.

Lemma wait_check_large : wait_bounds 1001 0x1.06p-10%float 0x1.ffcp-1%float = true.
Proof. vm_compute. reflexivity. Qed.

(** What the test of [wait_bounds] says about values. *)
Lemma wait_bounds_sound rps F G :
  wait_bounds rps F G = true ->
  exists vr mF eF mG eG,
    value (float64_of_int rps) = Some vr
    /\ Prim2SF F = S754_finite false mF eF /\ Prim2SF G = S754_finite false mG eG
    /\ one_value * one_value <= valZ mF eF * vr
    /\ valZ mF eF * (1000 * one_value) <= valZ mG eG * one_value
    /\ valZ mG eG / one_value * rps <= 1000.
Proof.
  unfold wait_bounds. intros H.
  pose proof (Prim2SF_valid (float64_of_int rps)) as Hvr.
  pose proof (Prim2SF_valid F) as HvF. pose proof (Prim2SF_valid G) as HvG.
  destruct (Prim2SF (float64_of_int rps)) as [| | | [] mr er] eqn:Er; try discriminate.
  destruct (Prim2SF F) as [| | | [] mF eF] eqn:EF; try discriminate.
  destruct (Prim2SF G) as [| | | [] mG eG] eqn:EG; try discriminate.
  apply andb_true_iff in H as [H H3]. apply andb_true_iff in H as [H1 H2].
  apply Z.leb_le in H2, H3.
  pose proof (valid_canonical _ _ _ Hvr) as [_ Her].
  pose proof (valid_canonical _ _ _ HvF) as [_ HeF].
  pose proof (valid_canonical _ _ _ HvG) as [_ HeG].
  exists (valZ mr er), mF, eF, mG, eG.
  split; [unfold value; rewrite Er; reflexivity |].
  split; [reflexivity |]. split; [reflexivity |]. split; [| split].
  - unfold valZ, one_value.
    replace (Z.pos mF * 2 ^ (eF + 1074) * (Z.pos mr * 2 ^ (er + 1074)))
      with (Z.pos mF * Z.pos mr * (2 ^ (eF + 1074) * 2 ^ (er + 1074))) by ring.
    rewrite <- !Z.pow_add_r by lia.
    destruct (Z.leb_spec 0 (eF + er)).
    + assert (2 ^ (1074 + 1074) <= 2 ^ (eF + 1074 + (er + 1074)))
        by (apply Z.pow_le_mono_r; lia).
      nia.
    + apply Z.leb_le in H1.
      replace (1074 + 1074) with (- (eF + er) + (eF + 1074 + (er + 1074))) by lia.
      rewrite Z.pow_add_r by lia.
      apply Z.mul_le_mono_nonneg_r; [apply Z.pow_nonneg; lia | exact H1].
  - unfold valZ.
    replace (Z.pos mF * 2 ^ (eF + 1074) * (1000 * one_value))
      with (1000 * Z.pos mF * 2 ^ (eF + 1074) * one_value) by ring.
    apply Z.mul_le_mono_nonneg_r; [pose proof one_value_pos; lia |].
    replace (eF + 1074) with (eF - Z.min eF eG + (Z.min eF eG + 1074)) by lia.
    replace (eG + 1074) with (eG - Z.min eF eG + (Z.min eF eG + 1074)) by lia.
    apply scaled_le_shift; [lia | lia | lia | lia | exact H2].
  - rewrite valZ_floor by lia. exact H3.
Qed.

(** For every rate there are two such floats. *)
Lemma wait_floats rps :
  1 <= rps <= Int64.max_int ->
  exists vr mF eF mG eG,
    value (float64_of_int rps) = Some vr
    /\ valid_binary (S754_finite false mF eF) = true
    /\ valid_binary (S754_finite false mG eG) = true
    /\ one_value * one_value <= valZ mF eF * vr
    /\ valZ mF eF * (1000 * one_value) <= valZ mG eG * one_value
    /\ valZ mG eG / one_value * rps <= 1000.
Proof.
  intros Hrps. pose proof one_value_pos as H1.
  destruct (Z_le_gt_dec rps 1000) as [Hsmall | Hlarge].
  - assert (Hc : wait_check rps = true).
    { pose proof wait_check_small as Hall. rewrite forallb_forall in Hall.
      apply Hall. apply in_map_iff. exists (Z.to_nat rps). split; [lia |].
      apply in_seq. lia. }
    unfold wait_check in Hc.
    destruct (wait_bounds_sound _ _ _ Hc)
      as (vr & mF & eF & mG & eG & Vr & EF & EG & B1 & B2 & B3).
    exists vr, mF, eF, mG, eG. split; [exact Vr |].
    split; [rewrite <- EF; apply Prim2SF_valid |].
    split; [rewrite <- EG; apply Prim2SF_valid |]. auto.
  - destruct (wait_bounds_sound _ _ _ wait_check_large)
      as (v1001 & mF & eF & mG & eG & V1001 & EF & EG & B1 & B2 & B3).
    assert (E1001 : v1001 = 1001 * one_value).
    { assert (H : value (float64_of_int 1001) = Some (1001 * one_value))
        by (vm_compute; reflexivity).
      congruence. }
    assert (HvG : valid_binary (S754_finite false mG eG) = true)
      by (rewrite <- EG; apply Prim2SF_valid).
    assert (HvF : valid_binary (S754_finite false mF eF) = true)
      by (rewrite <- EF; apply Prim2SF_valid).
    pose proof (valid_canonical _ _ _ HvG) as [_ HeG].
    pose proof (valid_canonical _ _ _ HvF) as [_ HeF].
    pose proof (valZ_pos mG eG ltac:(lia)) as HG0.
    pose proof (valZ_pos mF eF ltac:(lia)) as HF0.
    assert (Hfloor : valZ mG eG / one_value = 0).
    { assert (0 <= valZ mG eG / one_value) by (apply Z.div_pos; lia). lia. }
    (* the float of a rate above 1000 is at least 1001 *)
    assert (Hr : exists vr, value (float64_of_int rps) = Some vr /\ v1001 <= vr).
    { unfold value in V1001.
      pose proof (Prim2SF_valid (float64_of_int 1001)) as Hv.
      destruct (Prim2SF (float64_of_int 1001)) as [| | | [] mL eL];
        simpl in V1001; try discriminate.
      - injection V1001 as <-. lia.
      - injection V1001 as E. unfold float64_of_int.
        destruct (Z.ltb_spec rps 0); [lia |].
        destruct (of_uint63_bounds rps mL eL) as (vr & Vr & Hlo & _).
        + rewrite max_int_eq in Hrps. lia.
        + exact Hv.
        + rewrite E, E1001. apply Z.mul_le_mono_nonneg_r; lia.
        + exists vr. split; [exact Vr | lia]. }
    destruct Hr as (vr & Vr & Hvr).
    exists vr, mF, eF, mG, eG. split; [exact Vr |]. split; [exact HvF |].
    split; [exact HvG |]. split; [| split; [exact B2 |]].
    + apply Z.le_trans with (valZ mF eF * v1001); [exact B1 |].
      apply Z.mul_le_mono_nonneg_l; lia.
    + rewrite Hfloor. lia.
Qed.

(** What [Wait] computes when a token is missing: a whole number of
    milliseconds, not negative, that is no more than [1/rate] seconds. *)
Lemma wait_millis_bound rps t vt :
  1 <= rps <= Int64.max_int ->
  value t = Some vt -> (1 <=? t)%float = false ->
  let millis := int64_of_float ((1 - t) / float64_of_int rps * 1000)%float in
  0 <= millis /\ millis * rps <= 1000.
Proof.
  intros Hrps Vt Hlt millis. pose proof one_value_pos as H1.
  rewrite (value_leb 1 t one_value vt value_one Vt) in Hlt. apply Z.leb_gt in Hlt.
  destruct (wait_floats rps Hrps)
    as (vr & mF & eF & mG & eG & Vr & HvF & HvG & B1 & B2 & B3).
  pose proof (valid_canonical _ _ _ HvF) as [_ HeF].
  pose proof (valZ_pos mF eF ltac:(lia)) as HF0.
  destruct (float64_of_int_value rps Hrps) as (vr' & Vr' & Hvr & _).
  assert (vr' = vr) by congruence. subst vr'.
  destruct (sub_value 1 t one_value vt value_one Vt ltac:(lia)) as (vn & Vn & Hvn).
  pose proof (value_ge_0 _ _ Vn) as Hn0.
  destruct (div_upper (1 - t) (float64_of_int rps) vn vr mF eF Vn Vr ltac:(lia) HvF)
    as (vq & Vq & Hvq).
  { apply Z.le_trans with (one_value * one_value); [| exact B1].
    apply Z.mul_le_mono_nonneg_r; lia. }
  pose proof (value_ge_0 _ _ Vq) as Hq0.
  destruct (mul_upper _ 1000 vq (1000 * one_value) mG eG Vq value_1000 HvG)
    as (vw & Vw & Hvw).
  { apply Z.le_trans with (valZ mF eF * (1000 * one_value)); [| exact B2].
    apply Z.mul_le_mono_nonneg_r; lia. }
  pose proof (value_ge_0 _ _ Vw) as Hw0.
  assert (Hdiv : 0 <= vw / one_value <= valZ mG eG / one_value).
  { split; [apply Z.div_pos; lia | apply Z.div_le_mono; lia]. }
  assert (Hsmall : vw / one_value * rps <= 1000) by nia.
  unfold millis. rewrite (int64_of_float_value _ vw Vw).
  - split; [lia | exact Hsmall].
  - rewrite max_int_eq. nia.
Qed.




(** *** Whole tokens at one instant *)

Lemma float64_of_int_exact n :
  0 <= n < 2 ^ 53 -> value (float64_of_int n) = Some (n * one_value).
Proof.
  intros Hn. unfold float64_of_int. destruct (Z.ltb_spec n 0); [lia |].
  apply of_uint63_exact, Hn.
Qed.

Lemma elapsed_zero now : value (Duration_Seconds (Time_Sub now now)) = Some 0.
Proof.
  unfold Time_Sub. rewrite Z.sub_diag. vm_compute. reflexivity.
Qed.

(** At the instant of the last refill the refill changes nothing. *)
Lemma refill_same_instant tb b now vt vB vr :
  lastRefill b = now -> value (tokens b) = Some vt ->
  value (float64_of_int (burst tb)) = Some vB -> vt <= vB ->
  value (rate tb) = Some vr ->
  value (refill tb b now) = Some vt.
Proof.
  intros Hlast Vt VB Hle Vr. unfold refill, min. rewrite Hlast.
  pose proof (mul_zero _ _ vr (elapsed_zero now) Vr) as Vp.
  pose proof (add_zero _ _ vt Vt Vp) as Vs.
  rewrite (value_ltb _ _ vB vt VB Vs).
  destruct (Z.ltb_spec vB vt); [lia | exact Vs].
Qed.

(** A call of [Allow] whose refill leaves the whole number [k] of
    tokens: it is admitted when [k] is at least 1, and a token is taken
    exactly. *)
Lemma Allow_whole rps burst0 key created now k tb :
  rate tb = float64_of_int rps -> burst tb = burst0 ->
  0 <= k < 2 ^ 53 ->
  value (refill tb (bucket_for tb key created) now) = Some (k * one_value) ->
  snd (Allow tb key created now) = (1 <=? k)
  /\ holds rps burst0 key now (if 1 <=? k then k - 1 else k) (fst (Allow tb key created now)).
Proof.
  intros Hrate Hburst Hk Vrefill. pose proof one_value_pos as H1.
  unfold Allow.
  rewrite (value_leb 1 _ one_value (k * one_value) value_one Vrefill).
  replace (one_value <=? k * one_value) with (1 <=? k).
  2:{ destruct (Z.leb_spec 1 k), (Z.leb_spec one_value (k * one_value)); try reflexivity; nia. }
  destruct (Z.leb_spec 1 k) as [Hge | Hlt]; simpl.
  - split; [reflexivity |]. split; [exact Hrate |]. split; [exact Hburst |].
    unfold bucket_for at 1 3. simpl. rewrite lookup_insert_eq. simpl.
    split; [reflexivity |].
    replace ((k - 1) * one_value) with (k * one_value - one_value) by ring.
    apply (sub_exact _ _ _ _ Vrefill value_one); [nia |].
    destruct (Z.eq_dec k 1) as [-> | Hne]; [left; ring | right].
    replace (k * one_value - one_value) with ((k - 1) * one_value) by ring.
    apply representable_int. lia.
  - split; [reflexivity |]. split; [exact Hrate |]. split; [exact Hburst |].
    unfold bucket_for at 1 3. simpl. rewrite lookup_insert_eq. simpl.
    split; [reflexivity | exact Vrefill].
Qed.

(** One call at the instant of the last refill. *)
Lemma Allow_same_instant rps burst0 key now k tb :
  1 <= rps <= Int64.max_int -> 0 <= k <= burst0 -> burst0 < 2 ^ 53 ->
  holds rps burst0 key now k tb ->
  snd (Allow tb key now now) = (1 <=? k)
  /\ holds rps burst0 key now (if 1 <=? k then k - 1 else k) (fst (Allow tb key now now)).
Proof.
  intros Hrps Hk Hb (Hrate & Hburst & Hlast & Vt).
  destruct (float64_of_int_value rps Hrps) as (vr & Vr & _).
  assert (VB : value (float64_of_int (burst tb)) = Some (burst0 * one_value))
    by (rewrite Hburst; apply float64_of_int_exact; lia).
  pose proof one_value_pos as H1.
  apply Allow_whole; [exact Hrate | exact Hburst | lia |].
  apply (refill_same_instant _ _ _ _ (burst0 * one_value) vr); try assumption.
  - apply Z.mul_le_mono_nonneg_r; lia.
  - rewrite Hrate. exact Vr.
Qed.

Lemma holds_New rps burst0 key now :
  0 <= burst0 < 2 ^ 53 -> holds rps burst0 key now burst0 (NewTokenBucket rps burst0).
Proof.
  intros Hb. split; [reflexivity |]. split; [reflexivity |].
  unfold bucket_for. simpl. rewrite lookup_empty. simpl.
  split; [reflexivity | apply float64_of_int_exact, Hb].
Qed.

Lemma allow_n_same_instant rps burst0 key now (j m : nat) : forall tb,
  1 <= rps <= Int64.max_int -> Z.of_nat j <= burst0 -> burst0 < 2 ^ 53 ->
  holds rps burst0 key now (Z.of_nat j) tb ->
  snd (allow_n (j + m) tb key now) = replicate j true ++ replicate m false.
Proof.
  induction j as [| j IHj].
  - induction m as [| m IHm]; intros tb Hrps Hj Hb Hh; [reflexivity |].
    destruct (Allow_same_instant rps burst0 key now 0 tb Hrps ltac:(lia) Hb Hh) as [Hans Hnext].
    simpl in Hans, Hnext. simpl.
    destruct (Allow tb key now now) as [tb1 ok] eqn:EA. simpl in Hans, Hnext. subst ok.
    specialize (IHm tb1 Hrps Hj Hb Hnext). simpl in IHm.
    destruct (allow_n m tb1 key now) as [tb2 oks]. simpl in IHm |- *. rewrite IHm. reflexivity.
  - intros tb Hrps Hj Hb Hh.
    destruct (Allow_same_instant rps burst0 key now (Z.of_nat (S j)) tb Hrps ltac:(lia) Hb Hh)
      as [Hans Hnext].
    replace (1 <=? Z.of_nat (S j)) with true in Hans, Hnext by (symmetry; apply Z.leb_le; lia).
    replace (Z.of_nat (S j) - 1) with (Z.of_nat j) in Hnext by lia.
    change (S j + m)%nat with (S (j + m)). simpl.
    destruct (Allow tb key now now) as [tb1 ok] eqn:EA. simpl in Hans, Hnext. subst ok.
    specialize (IHj tb1 Hrps ltac:(lia) Hb Hnext).
    destruct (allow_n (j + m) tb1 key now) as [tb2 oks]. simpl in IHj |- *. rewrite IHj.
    reflexivity.
Qed.

(** X12. The burst at one instant. For a rate of at least one a
    second and a burst below [2^53], the calls for a new key that are
    made while the clock stands are admitted until as many as the burst
    have been, and every call after them is denied. *)
Theorem burst_at_one_instant (rps burst0 : Z) (denied : nat) (key : string) (now : Z) :
  1 <= rps <= Int64.max_int -> 1 <= burst0 < 2 ^ 53 ->
  snd (allow_n (Z.to_nat burst0 + denied) (NewTokenBucket rps burst0) key now)
  = replicate (Z.to_nat burst0) true ++ replicate denied false.
Proof.
  intros Hrps Hb.
  apply (allow_n_same_instant rps burst0 key now); try lia.
  rewrite Z2Nat.id by lia. apply holds_New. lia.
Qed.

Lemma burst_at_one_instant_witness :
  snd (allow_n (Z.to_nat 200 + 3) (NewTokenBucket 100 200) "10.0.0.7" 1700000000000000000)
  = replicate (Z.to_nat 200) true ++ replicate 3 false.
Proof. apply burst_at_one_instant; [unfold Int64.max_int; lia | lia]. Defined.

(** *** After an idle time *)

Lemma quot_seconds d s :
  0 <= s -> s * Second <= d -> s <= Z.quot d Second.
Proof.
  unfold Second. intros Hs Hd. rewrite Z.quot_div_nonneg by lia.
  apply Z.div_le_lower_bound; lia.
Qed.

(** A duration of at least [s] whole seconds is at least [s] as a
    number of seconds. *)
Lemma Duration_Seconds_above d s :
  0 <= s -> s * Second <= d -> d <= Int64.max_int ->
  above (s * one_value) (Duration_Seconds d).
Proof.
  intros Hs Hd Hmax. pose proof (quot_seconds d s Hs Hd) as Hq.
  unfold Duration_Seconds. fold (Z.quot d Second).
  assert (Hsec : 0 <= Z.quot d Second < 2 ^ 53).
  { split; [lia |]. unfold Second in *. rewrite Z.quot_div_nonneg by lia.
    apply Z.div_lt_upper_bound; [lia |]. rewrite max_int_eq in Hmax.
    change (2 ^ 63) with 9223372036854775808 in Hmax.
    change (2 ^ 53) with 9007199254740992. lia. }
  assert (Hr : 0 <= Z.rem d Second < Second)
    by (unfold Second in *; apply Z.rem_bound_pos; lia).
  pose proof one_value_pos as H1.
  apply (above_weaken (Z.quot d Second * one_value)); [nia |].
  apply add_above_l; [apply float64_of_int_exact, Hsec |].
  assert (Hn : nonneg (float64_of_int (Z.rem d Second))).
  { apply float64_of_int_nonneg. rewrite max_int_eq. unfold Second in *.
    change (2 ^ 63) with 9223372036854775808. lia. }
  apply (div_nonneg _ _ _ Hn value_1e9). lia.
Qed.

(** The smaller of a number and one that is not below it. *)
Lemma min_above b x vb : value b = Some vb -> above vb x -> value (min b x) = Some vb.
Proof.
  intros Vb [Hinf | (vx & Vx & Hv)]; unfold min.
  - rewrite (ltb_infinity b vb x Vb Hinf). exact Vb.
  - rewrite (value_ltb b x vb vx Vb Vx).
    destruct (Z.ltb_spec vb vx); [exact Vb |]. unfold value. rewrite Vx. f_equal. lia.
Qed.

Lemma min_at_least b x vb v :
  value b = Some vb -> v <= vb -> above v x ->
  exists vm, value (min b x) = Some vm /\ v <= vm.
Proof.
  intros Vb Hb [Hinf | (vx & Vx & Hv)]; unfold min.
  - rewrite (ltb_infinity b vb x Vb Hinf). exists vb. auto.
  - rewrite (value_ltb b x vb vx Vb Vx).
    destruct (Z.ltb_spec vb vx); [exists vb | exists vx]; auto.
Qed.

(** After [s] whole seconds the tokens that accrue are at least [n],
    when [n] is at most [s] times the rate. *)
Lemma accrued_above rps tb b now s n vt :
  1 <= rps < 2 ^ 53 -> rate tb = float64_of_int rps ->
  value (tokens b) = Some vt ->
  0 <= s <= 9223372036 -> lastRefill b + s * Second <= now ->
  1 <= n < 2 ^ 53 -> n <= s * rps ->
  above (n * one_value)
    (tokens b + Duration_Seconds (Time_Sub now (lastRefill b)) * rate tb)%float.
Proof.
  intros Hrps Hrate Vt Hs Hidle Hn Hle. pose proof one_value_pos as H1.
  apply add_above_r; [apply (value_nonneg _ _ Vt) |].
  destruct (representable_int n Hn) as (mF & eF & HF & EF). rewrite <- EF.
  assert (Hsub : s * Second <= Time_Sub now (lastRefill b) <= Int64.max_int).
  { unfold Time_Sub, Int64.clamp, Int64.max_int, Int64.min_int, Second in *.
    change (2 ^ 63) with 9223372036854775808. lia. }
  assert (Hs1 : 1 <= s) by nia.
  apply (mul_above _ _ (s * one_value) (rps * one_value)).
  - apply Duration_Seconds_above; lia.
  - nia.
  - rewrite Hrate. apply float64_of_int_exact. lia.
  - nia.
  - exact HF.
  - rewrite EF. nia.
Qed.

(** The first call after an idle time in which the bucket fills. *)
Lemma Allow_after_idle rps burst0 key now s tb :
  1 <= rps < 2 ^ 53 -> 1 <= burst0 < 2 ^ 53 ->
  rate tb = float64_of_int rps -> burst tb = burst0 ->
  0 <= s <= 9223372036 -> burst0 <= s * rps ->
  (forall b, buckets tb !! key = Some b ->
     tokens_ok burst0 b /\ lastRefill b + s * Second <= now) ->
  snd (Allow tb key now now) = true
  /\ holds rps burst0 key now (burst0 - 1) (fst (Allow tb key now now)).
Proof.
  intros Hrps Hb Hrate Hburst Hs Hfill Hidle.
  assert (VB : value (float64_of_int (burst tb)) = Some (burst0 * one_value))
    by (rewrite Hburst; apply float64_of_int_exact; lia).
  assert (Vrefill : value (refill tb (bucket_for tb key now) now) = Some (burst0 * one_value)).
  { unfold bucket_for. destruct (buckets tb !! key) as [b |] eqn:Ek.
    - destruct (Hidle b eq_refl) as [(vt & vB & Vt & _ & _) Hlast].
      unfold refill. apply (min_above _ _ _ VB).
      apply (accrued_above rps tb b now s burst0 vt); assumption.
    - rewrite (refill_fresh rps tb now now);
        [exact VB | unfold Int64.max_int; lia | rewrite Hburst; unfold Int64.max_int; lia
         | exact Hrate | lia]. }
  destruct (Allow_whole rps burst0 key now now burst0 tb Hrate Hburst ltac:(lia) Vrefill)
    as [Hans Hnext].
  replace (1 <=? burst0) with true in Hans, Hnext by (symmetry; apply Z.leb_le; lia).
  auto.
Qed.

(** X13. A key that has been idle gets its whole burst again. Let [s]
    seconds be enough to fill a bucket, [s] times the rate being at
    least the burst. After any calls, when the key has no bucket or its
    bucket was last refilled at least [s] seconds before, the calls for
    the key at one instant are admitted until as many as the burst have
    been, and then denied. *)
Theorem full_burst_after_idle (rps burst0 clock : Z) (calls : list call)
    (key : string) (now s : Z) (denied : nat) :
  1 <= rps < 2 ^ 53 -> 1 <= burst0 < 2 ^ 53 -> well_timed clock calls ->
  0 <= s <= 9223372036 -> burst0 <= s * rps ->
  let tb := run (NewTokenBucket rps burst0) calls in
  (forall b, buckets tb !! key = Some b -> lastRefill b + s * Second <= now) ->
  snd (allow_n (Z.to_nat burst0 + denied) tb key now)
  = replicate (Z.to_nat burst0) true ++ replicate denied false.
Proof.
  intros Hrps Hb Ht Hs Hfill tb Hidle.
  assert (Hrps' : 1 <= rps <= Int64.max_int) by (unfold Int64.max_int; lia).
  assert (Hb' : 1 <= burst0 <= Int64.max_int) by (unfold Int64.max_int; lia).
  destruct (run_ok rps burst0 calls clock _ Hrps' Hb' (New_ok rps burst0 clock) Ht)
    as (clock' & Hrate & Hburst & Hall). fold tb in Hrate, Hburst, Hall.
  destruct (Allow_after_idle rps burst0 key now s tb Hrps Hb Hrate Hburst Hs Hfill)
    as [Hans Hnext].
  { intros b Hk. split; [apply (Hall key b Hk) | apply (Hidle b Hk)]. }
  destruct (Z.to_nat burst0) as [| j] eqn:Ej; [lia |].
  change (S j + denied)%nat with (S (j + denied)). simpl.
  destruct (Allow tb key now now) as [tb1 ok] eqn:EA. simpl in Hans, Hnext. subst ok.
  replace (burst0 - 1) with (Z.of_nat j) in Hnext by lia.
  pose proof (allow_n_same_instant rps burst0 key now j denied tb1 Hrps' ltac:(lia)
                ltac:(lia) Hnext) as Hrest.
  destruct (allow_n (j + denied) tb1 key now) as [tb2 oks]. simpl in Hrest |- *.
  rewrite Hrest. reflexivity.
Qed.

Lemma full_burst_after_idle_witness :
  let tb := run (NewTokenBucket 10 20) [CallAllow "k" 0 0; CallAllow "k" 5 5] in
  snd (allow_n (Z.to_nat 20 + 1) tb "k" 2000000005) = replicate (Z.to_nat 20) true ++ [false].
Proof.
  apply (full_burst_after_idle 10 20 0 [CallAllow "k" 0 0; CallAllow "k" 5 5]
           "k" 2000000005 2 1).
  - lia.
  - lia.
  - simpl. lia.
  - lia.
  - lia.
  - intros b Hk. vm_compute in Hk. injection Hk as <-. simpl. unfold Second. lia.
Defined.

(** X14. No key is shut out for longer than a second. After any
    calls, a call for a key whose bucket was last refilled a second ago
    or more is admitted, whatever tokens the bucket had. *)
Theorem admitted_after_a_second (rps burst0 clock : Z) (calls : list call)
    (key : string) (created now : Z) :
  1 <= rps < 2 ^ 53 -> 1 <= burst0 <= Int64.max_int -> well_timed clock calls ->
  created <= now ->
  let tb := run (NewTokenBucket rps burst0) calls in
  (forall b, buckets tb !! key = Some b -> lastRefill b + Second <= now) ->
  snd (Allow tb key created now) = true.
Proof.
  intros Hrps Hb Ht Hc tb Hidle.
  assert (Hrps' : 1 <= rps <= Int64.max_int) by (unfold Int64.max_int; lia).
  destruct (run_ok rps burst0 calls clock _ Hrps' Hb (New_ok rps burst0 clock) Ht)
    as (clock' & Hrate & Hburst & Hall). fold tb in Hrate, Hburst, Hall.
  destruct (float64_of_int_value burst0 Hb) as (vB & VB & HvB & _).
  unfold Allow.
  assert (H1 : (1 <=? refill tb (bucket_for tb key created) now)%float = true).
  { unfold bucket_for. destruct (buckets tb !! key) as [b |] eqn:Ek.
    - destruct (Hall key b Ek) as [(vt & vB' & Vt & _ & _) _].
      unfold refill. rewrite Hburst.
      destruct (min_at_least _ (tokens b + Duration_Seconds (Time_Sub now (lastRefill b))
                                  * rate tb)%float vB one_value VB HvB)
        as (vm & Vm & Hvm).
      + replace one_value with (1 * one_value) by ring.
        apply (accrued_above rps tb b now 1 1 vt); try assumption; try lia.
        rewrite Z.mul_1_l. apply (Hidle b eq_refl).
      + rewrite (value_leb 1 _ one_value vm value_one Vm). apply Z.leb_le, Hvm.
    - rewrite (refill_fresh rps tb created now Hrps'); [| rewrite Hburst; exact Hb
                                                        | exact Hrate | exact Hc].
      rewrite Hburst, (value_leb 1 _ one_value vB value_one VB). apply Z.leb_le, HvB. }
  rewrite H1. reflexivity.
Qed.

Lemma admitted_after_a_second_witness :
  let tb := run (NewTokenBucket 1 1) [CallAllow "k" 0 0] in
  snd (Allow tb "k" 0 0) = false /\ snd (Allow tb "k" 1000000000 1000000000) = true.
Proof.
  split; [vm_compute; reflexivity |].
  apply (admitted_after_a_second 1 1 0 [CallAllow "k" 0 0] "k" 1000000000 1000000000).
  - lia.
  - unfold Int64.max_int. lia.
  - simpl. lia.
  - lia.
  - intros b Hk. vm_compute in Hk. injection Hk as <-. simpl. unfold Second. lia.
Defined.

(** *** A burst of zero *)

Lemma Allow_zero_burst rps clock tb key created now :
  1 <= rps <= Int64.max_int ->
  limiter_ok rps 0 clock tb -> clock <= created -> created <= now ->
  snd (Allow tb key created now) = false
  /\ limiter_ok rps 0 now (fst (Allow tb key created now)).
Proof.
  intros Hrps Hok Hc1 Hc2. pose proof Hok as (Hrate & Hburst & Hall).
  assert (Hbucket : tokens_ok 0 (bucket_for tb key created)
                    /\ lastRefill (bucket_for tb key created) <= now).
  { unfold bucket_for. destruct (buckets tb !! key) as [b |] eqn:Hk.
    - destruct (Hall key b Hk). split; [assumption | lia].
    - rewrite Hburst. split; [| simpl; lia].
      exists 0, 0. simpl. repeat split; reflexivity. }
  destruct Hbucket as [Hbok Hlast].
  pose proof (refill_ok rps 0 tb _ now Hrps Hrate Hburst Hbok Hlast) as Hrefill.
  pose proof Hrefill as (v & vB & Vt & VB & Hle). simpl in Vt.
  assert (EvB : vB = 0) by (vm_compute in VB; congruence). subst vB.
  pose proof (value_ge_0 _ _ Vt) as Hv0. pose proof one_value_pos as H1.
  unfold Allow. rewrite (value_leb 1 _ one_value v value_one Vt).
  destruct (Z.leb_spec one_value v); [lia |]. simpl. split; [reflexivity |].
  apply (limiter_ok_with_bucket rps 0 clock); [exact Hok | lia | exact Hrefill | simpl; lia].
Qed.

(** X15. A limiter made with a burst of zero admits nothing: every
    call of [Allow] is denied, for any key, at any time, sweeps or
    not. *)
Theorem zero_burst_admits_nothing (rps clock : Z) (calls : list call) :
  1 <= rps <= Int64.max_int -> well_timed clock calls ->
  Forall (fun ok => ok = false) (answers (NewTokenBucket rps 0) calls).
Proof.
  intros Hrps. generalize (New_ok rps 0 clock).
  generalize (NewTokenBucket rps 0) as tb. revert clock.
  induction calls as [| c calls IH]; intros clock tb Hok Ht; [constructor |].
  destruct c as [key created now | key | now]; simpl in Ht |- *.
  - destruct Ht as (H1 & H2 & Ht).
    destruct (Allow_zero_burst rps clock tb key created now Hrps Hok H1 H2) as [Hans Hnext].
    constructor; [exact Hans |]. apply (IH now); assumption.
  - rewrite Wait_unchanged. apply (IH clock); assumption.
  - destruct Ht as [H1 Ht]. apply (IH now); [| exact Ht].
    apply (limiter_ok_later rps 0 clock); [apply sweep_ok, Hok | exact H1].
Qed.

Lemma zero_burst_admits_nothing_witness :
  Forall (fun ok => ok = false)
    (answers (NewTokenBucket 100 0)
       [CallAllow "k" 0 0; CallSweep 5; CallAllow "k" 3600000000000 3600000000000]).
Proof.
  apply (zero_burst_admits_nothing 100 0); [unfold Int64.max_int; lia | simpl; lia].
Defined.

(** *** The sweep of idle buckets *)

Lemma value_inj x y v : value x = Some v -> value y = Some v -> 0 < v -> x = y.
Proof.
  intros Vx Vy Hv.
  destruct (value_positive_finite x v Vx Hv) as (mx & ex & Ex).
  destruct (value_positive_finite y v Vy Hv) as (my & ey & Ey).
  pose proof (Prim2SF_valid x) as Hx. pose proof (Prim2SF_valid y) as Hy.
  rewrite Ex in Hx. rewrite Ey in Hy.
  unfold value in Vx, Vy. rewrite Ex in Vx. rewrite Ey in Vy. simpl in Vx, Vy.
  destruct (valZ_inj mx ex my ey Hx Hy ltac:(congruence)) as [-> ->].
  apply Prim2SF_inj. rewrite Ex, Ey. reflexivity.
Qed.

Lemma sweeps_only_later rps burst0 clock now swept kept :
  sweeps_only rps burst0 clock swept kept -> clock <= now ->
  sweeps_only rps burst0 now swept kept.
Proof.
  intros (H1 & H2 & H3 & H4 & Hall) Hle. repeat (split; [assumption |]).
  intros key. destruct (Hall key) as [E | (Hn & b & Hb & Hok & Hidle)]; [left; exact E |].
  right. split; [exact Hn |]. exists b. repeat split; try assumption. lia.
Qed.

Lemma sweeps_only_Allow rps burst0 clock swept kept key created now :
  1 <= rps < 2 ^ 53 -> 1 <= burst0 < 2 ^ 53 -> burst0 <= 300 * rps ->
  sweeps_only rps burst0 clock swept kept -> clock <= created -> created <= now ->
  snd (Allow swept key created now) = snd (Allow kept key created now)
  /\ sweeps_only rps burst0 now (fst (Allow swept key created now))
       (fst (Allow kept key created now)).
Proof.
  intros Hrps Hb Hfill Hrel Hc1 Hc2.
  pose proof Hrel as (Hr1 & Hr2 & Hb1 & Hb2 & Hall).
  assert (Hkey : snd (Allow swept key created now) = snd (Allow kept key created now)
                 /\ buckets (fst (Allow swept key created now)) !! key
                    = buckets (fst (Allow kept key created now)) !! key).
  { destruct (Hall key) as [E | (Hn & b & Hk & (vt & vB & Vt & _ & _) & Hidle)].
    - apply Allow_local; congruence.
    - assert (Hrps' : 1 <= rps <= Int64.max_int) by (unfold Int64.max_int; lia).
      assert (Hb' : 1 <= burst0 <= Int64.max_int) by (unfold Int64.max_int; lia).
      assert (VB : value (float64_of_int burst0) = Some (burst0 * one_value))
        by (apply float64_of_int_exact; lia).
      assert (E : refill kept b now = float64_of_int burst0).
      { apply (value_inj _ _ (burst0 * one_value)); [| exact VB | pose proof one_value_pos; nia].
        unfold refill. rewrite Hb2. apply (min_above _ _ _ VB).
        apply (accrued_above rps kept b now 300 burst0 vt); try assumption; lia. }
      assert (E' : refill swept {| tokens := float64_of_int burst0; lastRefill := created |} now
                   = float64_of_int burst0).
      { pose proof (refill_fresh rps swept created now Hrps') as F.
        rewrite Hb1 in F. apply F; assumption. }
      unfold Allow, bucket_for. rewrite Hn, Hk, Hb1, E', E.
      destruct (1 <=? float64_of_int burst0)%float; simpl;
        rewrite !lookup_insert_eq; auto. }
  split; [apply Hkey |].
  destruct (Allow_rate_burst swept key created now) as [Er1 Eb1].
  destruct (Allow_rate_burst kept key created now) as [Er2 Eb2].
  split; [congruence |]. split; [congruence |]. split; [congruence |]. split; [congruence |].
  intros k. destruct (decide (k = key)) as [-> | Hne]; [left; apply Hkey |].
  rewrite !Allow_other_key by exact Hne.
  destruct (Hall k) as [E | (Hn & b & Hk & Hok & Hidle)]; [left; exact E |].
  right. split; [exact Hn |]. exists b. repeat split; try assumption. lia.
Qed.

Lemma sweeps_only_sweep rps burst0 clock swept kept now :
  limiter_ok rps burst0 clock kept ->
  sweeps_only rps burst0 clock swept kept -> clock <= now ->
  sweeps_only rps burst0 now (sweep swept now) kept.
Proof.
  intros (_ & _ & Hok) (Hr1 & Hr2 & Hb1 & Hb2 & Hall) Hle.
  split; [exact Hr1 |]. split; [exact Hr2 |]. split; [exact Hb1 |]. split; [exact Hb2 |].
  intros key. simpl.
  destruct (Hall key) as [E | (Hn & b & Hk & Htok & Hidle)].
  - destruct (buckets kept !! key) as [b |] eqn:Hk.
    + destruct (decide (5 * 60 * Second < Time_Sub now (lastRefill b))) as [Hold | Hnew].
      * right. split.
        -- apply map_lookup_filter_None. right. intros b' Hb'. rewrite E in Hb'.
           injection Hb' as <-. simpl. intros Hkeep. apply Hkeep, Hold.
        -- exists b. split; [reflexivity |]. split; [apply (Hok key b Hk) |].
           unfold Time_Sub, Int64.clamp, Int64.max_int, Int64.min_int, Second in *. lia.
      * left. apply map_lookup_filter_Some. split; [exact E | exact Hnew].
    + left. apply map_lookup_filter_None. left. exact E.
  - right. split; [apply map_lookup_filter_None; left; exact Hn |].
    exists b. repeat split; try assumption. lia.
Qed.

Lemma answers_without_sweeps rps burst0 calls : forall clock swept kept,
  1 <= rps < 2 ^ 53 -> 1 <= burst0 < 2 ^ 53 -> burst0 <= 300 * rps ->
  limiter_ok rps burst0 clock kept ->
  sweeps_only rps burst0 clock swept kept -> well_timed clock calls ->
  answers swept calls = answers kept (without_sweeps calls).
Proof.
  induction calls as [| c calls IH]; intros clock swept kept Hrps Hb Hfill Hok Hrel Ht;
    [reflexivity |].
  assert (Hrps' : 1 <= rps <= Int64.max_int) by (unfold Int64.max_int; lia).
  assert (Hb' : 1 <= burst0 <= Int64.max_int) by (unfold Int64.max_int; lia).
  destruct c as [key created now | key | now]; simpl in Ht |- *.
  - destruct Ht as (H1 & H2 & Ht).
    destruct (sweeps_only_Allow rps burst0 clock swept kept key created now
                Hrps Hb Hfill Hrel H1 H2) as [Hans Hnext].
    rewrite Hans. f_equal.
    apply (IH now); try assumption.
    apply (Allow_ok rps burst0 clock); assumption.
  - rewrite !Wait_unchanged. apply (IH clock); assumption.
  - destruct Ht as [H1 Ht]. apply (IH now); try assumption.
    + apply (limiter_ok_later rps burst0 clock); assumption.
    + apply (sweeps_only_sweep rps burst0 clock); assumption.
Qed.

(** X16. Sweeps change no answer of [Allow] when the burst is at most
    300 times the rate, that is, when five idle minutes fill a bucket:
    the calls of [Allow] get the answers that they get when no sweep is
    made. *)
Theorem sweeps_change_no_answer (rps burst0 clock : Z) (calls : list call) :
  1 <= rps < 2 ^ 53 -> 1 <= burst0 < 2 ^ 53 -> burst0 <= 300 * rps ->
  well_timed clock calls ->
  answers (NewTokenBucket rps burst0) calls
  = answers (NewTokenBucket rps burst0) (without_sweeps calls).
Proof.
  intros Hrps Hb Hfill Ht.
  apply (answers_without_sweeps rps burst0 calls clock); try assumption.
  - apply New_ok.
  - repeat (split; [reflexivity |]). intros key. left. reflexivity.
Qed.

Lemma sweeps_change_no_answer_witness :
  answers (NewTokenBucket 1 2) swept_calls
  = answers (NewTokenBucket 1 2) (without_sweeps swept_calls).
Proof.
  apply (sweeps_change_no_answer 1 2 0); [lia | lia | lia | simpl; lia].
Defined.

(** *** The wait when the burst is used up *)

Lemma wait_empty_small :
  forallb wait_empty_check (map Z.of_nat (seq 1 1000)) = true.
Proof. vm_compute. reflexivity. Qed.

Lemma wait_empty rps :
  1 <= rps <= Int64.max_int ->
  int64_of_float (1 / float64_of_int rps * 1000)%float = 1000 / rps.
Proof.
  intros Hrps. destruct (Z_le_gt_dec rps 1000) as [Hsmall | Hlarge].
  - pose proof wait_empty_small as Hall. rewrite forallb_forall in Hall.
    specialize (Hall rps). unfold wait_empty_check in Hall. apply Z.eqb_eq, Hall.
    apply in_map_iff. exists (Z.to_nat rps). split; [lia |]. apply in_seq. lia.
  - pose proof (wait_millis_bound rps 0 0 Hrps value_zero eq_refl) as [H0 Hle].
    cbv zeta in H0, Hle. change (1 - 0)%float with 1%float in H0, Hle.
    rewrite Z.div_small by lia. nia.
Qed.

(** The calls at one instant leave whole tokens. *)
Lemma allow_n_holds rps burst0 key now (j : nat) : forall k tb,
  1 <= rps <= Int64.max_int -> Z.of_nat j <= k <= burst0 -> burst0 < 2 ^ 53 ->
  holds rps burst0 key now k tb ->
  holds rps burst0 key now (k - Z.of_nat j) (fst (allow_n j tb key now)).
Proof.
  induction j as [| j IH]; intros k tb Hrps Hk Hb Hh.
  - replace (k - Z.of_nat 0) with k by lia. exact Hh.
  - destruct (Allow_same_instant rps burst0 key now k tb Hrps ltac:(lia) Hb Hh) as [_ Hnext].
    replace (1 <=? k) with true in Hnext by (symmetry; apply Z.leb_le; lia).
    simpl. destruct (Allow tb key now now) as [tb1 ok] eqn:EA. simpl in Hnext.
    specialize (IH (k - 1) tb1 Hrps ltac:(lia) Hb Hnext).
    destruct (allow_n j tb1 key now) as [tb2 oks]. simpl in IH |- *.
    replace (k - Z.of_nat (S j)) with (k - 1 - Z.of_nat j) by lia. exact IH.
Qed.

(** X22. The wait when the burst is used up. After as many calls at
    one instant as the burst, for a new key, [Wait] returns
    [1000 / rate] milliseconds, rounded down to a whole number, which is
    nothing for a rate above 1000, and a call of [Allow] at that instant
    is denied. *)
Theorem Wait_after_burst (rps burst0 : Z) (key : string) (now : Z) :
  1 <= rps <= Int64.max_int -> 1 <= burst0 < 2 ^ 53 ->
  let tb := fst (allow_n (Z.to_nat burst0) (NewTokenBucket rps burst0) key now) in
  snd (Wait tb key) = (1000 / rps) * Millisecond
  /\ snd (Allow tb key now now) = false.
Proof.
  intros Hrps Hb tb.
  assert (Hh : holds rps burst0 key now 0 tb).
  { replace 0 with (burst0 - Z.of_nat (Z.to_nat burst0)) by lia.
    apply allow_n_holds; [exact Hrps | lia | lia |]. apply holds_New. lia. }
  split.
  - destruct Hh as (Hrate & Hburst & Hlast & Vt).
    assert (VB : value (float64_of_int burst0) = Some (burst0 * one_value))
      by (apply float64_of_int_exact; lia).
    pose proof one_value_pos as H1.
    unfold bucket_for in Vt. unfold Wait.
    destruct (buckets tb !! key) as [b |] eqn:Ek.
    + rewrite (value_leb 1 (tokens b) one_value (0 * one_value) value_one Vt).
      destruct (Z.leb_spec one_value (0 * one_value)); [lia |]. simpl.
      assert (E1 : (1 - tokens b)%float = 1%float).
      { apply (value_inj _ _ one_value); [| exact value_one | lia].
        replace one_value with (one_value - 0 * one_value) at 2 by ring.
        apply (sub_exact _ _ _ _ value_one Vt); [lia |].
        right. replace (one_value - 0 * one_value) with (1 * one_value) by ring.
        apply representable_int. lia. }
      rewrite E1, Hrate, (wait_empty rps Hrps). unfold Int64.mul.
      apply Int64.wrap64_id.
      assert (0 <= 1000 / rps <= 1000).
      { split; [apply Z.div_pos; lia |]. apply Z.div_le_upper_bound; nia. }
      unfold Int64.in_range, Int64.min_int, Int64.max_int, Millisecond. lia.
    + simpl in Vt. rewrite Hburst, VB in Vt. injection Vt as Vt. nia.
  - destruct (Allow_same_instant rps burst0 key now 0 tb Hrps ltac:(lia) ltac:(lia) Hh)
      as [Hans _]. exact Hans.
Qed.

Lemma Wait_after_burst_witness :
  let tb := fst (allow_n (Z.to_nat 20) (NewTokenBucket 3 20) "k" 0) in
  snd (Wait tb "k") = 333 * Millisecond /\ snd (Allow tb "k" 0 0) = false.
Proof.
  apply (Wait_after_burst 3 20 "k" 0); [unfold Int64.max_int; lia | lia].
Defined.

End RateLimit.

(** ** The configuration: [Load] and [Validate] *)

Module Config.
Import Go.

Record ServerConfig := {
  Address : string;
  Port : Z;
  ReadTimeout : Z;
  WriteTimeout : Z;
  IdleTimeout : Z;
  ShutdownTimeout : Z
}.

Record UpstreamConfig := {
  URL : string;
  Timeout : Z;
  MaxIdleConns : Z;
  MaxConnsPerHost : Z;
  IdleConnTimeout : Z;
  TLSHandshakeTimeout : Z;
  ForbiddenHeaders : list string
}.

Record RedisConfig := {
  Redis_Address : string;
  Password : string;
  DB : Z
}.

Record CacheConfig := {
  Cache_Enabled : bool;
  MaxSize : Z;
  DefaultTTL : Z;
  RespectCacheControl : bool;
  Type_ : string;
  Redis : RedisConfig
}.

Record RateLimitConfig := {
  RateLimit_Enabled : bool;
  RequestsPerSecond : Z;
  Burst : Z;
  ByIP : bool;
  ByAPIKey : bool;
  APIKeyHeader : string
}.

Record LoggingConfig := {
  Level : string;
  Format : string;
  OutputPath : string
}.

Record MetricsConfig := {
  Metrics_Enabled : bool;
  Path : string;
  Metrics_Port : Z
}.

Record Config := {
  Server : ServerConfig;
  Upstream : UpstreamConfig;
  Cache : CacheConfig;
  RateLimit : RateLimitConfig;
  Logging : LoggingConfig;
  Metrics : MetricsConfig
}.

Definition Minute : Z := 60 * Second.

Definition defaultConfig : Config :=
  {| Server := {| Address := "0.0.0.0"; Port := 8080;
                  ReadTimeout := 10 * Second; WriteTimeout := 10 * Second;
                  IdleTimeout := 120 * Second; ShutdownTimeout := 30 * Second |};
     Upstream := {| URL := "http://localhost:8081"; Timeout := 30 * Second;
                    MaxIdleConns := 100; MaxConnsPerHost := 100;
                    IdleConnTimeout := 90 * Second; TLSHandshakeTimeout := 10 * Second;
                    ForbiddenHeaders := ["Authorization"; "Cookie"; "Set-Cookie"] |};
     Cache := {| Cache_Enabled := true; MaxSize := 100 * 1024 * 1024;
                 DefaultTTL := 5 * Minute; RespectCacheControl := true;
                 Type_ := "memory";
                 Redis := {| Redis_Address := ""; Password := ""; DB := 0 |} |};
     RateLimit := {| RateLimit_Enabled := true; RequestsPerSecond := 100; Burst := 200;
                     ByIP := true; ByAPIKey := false; APIKeyHeader := "X-API-Key" |};
     Logging := {| Level := "info"; Format := "json"; OutputPath := "stdout" |};
     Metrics := {| Metrics_Enabled := true; Path := "/metrics"; Metrics_Port := 9090 |} |}.

(** The errors of [Validate], by the check that fails. *)
Inductive ValidationError :=
| InvalidServerPort (port : Z)
| UpstreamURLRequired
| CacheMaxSizeNotPositive
| RequestsPerSecondNotPositive.

(** [c.Validate()], [None] for [nil]. *)
Definition Validate (c : Config) : option ValidationError :=
  if (Port (Server c) <? 1) || (65535 <? Port (Server c))
  then Some (InvalidServerPort (Port (Server c)))
  else if String.eqb (URL (Upstream c)) "" then Some UpstreamURLRequired
  else if Cache_Enabled (Cache c) && (MaxSize (Cache c) <=? 0)
  then Some CacheMaxSizeNotPositive
  else if RateLimit_Enabled (RateLimit c) && (RequestsPerSecond (RateLimit c) <=? 0)
  then Some RequestsPerSecondNotPositive
  else None.

(** The updates of single fields that [loadFromEnv] makes. *)
Definition set_Address (c : Config) (v : string) : Config :=
  {| Server := {| Address := v; Port := Port (Server c);
                  ReadTimeout := ReadTimeout (Server c);
                  WriteTimeout := WriteTimeout (Server c);
                  IdleTimeout := IdleTimeout (Server c);
                  ShutdownTimeout := ShutdownTimeout (Server c) |};
     Upstream := Upstream c; Cache := Cache c; RateLimit := RateLimit c;
     Logging := Logging c; Metrics := Metrics c |}.

Definition set_Port (c : Config) (v : Z) : Config :=
  {| Server := {| Address := Address (Server c); Port := v;
                  ReadTimeout := ReadTimeout (Server c);
                  WriteTimeout := WriteTimeout (Server c);
                  IdleTimeout := IdleTimeout (Server c);
                  ShutdownTimeout := ShutdownTimeout (Server c) |};
     Upstream := Upstream c; Cache := Cache c; RateLimit := RateLimit c;
     Logging := Logging c; Metrics := Metrics c |}.

Definition set_URL (c : Config) (v : string) : Config :=
  {| Server := Server c;
     Upstream := {| URL := v; Timeout := Timeout (Upstream c);
                    MaxIdleConns := MaxIdleConns (Upstream c);
                    MaxConnsPerHost := MaxConnsPerHost (Upstream c);
                    IdleConnTimeout := IdleConnTimeout (Upstream c);
                    TLSHandshakeTimeout := TLSHandshakeTimeout (Upstream c);
                    ForbiddenHeaders := ForbiddenHeaders (Upstream c) |};
     Cache := Cache c; RateLimit := RateLimit c;
     Logging := Logging c; Metrics := Metrics c |}.

Definition set_Cache_Enabled (c : Config) (v : bool) : Config :=
  {| Server := Server c; Upstream := Upstream c;
     Cache := {| Cache_Enabled := v; MaxSize := MaxSize (Cache c);
                 DefaultTTL := DefaultTTL (Cache c);
                 RespectCacheControl := RespectCacheControl (Cache c);
                 Type_ := Type_ (Cache c); Redis := Redis (Cache c) |};
     RateLimit := RateLimit c; Logging := Logging c; Metrics := Metrics c |}.

Definition set_RateLimit_Enabled (c : Config) (v : bool) : Config :=
  {| Server := Server c; Upstream := Upstream c; Cache := Cache c;
     RateLimit := {| RateLimit_Enabled := v;
                     RequestsPerSecond := RequestsPerSecond (RateLimit c);
                     Burst := Burst (RateLimit c); ByIP := ByIP (RateLimit c);
                     ByAPIKey := ByAPIKey (RateLimit c);
                     APIKeyHeader := APIKeyHeader (RateLimit c) |};
     Logging := Logging c; Metrics := Metrics c |}.

Definition set_Level (c : Config) (v : string) : Config :=
  {| Server := Server c; Upstream := Upstream c; Cache := Cache c;
     RateLimit := RateLimit c;
     Logging := {| Level := v; Format := Format (Logging c);
                   OutputPath := OutputPath (Logging c) |};
     Metrics := Metrics c |}.

(** What a call does: it returns a value, returns an error, or panics. *)
Inductive outcome (A E : Type) :=
| Returned (a : A)
| Failed (e : E)
| Panicked.
Arguments Returned {A E} a.
Arguments Failed {A E} e.
Arguments Panicked {A E}.

Section Load.

(** The errors of the file system and of the two decoders. *)
Variable error : Type.
(** [os.Getenv]: the value of a variable, empty when it is not set. *)
Variable Getenv : string -> string.
(** [fmt.Sscanf(v, "%d", &port)]: the integer scanned, if any. *)
Variable Sscanf_int : string -> option Z.
(** [os.ReadFile] *)
Variable ReadFile : string -> error + string.
(** [yaml.Unmarshal(data, cfg)] and [json.Unmarshal(data, cfg)]: the
    configuration as the decoder leaves it, and its error if any. *)
Variable yaml_Unmarshal json_Unmarshal : string -> Config -> Config * option error.

(** The errors of [Load]. *)
Inductive LoadError :=
| FromFile (e : error)
| Invalid (e : ValidationError).

(** [loadFromEnv(cfg)]. It returns [nil] always; here it returns the
    configuration. *)
Definition loadFromEnv (cfg : Config) : Config :=
  let cfg :=
    let v := Getenv "PROXY_SERVER_ADDRESS" in
    if negb (String.eqb v "") then set_Address cfg v else cfg in
  let cfg :=
    let v := Getenv "PROXY_SERVER_PORT" in
    if negb (String.eqb v "") then
      match Sscanf_int v with
      | Some port => set_Port cfg port
      | None => cfg
      end
    else cfg in
  let cfg :=
    let v := Getenv "PROXY_UPSTREAM_URL" in
    if negb (String.eqb v "") then set_URL cfg v else cfg in
  let cfg :=
    let v := Getenv "PROXY_CACHE_ENABLED" in
    if negb (String.eqb v "")
    then set_Cache_Enabled cfg (String.eqb v "true" || String.eqb v "1") else cfg in
  let cfg :=
    let v := Getenv "PROXY_RATELIMIT_ENABLED" in
    if negb (String.eqb v "")
    then set_RateLimit_Enabled cfg (String.eqb v "true" || String.eqb v "1") else cfg in
  let v := Getenv "PROXY_LOG_LEVEL" in
  if negb (String.eqb v "") then set_Level cfg v else cfg.

(** [loadFromFile(filePath, cfg)]. The slice [filePath[len(filePath)-4:]]
    panics for a path of fewer than four bytes. *)
Definition loadFromFile (filePath : string) (cfg : Config) : outcome Config error :=
  match ReadFile filePath with
  | inl err => Failed err
  | inr data =>
      if (String.length filePath <? 4)%nat then Panicked
      else
        let ext := Extract.slice_from (String.length filePath - 4) filePath in
        let decoded :=
          if String.eqb ext "yaml" || String.eqb ext ".yml" then yaml_Unmarshal data cfg
          else if String.eqb ext "json" then json_Unmarshal data cfg
          else match yaml_Unmarshal data cfg with
               | (cfg', Some _) => json_Unmarshal data cfg'
               | (cfg', None) => (cfg', None)
               end in
        match decoded with
        | (_, Some err) => Failed err
        | (cfg', None) => Returned cfg'
        end
  end.

(** [Load(filePath)] *)
Definition Load (filePath : string) : outcome Config LoadError :=
  let from_file :=
    if negb (String.eqb filePath "") then
      match loadFromFile filePath defaultConfig with
      | Returned cfg => Returned cfg
      | Failed err => Failed (FromFile err)
      | Panicked => Panicked
      end
    else Returned defaultConfig in
  match from_file with
  | Returned cfg =>
      let cfg := loadFromEnv cfg in
      match Validate cfg with
      | Some err => Failed (Invalid err)
      | None => Returned cfg
      end
  | Failed err => Failed err
  | Panicked => Panicked
  end.

End Load.

(** A configuration that [Validate] accepts. *)
Definition valid (c : Config) : Prop :=
  1 <= Port (Server c) <= 65535
  /\ URL (Upstream c) <> ""
  /\ (Cache_Enabled (Cache c) = true -> 0 < MaxSize (Cache c))
  /\ (RateLimit_Enabled (RateLimit c) = true -> 0 < RequestsPerSecond (RateLimit c)).

(** For examples: an environment that sets the variables listed, a
    scanner of integers, file systems with no file and with one file,
    and a decoder that fails. *)
Definition env_of (vars : list (string * string)) (name : string) : string :=
  match List.find (fun kv => String.eqb (fst kv) name) vars with
  | Some kv => snd kv
  | None => ""
  end.

Definition scan_digits (v : string) : option Z := Atoi v.

Definition no_file (path : string) : unit + string := inl tt.

Definition one_file (name data path : string) : unit + string :=
  if String.eqb path name then inr data else inl tt.

Definition no_decoder (data : string) (cfg : Config) : Config * option unit :=
  (cfg, Some tt).

Section Properties.

Variable error : Type.
Variable Getenv : string -> string.
Variable Sscanf_int : string -> option Z.
Variable ReadFile : string -> error + string.
Variable yaml_Unmarshal json_Unmarshal : string -> Config -> Config * option error.

Lemma Validate_None_iff (c : Config) : Validate c = None <-> valid c.
Proof.
  unfold Validate, valid.
  destruct (Z.ltb_spec (Port (Server c)) 1) as [Hp1 | Hp1]; simpl;
    [split; [discriminate | lia] |].
  destruct (Z.ltb_spec 65535 (Port (Server c))) as [Hp2 | Hp2]; simpl;
    [split; [discriminate | lia] |].
  destruct (String.eqb_spec (URL (Upstream c)) "") as [Hu | Hu];
    [split; [discriminate | intros (_ & Hv & _); contradiction] |].
  destruct (Cache_Enabled (Cache c)); simpl;
    [destruct (Z.leb_spec (MaxSize (Cache c)) 0) as [Hm | Hm];
       [split; [discriminate | intros (_ & _ & Hv & _); specialize (Hv eq_refl); lia] |] |];
    (destruct (RateLimit_Enabled (RateLimit c)); simpl;
     [destruct (Z.leb_spec (RequestsPerSecond (RateLimit c)) 0) as [Hr | Hr];
        [split; [discriminate | intros (_ & _ & _ & Hv); specialize (Hv eq_refl); lia] |] |]);
    (split; [intros _ | reflexivity]);
    (split; [lia |]); (split; [exact Hu |]);
    (split; intros Hv; first [discriminate Hv | lia]).
Qed.

(** X17. A configuration that [Load] returns is valid, whatever the
    file, the decoders and the environment give: its port is between 1
    and 65535, its upstream URL is not empty, its cache size is positive
    when the cache is enabled, and its rate is positive when the rate
    limit is enabled. *)
Theorem Load_returns_valid (filePath : string) (cfg : Config) :
  Load error Getenv Sscanf_int ReadFile yaml_Unmarshal json_Unmarshal filePath = Returned cfg ->
  valid cfg.
Proof.
  unfold Load.
  destruct (if negb (String.eqb filePath "") then _ else _) as [c | e |]; try discriminate.
  destruct (Validate (loadFromEnv Getenv Sscanf_int c)) eqn:EV; [discriminate |].
  intros [= <-]. apply Validate_None_iff, EV.
Qed.

(** X18. [Load] of a path of one to three bytes: when the file cannot
    be read, [Load] returns the error of the read; when it can, [Load]
    panics, the extension being taken from the last four bytes of the
    path. *)
Theorem Load_short_path (filePath : string) :
  filePath <> "" -> (String.length filePath < 4)%nat ->
  match ReadFile filePath with
  | inr _ =>
      Load error Getenv Sscanf_int ReadFile yaml_Unmarshal json_Unmarshal filePath = Panicked
  | inl err =>
      Load error Getenv Sscanf_int ReadFile yaml_Unmarshal json_Unmarshal filePath
      = Failed (FromFile error err)
  end.
Proof.
  intros Hne Hlen. unfold Load, loadFromFile.
  apply String.eqb_neq in Hne. rewrite Hne. cbn [negb].
  destruct (ReadFile filePath) as [err | data]; [reflexivity |].
  apply Nat.ltb_lt in Hlen. rewrite Hlen. reflexivity.
Qed.

Lemma loadFromEnv_fields (cfg : Config) :
  let cfg' := loadFromEnv Getenv Sscanf_int cfg in
  (Port (Server cfg') = Port (Server cfg)
   \/ (Getenv "PROXY_SERVER_PORT" <> ""
       /\ Sscanf_int (Getenv "PROXY_SERVER_PORT") = Some (Port (Server cfg'))))
  /\ (URL (Upstream cfg') = URL (Upstream cfg) \/ URL (Upstream cfg') <> "")
  /\ MaxSize (Cache cfg') = MaxSize (Cache cfg)
  /\ RequestsPerSecond (RateLimit cfg') = RequestsPerSecond (RateLimit cfg).
Proof.
  set (kept := fun c : Config =>
    (Port (Server c) = Port (Server cfg)
     \/ (Getenv "PROXY_SERVER_PORT" <> ""
         /\ Sscanf_int (Getenv "PROXY_SERVER_PORT") = Some (Port (Server c))))
    /\ (URL (Upstream c) = URL (Upstream cfg) \/ URL (Upstream c) <> "")
    /\ MaxSize (Cache c) = MaxSize (Cache cfg)
    /\ RequestsPerSecond (RateLimit c) = RequestsPerSecond (RateLimit cfg)).
  assert (Hother : forall (b : bool) (c c' : Config),
            Port (Server c') = Port (Server c) -> URL (Upstream c') = URL (Upstream c) ->
            MaxSize (Cache c') = MaxSize (Cache c) ->
            RequestsPerSecond (RateLimit c') = RequestsPerSecond (RateLimit c) ->
            kept c -> kept (if b then c' else c)).
  { intros b c c' Hp Hu Hm Hr Hc. destruct b; [| exact Hc].
    unfold kept in *. rewrite Hp, Hu, Hm, Hr. exact Hc. }
  change (kept (loadFromEnv Getenv Sscanf_int cfg)). unfold loadFromEnv.
  do 3 (apply Hother; try reflexivity).
  match goal with
  | |- kept (if _ then set_URL ?c _ else _) => assert (Hc : kept c)
  end.
  - match goal with
    | |- kept (if _ then match _ with Some _ => _ | None => ?c end else _) =>
        assert (Ha : kept c)
    end.
    { apply Hother; try reflexivity. unfold kept. auto. }
    destruct (String.eqb_spec (Getenv "PROXY_SERVER_PORT") "") as [Ep | Ep]; [exact Ha |].
    destruct (Sscanf_int (Getenv "PROXY_SERVER_PORT")) as [p |] eqn:Es; [| exact Ha].
    destruct Ha as (_ & Hu & Hm & Hr). cbn [negb].
    split; [right; split; [exact Ep | reflexivity] |]. split; [exact Hu |].
    split; [exact Hm | exact Hr].
  - destruct (String.eqb_spec (Getenv "PROXY_UPSTREAM_URL") "") as [Eu | Eu]; [exact Hc |].
    destruct Hc as (Hp & _ & Hm & Hr). cbn [negb].
    split; [exact Hp |]. split; [right; exact Eu |]. split; [exact Hm | exact Hr].
Qed.

(** X19. Without a file, only the port can make [Load] fail. [Load]
    returns the defaults with the settings of the environment when
    [PROXY_SERVER_PORT] is not set, does not scan as an integer, or
    scans as one between 1 and 65535; it fails with the error of the
    port when the variable scans as an integer outside that range. *)
Theorem Load_without_file :
  let port := Getenv "PROXY_SERVER_PORT" in
  let loaded := loadFromEnv Getenv Sscanf_int defaultConfig in
  (port = "" \/ Sscanf_int port = None
   \/ (exists p, Sscanf_int port = Some p /\ 1 <= p <= 65535) ->
     Load error Getenv Sscanf_int ReadFile yaml_Unmarshal json_Unmarshal "" = Returned loaded)
  /\ (forall p, port <> "" -> Sscanf_int port = Some p -> ~ 1 <= p <= 65535 ->
        Load error Getenv Sscanf_int ReadFile yaml_Unmarshal json_Unmarshal ""
        = Failed (Invalid error (InvalidServerPort p))).
Proof.
  intros port loaded.
  destruct (loadFromEnv_fields defaultConfig) as (HP & HU & HM & HR).
  fold loaded in HP, HU, HM, HR. fold port in HP.
  assert (HURL : URL (Upstream loaded) <> "").
  { destruct HU as [-> | H]; [discriminate | exact H]. }
  assert (Hrest : forall p, Port (Server loaded) = p ->
            Validate loaded = if (p <? 1) || (65535 <? p)
                              then Some (InvalidServerPort p) else None).
  { intros p <-. unfold Validate.
    destruct ((Port (Server loaded) <? 1) || (65535 <? Port (Server loaded))); [reflexivity |].
    apply String.eqb_neq in HURL. rewrite HURL, HM, HR. simpl.
    rewrite !andb_false_r. reflexivity. }
  unfold Load. change (negb (String.eqb "" "")) with false. cbv iota. fold loaded.
  split.
  - intros Hok.
    assert (Hport : 1 <= Port (Server loaded) <= 65535).
    { destruct HP as [-> | [Hne Hscan]]; [simpl; lia |].
      destruct Hok as [E | [E | (p & E & Hp)]]; [contradiction | congruence |].
      rewrite Hscan in E. injection E as ->. exact Hp. }
    rewrite (Hrest _ eq_refl).
    destruct (Z.ltb_spec (Port (Server loaded)) 1); [lia |].
    destruct (Z.ltb_spec 65535 (Port (Server loaded))); [lia |]. reflexivity.
  - intros p Hne Hscan Hbad.
    assert (Hport : Port (Server loaded) = p).
    { assert (Hother : forall (b : bool) (c c' : Config),
                Port (Server c') = Port (Server c) ->
                Port (Server c) = p -> Port (Server (if b then c' else c)) = p).
      { intros b c c' Hc' Hc. destruct b; congruence. }
      unfold loaded, loadFromEnv. fold port.
      do 4 (apply Hother; [reflexivity |]).
      apply String.eqb_neq in Hne. rewrite Hne, Hscan. reflexivity. }
    rewrite (Hrest p Hport).
    destruct (Z.ltb_spec p 1); [reflexivity |].
    destruct (Z.ltb_spec 65535 p); [reflexivity | lia].
Qed.

End Properties.

Lemma Load_returns_valid_witness :
  valid (loadFromEnv (env_of [("PROXY_SERVER_PORT", "9000")]) scan_digits defaultConfig).
Proof.
  apply (Load_returns_valid unit (env_of [("PROXY_SERVER_PORT", "9000")]) scan_digits
           no_file no_decoder no_decoder "").
  vm_compute. reflexivity.
Defined.

Lemma Load_short_path_witness :
  Load unit (env_of []) scan_digits (one_file "cfg" "port: 1") no_decoder no_decoder "cfg"
  = Panicked.
Proof.
  apply (Load_short_path unit (env_of []) scan_digits (one_file "cfg" "port: 1")
           no_decoder no_decoder "cfg"); [discriminate | simpl; lia].
Defined.

End Config.
